(** * lmem: a first-fit heap allocator over brk and mmap

    Shallow embedding of [lmem.c] and proofs about it.

    Platform model: LP64, little endian (x86-64 Linux, which the calls to
    brk, mmap, mremap and munmap presuppose).  [size_t] and pointers are
    64-bit unsigned integers, represented in [Z] with the wrap-around
    written out; [sizeof (struct memblk_t)] is 32.  The process memory is
    one flat byte-addressed store shared by block headers and payload, so
    that a write through one pointer is seen through every other.  The
    kernel decides which addresses are mapped; [memset] and [memcpy], whose
    length comes from the caller, end the process when they leave the
    mapped pages. *)

From Stdlib Require Import ZArith List Bool Lia.
Import ListNotations.
Local Open Scope Z_scope.

(* Arithmetic stays folded under [simpl]; [lia] and [vm_compute] decide it. *)
#[local] Arguments Z.mul : simpl never.
#[local] Arguments Z.add : simpl never.
#[local] Arguments Z.sub : simpl never.
#[local] Arguments Z.pow : simpl never.
#[local] Arguments Z.div : simpl never.
#[local] Arguments Z.modulo : simpl never.
#[local] Arguments Z.land : simpl never.
#[local] Arguments Z.lnot : simpl never.
#[local] Arguments Z.eqb : simpl never.
#[local] Arguments Z.leb : simpl never.
#[local] Arguments Z.ltb : simpl never.

(** * Part I: the program *)

(** ** Machine integers and pointers *)

Definition WORD : Z := 2 ^ 64.

(** Truncation to [size_t] / a pointer. *)
Definition wrap (x : Z) : Z := x mod WORD.

(** [sizeof (struct memblk_t)]: four 8-byte fields. *)
Definition HDR : Z := 32.

Definition NULL : Z := 0.

(** The all-ones pointer: the failure value of the brk wrapper, also
    [MAP_FAILED] and [LMEM_NEXT_MMAP]. *)
Definition MINUS1 : Z := WORD - 1.

Definition LMEM_PAGESIZE : Z := 4096.
Definition LMEM_NEXT_MMAP : Z := MINUS1.
Definition MAP_FAILED : Z := MINUS1.
Definition LMEM_MMAP_TRESHOLD : Z := LMEM_PAGESIZE * 16.

(** Arithmetic on pointers to [struct memblk_t]: [p + n] and [p - n]. *)
Definition ptr_add (p n : Z) : Z := wrap (p + HDR * n).
Definition ptr_sub (p n : Z) : Z := wrap (p - HDR * n).

(** ** Byte-addressed memory *)

Definition memory : Type := Z -> Z.

Definition in_range (a n x : Z) : bool := (a <=? x) && (x <? a + n).

(** Byte [i] of the little-endian encoding of [v]. *)
Definition byte_of (v i : Z) : Z := (v / 2 ^ (8 * i)) mod 256.

Definition load64 (m : memory) (a : Z) : Z :=
  (m a) mod 256
  + 2 ^ 8 * ((m (a + 1)) mod 256)
  + 2 ^ 16 * ((m (a + 2)) mod 256)
  + 2 ^ 24 * ((m (a + 3)) mod 256)
  + 2 ^ 32 * ((m (a + 4)) mod 256)
  + 2 ^ 40 * ((m (a + 5)) mod 256)
  + 2 ^ 48 * ((m (a + 6)) mod 256)
  + 2 ^ 56 * ((m (a + 7)) mod 256).

Definition store64 (m : memory) (a v : Z) : memory :=
  fun x => if in_range a 8 x then byte_of v (x - a) else m x.

(** The memory with the [n] bytes from [p] on set to the byte [c]. *)
Definition fill_bytes (m : memory) (p c n : Z) : memory :=
  fun x => if in_range p n x then c mod 256 else m x.

(** The memory with the [n] bytes from [src] on copied to [dst]: every
    source byte is read from the memory as it is before the copy. *)
Definition copy_bytes (m : memory) (dst src n : Z) : memory :=
  fun x => if in_range dst n x then m (src + (x - dst)) else m x.

(** ** Block headers

    [struct memblk_t] is laid out as four consecutive 64-bit fields:
    [isfree] at offset 0, [size] at 8, [prev] at 16 and [next] at 24. *)

Definition get_isfree (m : memory) (b : Z) : Z := load64 m b.
Definition get_size (m : memory) (b : Z) : Z := load64 m (b + 8).
Definition get_prev (m : memory) (b : Z) : Z := load64 m (b + 16).
Definition get_next (m : memory) (b : Z) : Z := load64 m (b + 24).

Definition set_isfree (m : memory) (b v : Z) : memory := store64 m b v.
Definition set_size (m : memory) (b v : Z) : memory := store64 m (b + 8) v.
Definition set_prev (m : memory) (b v : Z) : memory := store64 m (b + 16) v.
Definition set_next (m : memory) (b v : Z) : memory := store64 m (b + 24) v.

(** ** The operating system

    The allocator's collaborators: the program break and anonymous
    mappings.  The kernel keeps the heap segment [[k_base, k_brk)] and the
    live mappings, and never hands out overlapping address ranges.  What it
    grants and where it places a mapping is left to two policies carried in
    the state, so that every refusal and every placement is covered. *)

Record kernel : Type := mkKernel {
  k_base : Z;                       (* start of the heap segment *)
  k_brk : Z;                        (* current program break *)
  k_maps : list (Z * Z);            (* live mappings: base and length *)
  k_grant : Z -> bool;              (* is this break target granted *)
  k_place : list (Z * Z) -> Z -> Z  (* base chosen for a mapping of a length *)
}.

(** End of the user address space. *)
Definition TASK_SIZE : Z := 2 ^ 47.

(** Lowest address the kernel maps. *)
Definition MIN_ADDR : Z := 65536.

Definition set_k_brk (k : kernel) (x : Z) : kernel :=
  mkKernel (k_base k) x (k_maps k) (k_grant k) (k_place k).

Definition set_k_maps (k : kernel) (l : list (Z * Z)) : kernel :=
  mkKernel (k_base k) (k_brk k) l (k_grant k) (k_place k).

(** [[a, a + n)] and [[b, b + k)] do not overlap. *)
Definition disjoint (a n b k : Z) : bool := (a + n <=? b) || (b + k <=? a).

(** [[a, a + n)] is usable for a mapping next to the mappings [maps]. *)
Definition region_free (k : kernel) (maps : list (Z * Z)) (a n : Z) : bool :=
  (MIN_ADDR <=? a) && (a + n <=? TASK_SIZE)
  && disjoint a n (k_base k) (k_brk k - k_base k)
  && forallb (fun r => disjoint a n (fst r) (snd r)) maps.

(** Modelled from the spec: the brk syscall wrapper [_brk], declared
    [extern] in lmem.c.  "Heap-break query/adjustment: takes a target break
    address, returns new break or a FAILURE sentinel"; a null target
    queries the current break.  [brk_grants] is the kernel's decision on a
    target: its policy agrees, the target lies in the user address space at
    or above the start of the heap segment, and the segment up to it meets
    no mapping. *)
Definition brk_grants (k : kernel) (x : Z) : bool :=
  k_grant k x && (k_base k <=? x) && (x <=? TASK_SIZE)
  && forallb (fun r => disjoint (k_base k) (x - k_base k) (fst r) (snd r))
       (k_maps k).

Definition sys_brk (k : kernel) (x : Z) : kernel * Z :=
  if x =? 0 then (k, k_brk k)
  else if brk_grants k x then (set_k_brk k x, x)
  else (k, MINUS1).

(** Modelled from the spec: [mmap (NULL, len, PROT_READ | PROT_WRITE,
    MAP_PRIVATE | MAP_ANONYMOUS, -1, 0)].  "Anonymous private mapping
    creation: takes a page-aligned length and protection flags, returns a
    mapping base or a FAILURE sentinel."  A mapping of no bytes is refused;
    fresh pages read as zero. *)
Definition sys_mmap (k : kernel) (m : memory) (len : Z)
  : kernel * memory * Z :=
  let a := k_place k (k_maps k) len in
  if (0 <? len) && region_free k (k_maps k) a len
  then (set_k_maps k ((a, len) :: k_maps k), fill_bytes m a 0 len, a)
  else (k, m, MAP_FAILED).

(** What is left of the mapping [r] once [[base, base + len)] is unmapped. *)
Definition unmap_range (base len : Z) (r : Z * Z) : list (Z * Z) :=
  let (a, n) := r in
  if disjoint a n base len then [r]
  else (if a <? base then [(a, base - a)] else [])
       ++ (if base + len <? a + n then [(base + len, a + n - (base + len))]
           else []).

(** Modelled from the spec: [munmap (base, len)].  "Mapping removal: takes
    a mapping base and length." *)
Definition sys_munmap (k : kernel) (base len : Z) : kernel :=
  set_k_maps k (flat_map (unmap_range base len) (k_maps k)).

Definition region_eqb (r s : Z * Z) : bool :=
  (fst r =? fst s) && (snd r =? snd s).

(** The bytes of a mapping after it moved from [old] to [a]. *)
Definition move_pages (m : memory) (old old_len a new_len : Z) : memory :=
  fun x =>
    if in_range a new_len x
    then (if x - a <? old_len then m (old + (x - a)) else 0)
    else m x.

(** Modelled from the spec: [mremap (old, old_len, new_len,
    MREMAP_MAYMOVE)].  "Mapping resize-in-place-or-relocate: takes old base,
    old length, new length, and a may-relocate flag; returns new base or
    FAILURE."  The old range has to be a live mapping; the contents move
    with it. *)
Definition sys_mremap (k : kernel) (m : memory) (old old_len new_len : Z)
  : kernel * memory * Z :=
  if existsb (region_eqb (old, old_len)) (k_maps k) && (0 <? new_len) then
    let rest := filter (fun r => negb (region_eqb (old, old_len) r)) (k_maps k) in
    let a := k_place k rest new_len in
    if region_free k rest a new_len
    then (set_k_maps k ((a, new_len) :: rest),
          move_pages m old old_len a new_len, a)
    else (k, m, MAP_FAILED)
  else (k, m, MAP_FAILED).

(** ** Mapped memory and the library calls

    What the process may touch: the heap segment and the live mappings.
    The kernel maps whole pages, so the heap segment can be read and
    written up to the end of the page that holds the last byte below the
    break.  The header fields are reached through pointers the allocator
    handed out; [memset] and [memcpy] take their length from the caller,
    and a call that touches a byte outside the mapped ranges ends the
    process with a segmentation fault. *)

(** The first page boundary at or above [x]. *)
Definition page_up (x : Z) : Z :=
  (x + LMEM_PAGESIZE - 1) / LMEM_PAGESIZE * LMEM_PAGESIZE.

Definition regions (k : kernel) : list (Z * Z) :=
  (k_base k, page_up (k_brk k) - k_base k) :: k_maps k.

(** Is every byte of [[p, e)] in one of the ranges [rs]?  Each step finds
    a range that holds [p] and goes on from its end; a range that was
    used ends at or below the next [p] and is not found again, so one
    unit of [fuel] per range is enough. *)
Fixpoint covered (fuel : nat) (rs : list (Z * Z)) (p e : Z) : bool :=
  if e <=? p then true
  else
    match fuel with
    | O => false
    | S fuel' =>
      match find (fun r => in_range (fst r) (snd r) p) rs with
      | Some r => covered fuel' rs (fst r + snd r) e
      | None => false
      end
    end.

(** The [n] bytes from [p] on are mapped. *)
Definition mapped_range (k : kernel) (p n : Z) : bool :=
  covered (S (length (regions k))) (regions k) p (p + n).

(** [memset (p, c, n)]: the memory it leaves, or [None] when it touches
    an unmapped byte. *)
Definition memset (k : kernel) (m : memory) (p c n : Z) : option memory :=
  if mapped_range k p n then Some (fill_bytes m p c n) else None.

(** [memcpy (dst, src, n)]: the memory it leaves, or [None] when it reads
    or writes an unmapped byte.  Where the two ranges overlap, C leaves
    open which bytes arrive; [copy_bytes] then reads every source byte
    before any is written, as a [memcpy] that shares its code with
    [memmove] does. *)
Definition memcpy (k : kernel) (m : memory) (dst src n : Z) : option memory :=
  if mapped_range k dst n && mapped_range k src n
  then Some (copy_bytes m dst src n) else None.

(** ** Allocator state: the process memory, the three globals of lmem.c
    and the kernel the process runs on. *)

Record state : Type := mkState {
  mem : memory;
  head : Z;
  tail : Z;
  last_break : Z;
  kern : kernel
}.

Definition set_mem (st : state) (m : memory) : state :=
  mkState m (head st) (tail st) (last_break st) (kern st).
Definition set_head (st : state) (p : Z) : state :=
  mkState (mem st) p (tail st) (last_break st) (kern st).
Definition set_tail (st : state) (p : Z) : state :=
  mkState (mem st) (head st) p (last_break st) (kern st).
Definition set_last_break (st : state) (p : Z) : state :=
  mkState (mem st) (head st) (tail st) p (kern st).
Definition set_kern (st : state) (k : kernel) : state :=
  mkState (mem st) (head st) (tail st) (last_break st) k.

(** What a call that fills or copies memory comes to: it returns a state
    and a pointer, or it touches unmapped memory and the process is
    killed. *)
Inductive outcome : Type :=
| Done (p : state * Z)
| Killed.

(** ** The code of lmem.c *)

(** [new_memblk]: allocate new dynamic memory block. *)
Definition new_memblk (st : state) (size : Z) : state * Z :=
  let st1 :=
    if last_break st =? NULL
    then let (k, r) := sys_brk (kern st) 0 in set_kern (set_last_break st r) k
    else st in
  let (k, r) := sys_brk (kern st1) (ptr_add (last_break st1) size) in
  let st2 := set_kern (set_last_break st1 r) k in
  if r =? MINUS1 then (st2, MINUS1) else (st2, ptr_sub r size).

(** [lmem_split_block]: split memory block into an upper and lower part. *)
Definition lmem_split_block (st : state) (block size : Z) : state :=
  let upper := ptr_add block size in
  let m1 := set_isfree (mem st) upper 1 in
  let m2 := set_size m1 upper (wrap (get_size m1 block - size)) in
  let m3 := set_size m2 block size in
  let m4 := set_prev m3 upper block in
  let m5 := set_next m4 upper (get_next m4 block) in
  let st1 :=
    if negb (get_next m5 block =? NULL)
    then set_mem st (set_prev m5 (get_next m5 block) upper)
    else set_tail (set_mem st m5) upper in
  set_mem st1 (set_next (mem st1) block upper).

(** [lmalloc_new_block]: allocate a new memory block and append to the
    list. *)
Definition lmalloc_new_block (st : state) (size : Z) : state * Z :=
  let (st1, block) := new_memblk st size in
  if block =? MINUS1 then (st1, NULL)
  else
    let m1 := set_isfree (mem st1) block 0 in
    let m2 := set_size m1 block size in
    let m3 := set_prev m2 block (tail st1) in
    let m4 := set_next m3 block NULL in
    let st2 := set_mem st1 m4 in
    let st3 := if head st2 =? NULL then set_head st2 block else st2 in
    let st4 :=
      if negb (tail st3 =? NULL)
      then set_mem st3 (set_next (mem st3) (tail st3) block)
      else st3 in
    (set_tail st4 block, ptr_add block 1).

(** The length of the mapping for a request of [len] bytes: header
    included, aligned to the page size.  The mask is [~(LMEM_PAGESIZE - 1)]
    computed on [int] and converted to [size_t]. *)
Definition page_round (len : Z) : Z :=
  Z.land (wrap (len + HDR + LMEM_PAGESIZE - 1))
         (wrap (Z.lnot (LMEM_PAGESIZE - 1))).

(** The block size, in header units, for a request of [len] bytes. *)
Definition block_units (len : Z) : Z :=
  wrap (wrap (len + HDR - 1) / HDR + 1).

(** The [for] loop of [lmalloc] from the block [block] on, and the fall
    through to [lmalloc_new_block].  [None]: the loop did not finish within
    [fuel] iterations. *)
Fixpoint lmalloc_scan (fuel : nat) (st : state) (block size : Z)
  : option (state * Z) :=
  match fuel with
  | O => None
  | S fuel' =>
    if block =? NULL then Some (lmalloc_new_block st size)
    else if negb (get_isfree (mem st) block =? 0)
            && (size <=? get_size (mem st) block)
    then
      let st1 :=
        if size <? get_size (mem st) block
        then lmem_split_block st block size
        else st in
      Some (set_mem st1 (set_isfree (mem st1) block 0), ptr_add block 1)
    else lmalloc_scan fuel' st (get_next (mem st) block) size
  end.

(** The mapping branch of [lmalloc], taken under [LMEM_ENABLE_MMAP]. *)
Definition lmalloc_mmap (st : state) (len : Z) : state * Z :=
  let len1 := page_round len in
  let '(k, m, block) := sys_mmap (kern st) (mem st) len1 in
  if block =? MAP_FAILED then (set_kern (set_mem st m) k, NULL)
  else
    let m1 := set_next m block LMEM_NEXT_MMAP in
    let m2 := set_size m1 block len1 in
    (set_kern (set_mem st m2) k, ptr_add block 1).

(** [lmalloc]: allocate dynamic memory. *)
Definition lmalloc (fuel : nat) (st : state) (len : Z) : option (state * Z) :=
  if LMEM_MMAP_TRESHOLD <=? len then Some (lmalloc_mmap st len)
  else lmalloc_scan fuel st (head st) (block_units len).

(** [lcalloc]: allocate and clear dynamic memory.  [None]: [lmalloc] ran
    out of fuel. *)
Definition lcalloc (fuel : nat) (st : state) (nlen len : Z)
  : option outcome :=
  let size := wrap (nlen * len) in
  match lmalloc fuel st size with
  | None => None
  | Some (st1, result) =>
    if negb (result =? NULL)
    then
      match memset (kern st1) (mem st1) result 0 size with
      | Some m => Some (Done (set_mem st1 m, result))
      | None => Some Killed
      end
    else Some (Done (st1, result))
  end.

(** [lfree_left_merge]: free and left merge memory block. *)
Definition lfree_left_merge (st : state) (block : Z) : state :=
  let m := mem st in
  if negb (get_prev m block =? NULL)
     && negb (get_isfree m (get_prev m block) =? 0)
  then
    let m1 := set_next m (get_prev m block) (get_next m block) in
    let st1 :=
      if negb (get_next m1 block =? NULL)
      then set_mem st (set_prev m1 (get_next m1 block) (get_prev m1 block))
      else set_tail (set_mem st m1) (get_prev m1 block) in
    let m2 := mem st1 in
    set_mem st1
      (set_size m2 (get_prev m2 block)
         (wrap (get_size m2 (get_prev m2 block) + get_size m2 block)))
  else set_mem st (set_isfree m block 1).

(** [lfree]: free dynamic memory. *)
Definition lfree (st : state) (addr : Z) : state :=
  let block := ptr_sub addr 1 in
  if addr =? NULL then st
  else if get_next (mem st) block =? LMEM_NEXT_MMAP
  then set_kern st (sys_munmap (kern st) block (get_size (mem st) block))
  else
    let st1 := lfree_left_merge st block in
    if negb (get_next (mem st1) block =? NULL)
       && negb (get_isfree (mem st1) (get_next (mem st1) block) =? 0)
    then lfree_left_merge st1 (get_next (mem st1) block)
    else st1.

(** The mapping branch of [lrealloc]. *)
Definition lrealloc_mmap (st : state) (block len : Z) : state * Z :=
  let len1 := page_round len in
  let '(k, m, block1) :=
    sys_mremap (kern st) (mem st) block (get_size (mem st) block) len1 in
  if block1 =? MAP_FAILED then (set_kern (set_mem st m) k, NULL)
  else (set_kern (set_mem st (set_size m block1 len1)) k, ptr_add block1 1).

(** [lrealloc]: re-allocate dynamic memory.  [None]: [lmalloc] ran out of
    fuel. *)
Definition lrealloc (fuel : nat) (st : state) (addr len : Z)
  : option outcome :=
  let block := ptr_sub addr 1 in
  if addr =? NULL then option_map Done (lmalloc fuel st len)
  else if get_next (mem st) block =? LMEM_NEXT_MMAP
  then Some (Done (lrealloc_mmap st block len))
  else
    match lmalloc fuel st len with
    | None => None
    | Some (st1, newblock) =>
      if newblock =? NULL then Some (Done (st1, NULL))
      else
        match memcpy (kern st1) (mem st1) newblock addr len with
        | Some m => Some (Done (lfree (set_mem st1 m) addr, newblock))
        | None => Some Killed
        end
    end.

(** * Part II: the specification *)

(** ** A small concrete machine, used to run the code

    The heap segment starts at 16 MiB; the kernel grants a break up to
    [limit] and places the n-th mapping at 1 GiB plus n MiB. *)

Definition kernel0 (limit : Z) : kernel :=
  mkKernel 16777216 16777216 []
    (fun x => x <=? limit)
    (fun maps len => 1073741824 + 1048576 * Z.of_nat (length maps)).

Definition state0 (limit : Z) : state :=
  mkState (fun _ => 0) NULL NULL NULL (kernel0 limit).

(** ** The block list

    The list of block addresses [bl] is what a traversal from [head] sees.
    Three predicates describe it, one per group of header fields. *)

(** Doubly linked segment: entered at [first] coming from [prv], left
    towards [nxt] from [last]. *)
Fixpoint dlseg (m : memory) (first prv nxt last : Z) (bl : list Z) : Prop :=
  match bl with
  | [] => first = nxt /\ last = prv
  | b :: rest =>
    first = b /\ get_prev m b = prv /\ dlseg m (get_next m b) b nxt last rest
  end.

(** Invariant 1: the blocks tile [[lo, hi)] in ascending address order,
    each one ending where its successor starts. *)
Fixpoint contig (m : memory) (lo : Z) (bl : list Z) (hi : Z) : Prop :=
  match bl with
  | [] => lo = hi
  | b :: rest =>
    b = lo /\ 1 <= get_size m b /\ contig m (b + HDR * get_size m b) rest hi
  end.

Definition used_next (m : memory) (rest : list Z) : Prop :=
  match rest with
  | [] => True
  | b :: _ => get_isfree m b = 0
  end.

(** Invariant 2: no two list-adjacent blocks are both free. *)
Fixpoint nofree2 (m : memory) (bl : list Z) : Prop :=
  match bl with
  | [] => True
  | b :: rest => (get_isfree m b = 0 \/ used_next m rest) /\ nofree2 m rest
  end.

(** What the cached break may be: never set, the kernel's break, or the
    failure value left behind by a refused request. *)
Definition brk_state (st : state) (bl : list Z) : Prop :=
  (last_break st = NULL /\ bl = [])
  \/ last_break st = k_brk (kern st)
  \/ last_break st = MINUS1.

Record heap_inv (st : state) (bl : list Z) : Prop := mkHeapInv {
  hi_links : dlseg (mem st) (head st) NULL NULL (tail st) bl;
  hi_contig : exists lo,
      k_base (kern st) <= lo /\ contig (mem st) lo bl (k_brk (kern st));
  hi_nofree : nofree2 (mem st) bl;
  hi_brk : brk_state st bl
}.

(** ** What the kernel guarantees

    A mapping lies in the user address space and off the heap segment, and
    no two mappings overlap.  The heap segment starts above the first 128
    KiB: a break computed from the failure value, which [new_memblk] leaves
    in [last_break] when a request is refused, then lies below the segment
    and is refused as well. *)

Definition map_ok (k : kernel) (r : Z * Z) : Prop :=
  MIN_ADDR <= fst r /\ 0 < snd r /\ fst r + snd r <= TASK_SIZE
  /\ (fst r + snd r <= k_base k \/ k_brk k <= fst r).

Definition apart (r s : Z * Z) : Prop :=
  fst r + snd r <= fst s \/ fst s + snd s <= fst r.

Fixpoint maps_disjoint (l : list (Z * Z)) : Prop :=
  match l with
  | [] => True
  | r :: rest => Forall (apart r) rest /\ maps_disjoint rest
  end.

Record kernel_ok (k : kernel) : Prop := mkKernelOk {
  ko_base : 2 * LMEM_MMAP_TRESHOLD <= k_base k;
  ko_brk : k_base k <= k_brk k <= TASK_SIZE;
  ko_maps : Forall (map_ok k) (k_maps k);
  ko_disjoint : maps_disjoint (k_maps k)
}.

(** The header of a mapping-resident block: tagged in [next], and [size]
    is the length of the mapping, a positive number of pages. *)
Definition mapped_block_ok (m : memory) (r : Z * Z) : Prop :=
  get_next m (fst r) = LMEM_NEXT_MMAP
  /\ get_size m (fst r) = snd r
  /\ LMEM_PAGESIZE <= snd r
  /\ snd r mod LMEM_PAGESIZE = 0.

Definition maps_inv (st : state) : Prop :=
  Forall (mapped_block_ok (mem st)) (k_maps (kern st)).

(** The invariant of the allocator. *)
Record alloc_inv (st : state) (bl : list Z) : Prop := mkAllocInv {
  ai_heap : heap_inv st bl;
  ai_kernel : kernel_ok (kern st);
  ai_maps : maps_inv st
}.

(** Only bytes of the headers of [bl] differ between [m] and [m']. *)
Definition only_headers (bl : list Z) (m m' : memory) : Prop :=
  forall x, (forall y, In y bl -> x < y \/ y + HDR <= x) -> m' x = m x.

(** ** Vocabulary of the proofs *)

(** The test of the loop body: the block is free and large enough. *)
Definition fitsb (m : memory) (size b : Z) : bool :=
  negb (get_isfree m b =? 0) && (size <=? get_size m b).

(** The state in which the scan leaves a fitting block. *)
Definition take_block (st : state) (b size : Z) : state :=
  let st1 :=
    if size <? get_size (mem st) b then lmem_split_block st b size else st in
  set_mem st1 (set_isfree (mem st1) b 0).

(** [[p, p + len)] lies in the payload of a block of the list or of a
    mapping. *)
Definition usable (st : state) (bl : list Z) (p len : Z) : Prop :=
  (exists b, In b bl /\ p = b + HDR
             /\ len <= HDR * (get_size (mem st) b - 1))
  \/ (exists a L, In (a, L) (k_maps (kern st)) /\ p = a + HDR
                  /\ len + HDR <= L).

(** The postcondition shared by every path of [lmalloc]: the invariant
    holds for a list that extends the old one, blocks in use are left
    alone, and a non-null result is usable for [len] bytes and overlaps no
    block that was in use. *)
Definition lmalloc_post (st : state) (bl : list Z) (len : Z)
    (st' : state) (r : Z) (bl' : list Z) : Prop :=
  alloc_inv st' bl'
  /\ incl bl bl'
  /\ (forall y, In y bl -> get_isfree (mem st) y = 0 ->
        get_isfree (mem st') y = 0
        /\ get_size (mem st') y = get_size (mem st) y
        /\ forall x, y + HDR <= x < y + HDR * get_size (mem st) y ->
                     mem st' x = mem st x)
  /\ (r <> NULL -> len + HDR + LMEM_PAGESIZE - 1 < WORD ->
        usable st' bl' r len
        /\ forall y, In y bl -> get_isfree (mem st) y = 0 ->
             r + len <= y \/ y + HDR * get_size (mem st) y <= r).

(** The invariant without invariant 2, which [lfree] breaks and restores. *)
Definition shape_inv (st : state) (bl : list Z) : Prop :=
  dlseg (mem st) (head st) NULL NULL (tail st) bl
  /\ (exists lo, k_base (kern st) <= lo
                 /\ contig (mem st) lo bl (k_brk (kern st)))
  /\ brk_state st bl
  /\ kernel_ok (kern st)
  /\ maps_inv st.

(** A pointer the caller may pass to [lfree] and [lrealloc]: null, or the
    usable pointer of a listed heap block or of a live mapping. *)
Definition valid_ptr (st : state) (bl : list Z) (addr : Z) : Prop :=
  addr = NULL
  \/ (exists b, In b bl /\ addr = b + HDR)
  \/ (exists a L, In (a, L) (k_maps (kern st)) /\ addr = a + HDR).

(** The request does not wrap around when the header and the page
    rounding are added. *)
Definition no_overflow (len : Z) : Prop :=
  len + HDR + LMEM_PAGESIZE - 1 < WORD.

(** [L] is the header-inclusive length of a request of [len] bytes,
    rounded up to the page granularity. *)
Definition rounds_up (len L : Z) : Prop :=
  L mod LMEM_PAGESIZE = 0
  /\ len + HDR <= L < len + HDR + LMEM_PAGESIZE.

(** ** Concrete runs *)

(** The state an operation returned. *)
Definition after (o : option (state * Z)) : state :=
  match o with
  | Some (st, _) => st
  | None => state0 0
  end.

(** Four blocks A, B, C, D of 5, 3, 2 and 2 units; A and C released. *)
Definition demo_state : state :=
  let s1 := after (lmalloc 8 (state0 1073741824) 100) in
  let s2 := after (lmalloc 8 s1 40) in
  let s3 := after (lmalloc 8 s2 10) in
  let s4 := after (lmalloc 8 s3 10) in
  lfree (lfree s4 16777248) 16777504.

Definition demo_blocks : list Z := [16777216; 16777376; 16777472; 16777536].

(** One block of 5 units, and a kernel that grants no byte beyond it. *)
Definition full_state : state :=
  after (lmalloc 8 (state0 16777376) 100).

(** The kernel of [st] with a policy that grants every break. *)
Definition generous (st : state) : state :=
  set_kern st
    (mkKernel (k_base (kern st)) (k_brk (kern st)) (k_maps (kern st))
       (fun _ => true) (k_place (kern st))).

(** A free block of 158 units, then a block of 2 units in use at the end
    of the heap. *)
Definition short_tail_state : state :=
  let s1 := after (lmalloc 8 (state0 1073741824) 5000) in
  let s2 := after (lmalloc 8 s1 10) in
  lfree s2 (16777216 + HDR).

(** The demo heap with one mapping of 18 pages. *)
Definition mapped_state : state := fst (lmalloc_mmap demo_state 70000).


(** [full_state] after a request was refused, on a kernel that from then
    on grants every break. *)
Definition refused_state : state :=
  generous (after (lmalloc 8 full_state 10)).

(** The pointer a call that fills or copies returned. *)
Definition pointer_of (o : option outcome) : option Z :=
  match o with
  | Some (Done (_, r)) => Some r
  | _ => None
  end.

(** * Part III: the proofs *)

(** ** Loads and stores *)

#[local] Arguments load64 : simpl never.
#[local] Arguments store64 : simpl never.
#[local] Arguments fill_bytes : simpl never.
#[local] Arguments copy_bytes : simpl never.

Lemma in_range_true a n x : in_range a n x = true <-> a <= x < a + n.
Proof. unfold in_range. rewrite andb_true_iff, Z.leb_le, Z.ltb_lt. tauto. Qed.

Lemma in_range_false a n x : in_range a n x = false <-> x < a \/ a + n <= x.
Proof.
  unfold in_range. rewrite andb_false_iff, Z.leb_gt, Z.ltb_ge. tauto.
Qed.

Lemma load64_range m a : 0 <= load64 m a < WORD.
Proof.
  unfold load64, WORD.
  pose proof (Z.mod_pos_bound (m a) 256).
  pose proof (Z.mod_pos_bound (m (a + 1)) 256).
  pose proof (Z.mod_pos_bound (m (a + 2)) 256).
  pose proof (Z.mod_pos_bound (m (a + 3)) 256).
  pose proof (Z.mod_pos_bound (m (a + 4)) 256).
  pose proof (Z.mod_pos_bound (m (a + 5)) 256).
  pose proof (Z.mod_pos_bound (m (a + 6)) 256).
  pose proof (Z.mod_pos_bound (m (a + 7)) 256).
  change (2 ^ 8) with 256. change (2 ^ 16) with 65536.
  change (2 ^ 24) with 16777216. change (2 ^ 32) with 4294967296.
  change (2 ^ 40) with 1099511627776. change (2 ^ 48) with 281474976710656.
  change (2 ^ 56) with 72057594037927936.
  change (2 ^ 64) with 18446744073709551616.
  lia.
Qed.

(** Two loads agree when the eight bytes they read agree. *)
Lemma load64_ext m m' a :
  (forall x, a <= x < a + 8 -> m' x = m x) -> load64 m' a = load64 m a.
Proof.
  intros H. unfold load64.
  rewrite (H a), (H (a + 1)), (H (a + 2)), (H (a + 3)), (H (a + 4)),
    (H (a + 5)), (H (a + 6)), (H (a + 7)) by lia.
  reflexivity.
Qed.

Lemma store64_out m a v x : x < a \/ a + 8 <= x -> store64 m a v x = m x.
Proof.
  intros H. unfold store64.
  destruct (in_range a 8 x) eqn:E; [apply in_range_true in E; lia | reflexivity].
Qed.

Lemma store64_in m a v i : 0 <= i < 8 -> store64 m a v (a + i) = byte_of v i.
Proof.
  intros H. unfold store64.
  destruct (in_range a 8 (a + i)) eqn:E.
  - f_equal. lia.
  - apply in_range_false in E. lia.
Qed.

Lemma load64_store64_other m a v b :
  b + 8 <= a \/ a + 8 <= b -> load64 (store64 m a v) b = load64 m b.
Proof.
  intros H. apply load64_ext. intros x Hx. apply store64_out. lia.
Qed.

Lemma load64_store64_same m a v :
  0 <= v < WORD -> load64 (store64 m a v) a = v.
Proof.
  intros Hv. unfold load64.
  replace a with (a + 0) at 2 by lia.
  rewrite !store64_in by lia.
  unfold byte_of.
  rewrite !Z.mod_mod by lia.
  change (8 * 0) with 0. change (8 * 1) with 8. change (8 * 2) with 16.
  change (8 * 3) with 24. change (8 * 4) with 32. change (8 * 5) with 40.
  change (8 * 6) with 48. change (8 * 7) with 56.
  unfold WORD in Hv.
  change (2 ^ 0) with 1. change (2 ^ 8) with 256. change (2 ^ 16) with 65536.
  change (2 ^ 24) with 16777216. change (2 ^ 32) with 4294967296.
  change (2 ^ 40) with 1099511627776. change (2 ^ 48) with 281474976710656.
  change (2 ^ 56) with 72057594037927936.
  change (2 ^ 64) with 18446744073709551616 in Hv.
  rewrite Z.div_1_r.
  pose proof (Z.div_mod v 256 ltac:(lia)) as E0.
  pose proof (Z.mod_pos_bound v 256 ltac:(lia)).
  set (q1 := v / 256) in *.
  Z.to_euclidean_division_equations. lia.
Qed.

(** ** Reading a header after a write *)

Lemma wrap_range x : 0 <= wrap x < WORD.
Proof. unfold wrap, WORD. apply Z.mod_pos_bound. lia. Qed.

Lemma wrap_small x : 0 <= x < WORD -> wrap x = x.
Proof. intros H. unfold wrap. apply Z.mod_small. exact H. Qed.

Lemma WORD_val : WORD = 18446744073709551616.
Proof. reflexivity. Qed.

Lemma load64_store64_eq m a v b :
  a = b -> 0 <= v < WORD -> load64 (store64 m a v) b = v.
Proof. intros <- H. apply load64_store64_same. exact H. Qed.

(** A byte outside a stored field is unchanged. *)
Lemma store64_frame m a v x : ~ (a <= x < a + 8) -> store64 m a v x = m x.
Proof. intros H. apply store64_out. lia. Qed.

Lemma fill_bytes_out m p c n x : x < p \/ p + n <= x -> fill_bytes m p c n x = m x.
Proof.
  intros H. unfold fill_bytes.
  destruct (in_range p n x) eqn:E; [apply in_range_true in E; lia | reflexivity].
Qed.

Lemma fill_bytes_in m p c n x : p <= x < p + n -> fill_bytes m p c n x = c mod 256.
Proof.
  intros H. unfold fill_bytes.
  destruct (in_range p n x) eqn:E; [reflexivity | apply in_range_false in E; lia].
Qed.

Lemma copy_bytes_out m d s n x : x < d \/ d + n <= x -> copy_bytes m d s n x = m x.
Proof.
  intros H. unfold copy_bytes.
  destruct (in_range d n x) eqn:E; [apply in_range_true in E; lia | reflexivity].
Qed.

Lemma copy_bytes_in m d s n x :
  d <= x < d + n -> copy_bytes m d s n x = m (s + (x - d)).
Proof.
  intros H. unfold copy_bytes.
  destruct (in_range d n x) eqn:E; [reflexivity | apply in_range_false in E; lia].
Qed.

Lemma load64_fill_bytes_out m p c n a :
  a + 8 <= p \/ p + n <= a -> load64 (fill_bytes m p c n) a = load64 m a.
Proof. intros H. apply load64_ext. intros x Hx. apply fill_bytes_out. lia. Qed.

Lemma load64_copy_bytes_out m d s n a :
  a + 8 <= d \/ d + n <= a -> load64 (copy_bytes m d s n) a = load64 m a.
Proof. intros H. apply load64_ext. intros x Hx. apply copy_bytes_out. lia. Qed.

Ltac word_range :=
  first [ apply load64_range | apply wrap_range
        | unfold get_isfree, get_size, get_prev, get_next; apply load64_range
        | unfold NULL, LMEM_NEXT_MMAP, MAP_FAILED, MINUS1;
          rewrite ?WORD_val; lia ].

(** Normalises every load that sits on top of stores, given enough
    arithmetic in the context to tell the addresses apart. *)
Ltac mem_simpl :=
  unfold get_isfree, get_size, get_prev, get_next,
         set_isfree, set_size, set_prev, set_next, HDR in *;
  repeat first
    [ rewrite load64_store64_other by lia
    | rewrite load64_store64_eq by first [lia | word_range]
    | rewrite load64_fill_bytes_out by lia
    | rewrite load64_copy_bytes_out by lia ].

(** ** Segments and concatenation *)

Lemma dlseg_app m xs ys : forall first prv nxt last,
  dlseg m first prv nxt last (xs ++ ys) <->
  exists mid lastx,
    dlseg m first prv mid lastx xs /\ dlseg m mid lastx nxt last ys.
Proof.
  induction xs as [|x xs IH]; intros first prv nxt last; simpl.
  - split.
    + intros H. exists first, prv. auto.
    + intros (mid & lastx & [-> ->] & H). exact H.
  - rewrite IH. split.
    + intros (-> & Hp & mid & lastx & H1 & H2).
      exists mid, lastx. auto.
    + intros (mid & lastx & (-> & Hp & H1) & H2).
      split; [reflexivity|]. split; [exact Hp|]. exists mid, lastx. auto.
Qed.

Lemma contig_app m xs ys : forall lo hi,
  contig m lo (xs ++ ys) hi <->
  exists mid, contig m lo xs mid /\ contig m mid ys hi.
Proof.
  induction xs as [|x xs IH]; intros lo hi; simpl.
  - split.
    + intros H. exists lo. auto.
    + intros (mid & -> & H). exact H.
  - rewrite IH. split.
    + intros (-> & Hs & mid & H1 & H2). exists mid. auto.
    + intros (mid & (-> & Hs & H1) & H2). repeat split; auto. exists mid. auto.
Qed.

Lemma contig_le m bl : forall lo hi, contig m lo bl hi -> lo <= hi.
Proof.
  induction bl as [|b bl IH]; intros lo hi; simpl.
  - lia.
  - intros (-> & Hs & H). apply IH in H. unfold HDR in *. lia.
Qed.

Lemma contig_In m bl : forall lo hi b,
  contig m lo bl hi -> In b bl ->
  lo <= b /\ 1 <= get_size m b /\ b + HDR * get_size m b <= hi.
Proof.
  induction bl as [|x bl IH]; intros lo hi b; simpl.
  - tauto.
  - intros (-> & Hs & H) [-> | Hin].
    + apply contig_le in H. unfold HDR in *. lia.
    + destruct (IH _ _ _ H Hin) as (? & ? & ?). unfold HDR in *. lia.
Qed.

(** Where the neighbours of a block lie. *)
Lemma contig_split m pre b post lo hi :
  contig m lo (pre ++ b :: post) hi ->
  contig m lo pre b
  /\ 1 <= get_size m b
  /\ contig m (b + HDR * get_size m b) post hi
  /\ lo <= b /\ b + HDR * get_size m b <= hi
  /\ (forall y, In y pre ->
        lo <= y /\ 1 <= get_size m y /\ y + HDR * get_size m y <= b)
  /\ (forall y, In y post ->
        b + HDR * get_size m b <= y /\ 1 <= get_size m y
        /\ y + HDR * get_size m y <= hi).
Proof.
  rewrite contig_app. intros (mid & H1 & H2). simpl in H2.
  destruct H2 as (-> & Hs & H2).
  pose proof (contig_le _ _ _ _ H1). pose proof (contig_le _ _ _ _ H2).
  split; [exact H1|]. split; [exact Hs|]. split; [exact H2|].
  split; [lia|]. split; [lia|]. split.
  - intros y Hy. destruct (contig_In _ _ _ _ _ H1 Hy) as (? & ? & ?).
    unfold HDR in *. lia.
  - intros y Hy. destruct (contig_In _ _ _ _ _ H2 Hy) as (? & ? & ?).
    unfold HDR in *. lia.
Qed.

(** ** Frame lemmas: a predicate only looks at its own fields *)

Lemma dlseg_frame m m' bl : forall first prv nxt last,
  (forall b, In b bl ->
     get_prev m' b = get_prev m b /\ get_next m' b = get_next m b) ->
  dlseg m first prv nxt last bl -> dlseg m' first prv nxt last bl.
Proof.
  induction bl as [|b bl IH]; intros first prv nxt last Hf; simpl.
  - tauto.
  - intros (-> & Hp & H).
    destruct (Hf b (or_introl eq_refl)) as [Ep En].
    split; [reflexivity|]. split; [congruence|].
    rewrite En. apply IH; [|exact H].
    intros y Hy. apply Hf. right. exact Hy.
Qed.

Lemma contig_frame m m' bl : forall lo hi,
  (forall b, In b bl -> get_size m' b = get_size m b) ->
  contig m lo bl hi -> contig m' lo bl hi.
Proof.
  induction bl as [|b bl IH]; intros lo hi Hf; simpl.
  - tauto.
  - intros (-> & Hs & H).
    rewrite (Hf lo (or_introl eq_refl)).
    repeat split; auto. apply IH; [|exact H].
    intros y Hy. apply Hf. right. exact Hy.
Qed.

Lemma nofree2_frame m m' bl :
  (forall b, In b bl -> get_isfree m' b = get_isfree m b) ->
  nofree2 m bl -> nofree2 m' bl.
Proof.
  induction bl as [|b bl IH]; intros Hf; simpl.
  - tauto.
  - intros [Hb H]. split.
    + rewrite (Hf b (or_introl eq_refl)).
      destruct Hb as [Hb | Hb]; [left; exact Hb | right].
      destruct bl as [|c bl]; simpl in *; [exact I|].
      rewrite (Hf c (or_intror (or_introl eq_refl))). exact Hb.
    + apply IH; [|exact H]. intros y Hy. apply Hf. right. exact Hy.
Qed.

(** Invariant 2 around a block. *)
Lemma nofree2_app_cons m xs b ys :
  nofree2 m (xs ++ b :: ys) <-> nofree2 m (xs ++ [b]) /\ nofree2 m (b :: ys).
Proof.
  induction xs as [|x xs IH].
  - simpl. tauto.
  - assert (E : used_next m (xs ++ b :: ys) <-> used_next m (xs ++ [b])).
    { destruct xs; simpl; tauto. }
    change (nofree2 m ((x :: xs) ++ b :: ys))
      with ((get_isfree m x = 0 \/ used_next m (xs ++ b :: ys))
            /\ nofree2 m (xs ++ b :: ys)).
    change (nofree2 m ((x :: xs) ++ [b]))
      with ((get_isfree m x = 0 \/ used_next m (xs ++ [b]))
            /\ nofree2 m (xs ++ [b])).
    rewrite IH. tauto.
Qed.

Ltac mem_solve :=
  mem_simpl; solve [reflexivity | assumption | lia | congruence].

(** ** Splitting a block *)

Lemma ptr_add_small p n :
  0 <= p + HDR * n < WORD -> ptr_add p n = p + HDR * n.
Proof. intros H. unfold ptr_add. apply wrap_small. exact H. Qed.

Lemma TASK_SIZE_val : TASK_SIZE = 140737488355328.
Proof. reflexivity. Qed.

Lemma only_headers_store bl m m1 b off v :
  In b bl -> 0 <= off -> off + 8 <= HDR ->
  only_headers bl m m1 -> only_headers bl m (store64 m1 (b + off) v).
Proof.
  intros Hin H0 H8 H x Hx. rewrite store64_out.
  - apply H. exact Hx.
  - specialize (Hx b Hin). lia.
Qed.

Lemma only_headers_store0 bl m m1 b v :
  In b bl -> only_headers bl m m1 -> only_headers bl m (store64 m1 b v).
Proof.
  intros Hin H x Hx. rewrite store64_out.
  - apply H. exact Hx.
  - specialize (Hx b Hin). unfold HDR in Hx. lia.
Qed.

Lemma only_headers_refl bl m : only_headers bl m m.
Proof. intros x _. reflexivity. Qed.

Lemma only_headers_incl bl bl' m m' :
  incl bl bl' -> only_headers bl m m' -> only_headers bl' m m'.
Proof. intros Hi H x Hx. apply H. intros y Hy. apply Hx. apply Hi. exact Hy. Qed.

Lemma only_headers_trans bl m1 m2 m3 :
  only_headers bl m1 m2 -> only_headers bl m2 m3 -> only_headers bl m1 m3.
Proof. intros H1 H2 x Hx. rewrite H2, H1; auto. Qed.

Ltac headers_solve :=
  repeat first
    [ apply only_headers_store; [assumption | lia | unfold HDR; lia |]
    | apply only_headers_store0; [assumption |] ];
  apply only_headers_refl.

Lemma split_spec st pre b post lo hi s :
  dlseg (mem st) (head st) NULL NULL (tail st) (pre ++ b :: post) ->
  contig (mem st) lo (pre ++ b :: post) hi ->
  0 < lo -> hi <= TASK_SIZE ->
  1 <= s < get_size (mem st) b ->
  let st' := lmem_split_block st b s in
  let u := b + HDR * s in
  head st' = head st /\ last_break st' = last_break st /\ kern st' = kern st
  /\ dlseg (mem st') (head st') NULL NULL (tail st') (pre ++ b :: u :: post)
  /\ contig (mem st') lo (pre ++ b :: u :: post) hi
  /\ get_isfree (mem st') u = 1
  /\ get_size (mem st') b = s
  /\ get_size (mem st') u = get_size (mem st) b - s
  /\ (forall y, In y (pre ++ b :: post) ->
        get_isfree (mem st') y = get_isfree (mem st) y)
  /\ only_headers (pre ++ b :: u :: post) (mem st) (mem st')
  /\ (forall y, In y (pre ++ post) ->
        get_size (mem st') y = get_size (mem st) y).
Proof.
  intros Hl Hc Hlo Hhi Hs st' u.
  apply dlseg_app in Hl. destruct Hl as (mid & lastp & Hpre & Hb).
  simpl in Hb. destruct Hb as (-> & Hprev & Hpost).
  destruct (contig_split _ _ _ _ _ _ Hc)
    as (Cpre & Sb & Cpost & Lb & Ub & Bpre & Bpost).
  assert (Eu : ptr_add b s = u).
  { apply ptr_add_small. rewrite WORD_val. rewrite TASK_SIZE_val in Hhi.
    unfold HDR in *. lia. }
  subst st'. unfold lmem_split_block. rewrite Eu. clear Eu.
  rewrite TASK_SIZE_val in Hhi.
  assert (Hu : u = b + 32 * s) by reflexivity. clearbody u.
  unfold HDR in *.
  destruct st as [m hd tl lb k]. simpl in *.
  pose proof (load64_range m (b + 8)) as Rb. rewrite WORD_val in Rb.
  destruct post as [|n post].
  - (* [b] is the last block *)
    simpl in Hpost. destruct Hpost as [En ->]. simpl in Cpost.
    mem_simpl. rewrite En. simpl.
    rewrite (wrap_small (load64 m (b + 8) - s)) by (rewrite WORD_val; lia).
    repeat split.
    + apply dlseg_app. exists b, lastp. split.
      * eapply dlseg_frame; [|exact Hpre].
        intros y Hy. destruct (Bpre y Hy) as (? & ? & ?). split; mem_solve.
      * simpl. repeat split; mem_solve.
    + apply contig_app. exists b. split.
      * eapply contig_frame; [|exact Cpre].
        intros y Hy. destruct (Bpre y Hy) as (? & ? & ?). mem_solve.
      * simpl. repeat split; mem_solve.
    + mem_solve.
    + mem_solve.
    + mem_solve.
    + intros y Hy. apply in_app_or in Hy. destruct Hy as [Hy | [<- | []]].
      * destruct (Bpre y Hy) as (? & ? & ?). mem_solve.
      * mem_solve.
    + assert (Ib : In b (pre ++ [b; u])) by (apply in_or_app; right; simpl; auto).
      assert (Iu : In u (pre ++ [b; u])) by (apply in_or_app; right; simpl; auto).
      headers_solve.
    + intros y Hy. rewrite app_nil_r in Hy.
      destruct (Bpre y Hy) as (? & ? & ?). mem_solve.
  - (* [b] has a successor [n] *)
    simpl in Hpost. destruct Hpost as (En & Hpn & Hpost').
    simpl in Cpost. destruct Cpost as (Enb & Sn & Cpost').
    assert (Bpost' : forall y, In y post ->
              n + 32 * load64 m (n + 8) <= y /\ 1 <= load64 m (y + 8)).
    { intros y Hy. destruct (contig_In _ _ _ _ _ Cpost' Hy) as (? & ? & ?).
      unfold HDR, get_size in *. lia. }
    mem_simpl. rewrite En.
    assert (Nn : (n =? NULL) = false) by (apply Z.eqb_neq; unfold NULL; lia).
    rewrite Nn. simpl.
    rewrite (wrap_small (load64 m (b + 8) - s)) by (rewrite WORD_val; lia).
    repeat split.
    + apply dlseg_app. exists b, lastp. split.
      * eapply dlseg_frame; [|exact Hpre].
        intros y Hy. destruct (Bpre y Hy) as (? & ? & ?). split; mem_solve.
      * simpl. split; [reflexivity|]. split; [mem_solve|].
        split; [mem_solve|]. split; [mem_solve|]. split; [mem_solve|].
        split; [mem_solve|].
        match goal with
        | |- dlseg ?m' ?f _ _ _ _ =>
          replace f with (get_next m n) by (symmetry; mem_solve)
        end.
        eapply dlseg_frame; [|exact Hpost'].
        intros y Hy. destruct (Bpost' y Hy). split; mem_solve.
    + apply contig_app. exists b. split.
      * eapply contig_frame; [|exact Cpre].
        intros y Hy. destruct (Bpre y Hy) as (? & ? & ?). mem_solve.
      * simpl. split; [reflexivity|]. split; [mem_solve|].
        split; [mem_solve|]. split; [mem_solve|].
        split; [mem_solve|]. split; [mem_solve|].
        match goal with
        | |- contig ?m' ?f _ _ =>
          replace f with (n + HDR * get_size m n)
            by (unfold HDR; mem_solve)
        end.
        eapply contig_frame; [|exact Cpost'].
        intros y Hy. destruct (Bpost' y Hy). mem_solve.
    + mem_solve.
    + mem_solve.
    + mem_solve.
    + intros y Hy. apply in_app_or in Hy. destruct Hy as [Hy | [<- | [<- | Hy]]].
      * destruct (Bpre y Hy) as (? & ? & ?). mem_solve.
      * mem_solve.
      * mem_solve.
      * destruct (Bpost' y Hy). mem_solve.
    + assert (Ib : In b (pre ++ b :: u :: n :: post))
        by (apply in_or_app; right; simpl; auto).
      assert (Iu : In u (pre ++ b :: u :: n :: post))
        by (apply in_or_app; right; simpl; auto).
      assert (In_ : In n (pre ++ b :: u :: n :: post))
        by (apply in_or_app; right; simpl; auto).
      headers_solve.
    + intros y Hy. apply in_app_or in Hy. destruct Hy as [Hy | [<- | Hy]].
      * destruct (Bpre y Hy) as (? & ? & ?). mem_solve.
      * mem_solve.
      * destruct (Bpost' y Hy). mem_solve.
Qed.

(** ** Merging a block into its left neighbour *)

Lemma dlseg_last m bl : forall first prv nxt last b,
  dlseg m first prv nxt last (bl ++ [b]) -> last = b /\ get_next m b = nxt.
Proof.
  intros first prv nxt last b H. apply dlseg_app in H.
  destruct H as (mid & lastx & _ & H). simpl in H. tauto.
Qed.

Ltac state_simpl :=
  unfold set_mem, set_head, set_tail, set_last_break, set_kern in *;
  cbn [mem head tail last_break kern] in *.

Ltac goal_simpl :=
  unfold set_mem, set_head, set_tail, set_last_break, set_kern;
  cbn [mem head tail last_break kern].

(** The state after the taken branch of [lfree_left_merge]. *)
Lemma lfree_left_merge_absorb st x p n :
  get_prev (mem st) x = p -> get_next (mem st) x = n ->
  p <> NULL -> get_isfree (mem st) p <> 0 ->
  p + HDR <= x -> x + HDR <= n \/ n = NULL ->
  0 < p -> n < TASK_SIZE ->
  lfree_left_merge st x =
  let m1 := set_next (mem st) p n in
  let m2 := if n =? NULL then m1 else set_prev m1 n p in
  mkState
    (set_size m2 p (wrap (get_size (mem st) p + get_size (mem st) x)))
    (head st) (if n =? NULL then p else tail st) (last_break st) (kern st).
Proof.
  intros Hp Hn Np Hf Sp Sn Pp Bn. unfold lfree_left_merge.
  destruct st as [m hd tl lb k]. state_simpl.
  rewrite Hp, Hn.
  assert (E1 : (p =? NULL) = false) by (apply Z.eqb_neq; exact Np).
  assert (E2 : (get_isfree m p =? 0) = false) by (apply Z.eqb_neq; exact Hf).
  rewrite E1, E2. cbn [negb andb].
  assert (E3 : get_next (set_next m p n) x = n).
  { rewrite <- Hn. mem_solve. }
  assert (E4 : get_prev (set_next m p n) x = p).
  { rewrite <- Hp. mem_solve. }
  rewrite E3, E4. rewrite TASK_SIZE_val in Bn. unfold NULL in *.
  destruct (n =? 0) eqn:En; cbn [negb]; state_simpl.
  - apply Z.eqb_eq in En. rewrite E4.
    f_equal. f_equal. f_equal. f_equal; mem_solve.
  - apply Z.eqb_neq in En.
    assert (E5 : get_prev (set_prev (set_next m p n) n p) x = p).
    { rewrite <- Hp. mem_solve. }
    rewrite E5. f_equal. f_equal. f_equal. f_equal; mem_solve.
Qed.

(** The taken branch of [lfree_left_merge]: [x] disappears into its free
    left neighbour [p]. *)
Lemma absorb_spec st pre p x post lo hi :
  dlseg (mem st) (head st) NULL NULL (tail st) (pre ++ p :: x :: post) ->
  contig (mem st) lo (pre ++ p :: x :: post) hi ->
  0 < lo -> hi <= TASK_SIZE ->
  get_isfree (mem st) p <> 0 ->
  let st' := lfree_left_merge st x in
  head st' = head st /\ last_break st' = last_break st /\ kern st' = kern st
  /\ dlseg (mem st') (head st') NULL NULL (tail st') (pre ++ p :: post)
  /\ contig (mem st') lo (pre ++ p :: post) hi
  /\ get_size (mem st') p = get_size (mem st) p + get_size (mem st) x
  /\ (forall y, In y (pre ++ p :: x :: post) ->
        get_isfree (mem st') y = get_isfree (mem st) y)
  /\ get_next (mem st') x = get_next (mem st) x
  /\ only_headers (pre ++ p :: post) (mem st) (mem st')
  /\ (forall y, In y (pre ++ post) ->
        get_size (mem st') y = get_size (mem st) y).
Proof.
  intros Hl Hc Hlo Hhi Hf st'.
  apply dlseg_app in Hl. destruct Hl as (mid & lastp & Hpre & Hp).
  simpl in Hp. destruct Hp as (-> & Hprev & Enp & Hpx & Hpost).
  destruct (contig_split _ _ _ _ _ _ Hc)
    as (Cpre & Sp & Cpost & Lp & Up & Bpre & _).
  simpl in Cpost. destruct Cpost as (Ex & Sx & Cpost).
  pose proof (contig_le _ _ _ _ Cpost) as Hle.
  assert (Hn : x + HDR <= get_next (mem st) x < TASK_SIZE
               \/ get_next (mem st) x = NULL).
  { destruct post as [|n post]; simpl in Hpost.
    - right. tauto.
    - left. destruct Hpost as (En & _). simpl in Cpost.
      destruct Cpost as (E & Sn & C). apply contig_le in C.
      rewrite En. unfold HDR in *. lia. }
  subst st'.
  rewrite (lfree_left_merge_absorb st x p (get_next (mem st) x));
    try solve [ assumption | reflexivity | unfold NULL; lia
              | unfold HDR, NULL in *; rewrite TASK_SIZE_val in *; lia ].
  rewrite TASK_SIZE_val in *.
  destruct st as [m hd tl lb k]. state_simpl. cbv zeta.
  unfold HDR, NULL in *.
  pose proof (load64_range m (p + 8)) as Rp. rewrite WORD_val in Rp.
  pose proof (load64_range m (x + 8)) as Rx. rewrite WORD_val in Rx.
  rewrite (wrap_small (get_size m p + get_size m x))
    by (rewrite WORD_val; unfold get_size in *; lia).
  destruct post as [|n post].
  - simpl in Hpost. destruct Hpost as [En ->]. simpl in Cpost.
    rewrite En. rewrite Z.eqb_refl. state_simpl.
    repeat split.
    + apply dlseg_app. exists p, lastp. split.
      * eapply dlseg_frame; [|exact Hpre].
        intros y Hy. destruct (Bpre y Hy) as (? & ? & ?). split; mem_solve.
      * simpl. repeat split; mem_solve.
    + apply contig_app. exists p. split.
      * eapply contig_frame; [|exact Cpre].
        intros y Hy. destruct (Bpre y Hy) as (? & ? & ?). mem_solve.
      * simpl. repeat split; mem_solve.
    + mem_solve.
    + intros y Hy. apply in_app_or in Hy.
      destruct Hy as [Hy | [<- | [<- | []]]].
      * destruct (Bpre y Hy) as (? & ? & ?). mem_solve.
      * mem_solve.
      * mem_solve.
    + mem_solve.
    + assert (Ip : In p (pre ++ [p])) by (apply in_or_app; right; simpl; auto).
      unfold set_size, set_next. headers_solve.
    + intros y Hy. rewrite app_nil_r in Hy.
      destruct (Bpre y Hy) as (? & ? & ?). mem_solve.
  - simpl in Hpost. destruct Hpost as (En & Hpn & Hpost').
    simpl in Cpost. destruct Cpost as (Enx & Sn & Cpost').
    assert (Bpost' : forall y, In y post ->
              n + 32 * load64 m (n + 8) <= y /\ 1 <= load64 m (y + 8)).
    { intros y Hy. destruct (contig_In _ _ _ _ _ Cpost' Hy) as (? & ? & ?).
      unfold HDR, get_size in *. lia. }
    assert (Nn : (n =? 0) = false) by (apply Z.eqb_neq; unfold get_size in *; lia).
    rewrite En, Nn. state_simpl.
    repeat split.
    + apply dlseg_app. exists p, lastp. split.
      * eapply dlseg_frame; [|exact Hpre].
        intros y Hy. destruct (Bpre y Hy) as (? & ? & ?). split; mem_solve.
      * simpl. split; [reflexivity|]. split; [mem_solve|].
        split; [mem_solve|]. split; [mem_solve|].
        match goal with
        | |- dlseg ?m' ?f _ _ _ _ =>
          replace f with (get_next m n) by (symmetry; mem_solve)
        end.
        eapply dlseg_frame; [|exact Hpost'].
        intros y Hy. destruct (Bpost' y Hy). split; mem_solve.
    + apply contig_app. exists p. split.
      * eapply contig_frame; [|exact Cpre].
        intros y Hy. destruct (Bpre y Hy) as (? & ? & ?). mem_solve.
      * simpl. split; [reflexivity|]. split; [mem_solve|].
        split; [mem_solve|]. split; [mem_solve|].
        match goal with
        | |- contig ?m' ?f _ _ =>
          replace f with (n + HDR * get_size m n)
            by (unfold HDR; mem_solve)
        end.
        eapply contig_frame; [|exact Cpost'].
        intros y Hy. destruct (Bpost' y Hy). mem_solve.
    + mem_solve.
    + intros y Hy. apply in_app_or in Hy.
      destruct Hy as [Hy | [<- | [<- | [<- | Hy]]]].
      * destruct (Bpre y Hy) as (? & ? & ?). mem_solve.
      * mem_solve.
      * mem_solve.
      * mem_solve.
      * destruct (Bpost' y Hy). mem_solve.
    + mem_solve.
    + assert (Ip : In p (pre ++ p :: n :: post))
        by (apply in_or_app; right; simpl; auto).
      assert (In_ : In n (pre ++ p :: n :: post))
        by (apply in_or_app; right; simpl; auto).
      unfold set_size, set_next, set_prev. headers_solve.
    + intros y Hy. apply in_app_or in Hy. destruct Hy as [Hy | [<- | Hy]].
      * destruct (Bpre y Hy) as (? & ? & ?). mem_solve.
      * mem_solve.
      * destruct (Bpost' y Hy). mem_solve.
Qed.

(** The state after the other branch of [lfree_left_merge]. *)
Lemma lfree_left_merge_mark st x :
  get_prev (mem st) x = NULL
  \/ get_isfree (mem st) (get_prev (mem st) x) = 0 ->
  lfree_left_merge st x = set_mem st (set_isfree (mem st) x 1).
Proof.
  intros H. unfold lfree_left_merge. cbv zeta.
  destruct H as [H | H]; rewrite H.
  - rewrite Z.eqb_refl. reflexivity.
  - rewrite Z.eqb_refl. rewrite andb_false_r. reflexivity.
Qed.

(** The other branch of [lfree_left_merge]: [x] is marked free in place. *)
Lemma mark_spec st pre x post lo hi v :
  contig (mem st) lo (pre ++ x :: post) hi ->
  0 < lo -> hi <= TASK_SIZE -> 0 <= v < WORD ->
  let m' := set_isfree (mem st) x v in
  (forall first prv nxt last bl,
      incl bl (pre ++ x :: post) ->
      dlseg (mem st) first prv nxt last bl -> dlseg m' first prv nxt last bl)
  /\ contig m' lo (pre ++ x :: post) hi
  /\ get_isfree m' x = v
  /\ (forall y, In y (pre ++ post) -> get_isfree m' y = get_isfree (mem st) y)
  /\ get_next m' x = get_next (mem st) x
  /\ only_headers (pre ++ x :: post) (mem st) m'
  /\ (forall y, In y (pre ++ x :: post) ->
        get_size m' y = get_size (mem st) y).
Proof.
  intros Hc Hlo Hhi Hv m'.
  destruct (contig_split _ _ _ _ _ _ Hc)
    as (Cpre & Sx & Cpost & Lx & Ux & Bpre & Bpost).
  subst m'. rewrite TASK_SIZE_val in Hhi. unfold HDR in *.
  assert (Sep : forall y, In y (pre ++ x :: post) ->
            y = x \/ y + 32 <= x \/ x + 32 <= y).
  { intros y Hy. apply in_app_or in Hy. destruct Hy as [Hy | [<- | Hy]].
    - destruct (Bpre y Hy) as (? & ? & ?). unfold get_size in *. lia.
    - auto.
    - destruct (Bpost y Hy) as (? & ? & ?). unfold get_size in *. lia. }
  repeat split.
  - intros first prv nxt last bl Hi H. eapply dlseg_frame; [|exact H].
    intros y Hy. destruct (Sep y (Hi y Hy)) as [-> | ?]; split; mem_solve.
  - eapply contig_frame; [|exact Hc].
    intros y Hy. destruct (Sep y Hy) as [-> | ?]; mem_solve.
  - mem_solve.
  - intros y Hy.
    assert (Hy' : y + 32 <= x \/ x + 32 <= y).
    { apply in_app_or in Hy. destruct Hy as [Hy | Hy].
      - destruct (Bpre y Hy) as (? & ? & ?). unfold get_size in *. lia.
      - destruct (Bpost y Hy) as (? & ? & ?). unfold get_size in *. lia. }
    mem_solve.
  - mem_solve.
  - assert (Ix : In x (pre ++ x :: post))
      by (apply in_or_app; right; simpl; auto).
    unfold set_isfree. headers_solve.
  - intros y Hy. destruct (Sep y Hy) as [-> | ?]; mem_solve.
Qed.

(** ** Growing the heap *)

Lemma brk_grants_spec k x :
  brk_grants k x = true ->
  k_base k <= x <= TASK_SIZE
  /\ Forall (fun r => fst r + snd r <= k_base k \/ x <= fst r) (k_maps k).
Proof.
  unfold brk_grants. rewrite !andb_true_iff, Z.leb_le, Z.leb_le.
  intros [[[_ H1] H2] H3]. split; [lia|].
  rewrite forallb_forall in H3. apply Forall_forall. intros r Hr.
  specialize (H3 r Hr). unfold disjoint in H3.
  rewrite orb_true_iff, !Z.leb_le in H3. lia.
Qed.

(** The two outcomes of [new_memblk] on a state that satisfies the
    invariant. *)
Lemma new_memblk_spec st bl size :
  brk_state st bl -> kernel_ok (kern st) -> 1 <= size <= 4096 ->
  let x := k_brk (kern st) + HDR * size in
  new_memblk st size =
  if negb (last_break st =? MINUS1) && brk_grants (kern st) x
  then (set_kern (set_last_break st x) (set_k_brk (kern st) x),
        k_brk (kern st))
  else (set_last_break st MINUS1, MINUS1).
Proof.
  destruct st as [m hd tl lb k]. unfold brk_state. state_simpl.
  intros Hb Hk Hs. cbv zeta. set (x := k_brk k + HDR * size).
  destruct Hk as [K1 K2 _ _].
  unfold LMEM_MMAP_TRESHOLD, LMEM_PAGESIZE in K1.
  rewrite TASK_SIZE_val in K2.
  assert (Ex : ptr_add (k_brk k) size = x).
  { apply ptr_add_small. rewrite WORD_val. unfold HDR. lia. }
  assert (Nx : (x =? 0) = false).
  { apply Z.eqb_neq. subst x. unfold HDR. lia. }
  assert (Sx : ptr_sub x size = k_brk k).
  { unfold ptr_sub. subst x. replace (k_brk k + HDR * size - HDR * size)
      with (k_brk k) by lia. apply wrap_small. rewrite WORD_val. lia. }
  assert (Mx : (x =? MINUS1) = false).
  { apply Z.eqb_neq. subst x. unfold MINUS1, HDR. rewrite WORD_val. lia. }
  unfold new_memblk. state_simpl.
  destruct Hb as [[Hb _] | [Hb | Hb]]; rewrite Hb.
  - (* first call *)
    unfold NULL. rewrite Z.eqb_refl.
    replace (sys_brk k 0) with (k, k_brk k) by reflexivity. state_simpl.
    rewrite Ex. unfold sys_brk. rewrite Nx.
    replace (0 =? MINUS1) with false by reflexivity. cbn [negb andb].
    destruct (brk_grants k x); state_simpl.
    + rewrite Mx, Sx. reflexivity.
    + reflexivity.
  - assert (Nb : (k_brk k =? NULL) = false).
    { apply Z.eqb_neq. unfold NULL. lia. }
    rewrite Nb. state_simpl. rewrite Ex. unfold sys_brk. rewrite Nx.
    assert (Nm : (k_brk k =? MINUS1) = false).
    { apply Z.eqb_neq. unfold MINUS1. rewrite WORD_val. lia. }
    rewrite Nm. cbn [negb andb].
    destruct (brk_grants k x); state_simpl.
    + rewrite Mx, Sx. reflexivity.
    + reflexivity.
  - (* the cached break was lost to an earlier failure *)
    replace (MINUS1 =? NULL) with false by reflexivity.
    rewrite Z.eqb_refl. cbn [negb andb]. state_simpl.
    assert (Ep : ptr_add MINUS1 size = HDR * size - 1).
    { unfold ptr_add, wrap, MINUS1.
      replace (WORD - 1 + HDR * size) with (HDR * size - 1 + 1 * WORD) by lia.
      rewrite Z.mod_add by (rewrite WORD_val; lia).
      apply Z.mod_small. rewrite WORD_val. unfold HDR. lia. }
    rewrite Ep. unfold sys_brk.
    assert (N0 : (HDR * size - 1 =? 0) = false).
    { apply Z.eqb_neq. unfold HDR. lia. }
    rewrite N0.
    assert (G : brk_grants k (HDR * size - 1) = false).
    { unfold brk_grants.
      assert (E : (k_base k <=? HDR * size - 1) = false).
      { apply Z.leb_gt. unfold HDR. lia. }
      rewrite E. rewrite andb_false_r. reflexivity. }
    rewrite G. state_simpl. rewrite Z.eqb_refl. reflexivity.
Qed.

Lemma lmalloc_new_block_fail st bl size :
  brk_state st bl -> kernel_ok (kern st) -> 1 <= size <= 4096 ->
  negb (last_break st =? MINUS1)
  && brk_grants (kern st) (k_brk (kern st) + HDR * size) = false ->
  lmalloc_new_block st size = (set_last_break st MINUS1, NULL).
Proof.
  intros Hb Hk Hs Hg. unfold lmalloc_new_block.
  rewrite (new_memblk_spec st bl size Hb Hk Hs). cbv zeta. rewrite Hg.
  rewrite Z.eqb_refl. reflexivity.
Qed.

Lemma lmalloc_new_block_ok st bl size :
  brk_state st bl -> kernel_ok (kern st) -> 1 <= size <= 4096 ->
  negb (last_break st =? MINUS1)
  && brk_grants (kern st) (k_brk (kern st) + HDR * size) = true ->
  lmalloc_new_block st size =
  let b := k_brk (kern st) in
  let m4 :=
    set_next (set_prev (set_size (set_isfree (mem st) b 0) b size)
                b (tail st)) b NULL in
  (mkState
     (if tail st =? NULL then m4 else set_next m4 (tail st) b)
     (if head st =? NULL then b else head st)
     b
     (b + HDR * size)
     (set_k_brk (kern st) (b + HDR * size)),
   b + HDR).
Proof.
  intros Hb Hk Hs Hg. unfold lmalloc_new_block.
  rewrite (new_memblk_spec st bl size Hb Hk Hs). cbv zeta. rewrite Hg.
  destruct Hk as [K1 K2 _ _].
  unfold LMEM_MMAP_TRESHOLD, LMEM_PAGESIZE in K1. rewrite TASK_SIZE_val in K2.
  assert (Nm : (k_brk (kern st) =? MINUS1) = false).
  { apply Z.eqb_neq. unfold MINUS1. rewrite WORD_val. lia. }
  rewrite Nm.
  assert (E1 : ptr_add (k_brk (kern st)) 1 = k_brk (kern st) + HDR).
  { rewrite ptr_add_small; unfold HDR; [lia | rewrite WORD_val; lia]. }
  rewrite E1. destruct st as [m hd tl lb k]. state_simpl.
  destruct (hd =? NULL); state_simpl; destruct (tl =? NULL); reflexivity.
Qed.

Lemma list_end {A} (l : list A) : l = [] \/ exists l' a, l = l' ++ [a].
Proof.
  induction l as [|x l IH] using rev_ind.
  - left. reflexivity.
  - right. exists l, x. reflexivity.
Qed.

Lemma nofree2_snoc_used m bl b :
  nofree2 m bl -> get_isfree m b = 0 -> nofree2 m (bl ++ [b]).
Proof.
  intros H Hb. induction bl as [|x bl IH]; simpl.
  - auto.
  - simpl in H. destruct H as [Hx H]. split; [|apply IH; exact H].
    destruct Hx as [Hx | Hx]; [left; exact Hx | right].
    destruct bl; simpl in *; assumption.
Qed.

Lemma only_headers_outside m m' bl lo hi :
  contig m' lo bl hi -> only_headers bl m m' ->
  forall x, x < lo \/ hi <= x -> m' x = m x.
Proof.
  intros Hc Ho x Hx. apply Ho. intros y Hy.
  destruct (contig_In _ _ _ _ _ Hc Hy) as (? & ? & ?). unfold HDR in *. lia.
Qed.

(** The header of every mapping is untouched by writes inside the heap
    segment. *)
Lemma maps_inv_frame st st' :
  kernel_ok (kern st') -> k_maps (kern st') = k_maps (kern st) ->
  maps_inv st ->
  (forall x, x < k_base (kern st') \/ k_brk (kern st') <= x ->
             mem st' x = mem st x) ->
  maps_inv st'.
Proof.
  intros Hk Em Hm Hf. unfold maps_inv in *. rewrite Em.
  destruct Hk as [_ _ K3 _]. rewrite Em in K3.
  rewrite Forall_forall in *. intros r Hr.
  destruct (Hm r Hr) as (H1 & H2 & H3 & H4).
  destruct (K3 r Hr) as (M1 & M2 & M3 & M4).
  unfold LMEM_PAGESIZE in *.
  assert (E : forall off, 0 <= off -> off + 8 <= 32 ->
            load64 (mem st') (fst r + off) = load64 (mem st) (fst r + off)).
  { intros off H0 H8. apply load64_ext. intros x Hx. apply Hf. lia. }
  unfold mapped_block_ok, get_next, get_size.
  rewrite !E by lia. unfold LMEM_PAGESIZE. auto.
Qed.

(** Appending a fresh block at the break. *)
Lemma append_spec st bl size :
  alloc_inv st bl -> 1 <= size <= 4096 ->
  negb (last_break st =? MINUS1)
  && brk_grants (kern st) (k_brk (kern st) + HDR * size) = true ->
  let b := k_brk (kern st) in
  let st' := fst (lmalloc_new_block st size) in
  snd (lmalloc_new_block st size) = b + HDR
  /\ alloc_inv st' (bl ++ [b])
  /\ get_isfree (mem st') b = 0
  /\ get_size (mem st') b = size
  /\ (forall y, In y bl ->
        get_isfree (mem st') y = get_isfree (mem st) y
        /\ get_size (mem st') y = get_size (mem st) y)
  /\ only_headers (bl ++ [b]) (mem st) (mem st')
  /\ k_maps (kern st') = k_maps (kern st).
Proof.
  intros [[Hl (lo & Hlo & Hc) Hn Hb] Hk Hm] Hs Hg b st'.
  subst st'. rewrite (lmalloc_new_block_ok st bl size Hb Hk Hs Hg).
  cbv zeta. fold b. cbn [fst snd].
  apply andb_true_iff in Hg. destruct Hg as [_ Hg].
  apply brk_grants_spec in Hg. fold b in Hg. destruct Hg as [Gx Gm].
  pose proof Hk as [K1 K2 K3 K4]. fold b in K2.
  unfold LMEM_MMAP_TRESHOLD, LMEM_PAGESIZE in K1.
  rewrite TASK_SIZE_val in *.
  destruct st as [m hd tl lb k]. state_simpl. unfold HDR, NULL in *.
  assert (Sep : forall y, In y bl -> lo <= y /\ y + 32 <= b).
  { intros y Hy. destruct (contig_In _ _ _ _ _ Hc Hy) as (? & ? & ?).
    unfold HDR, get_size in *. lia. }
  assert (Kok : kernel_ok (set_k_brk k (b + 32 * size))).
  { constructor; cbn [k_base k_brk k_maps set_k_brk].
    - unfold LMEM_MMAP_TRESHOLD, LMEM_PAGESIZE. lia.
    - rewrite TASK_SIZE_val. lia.
    - rewrite Forall_forall in *. intros r Hr.
      destruct (K3 r Hr) as (? & ? & ? & ?). specialize (Gm r Hr).
      unfold map_ok. cbn [k_base k_brk set_k_brk]. simpl in Gm. lia.
    - exact K4. }
  destruct (list_end bl) as [-> | (bl' & t & ->)].
  - (* first block of the heap *)
    simpl in Hl. destruct Hl as [-> ->]. simpl in Hc. subst lo.
    rewrite Z.eqb_refl.
    assert (Inv : heap_inv
      {| mem := set_next (set_prev (set_size (set_isfree m b 0) b size) b 0) b 0;
         head := b; tail := b; last_break := b + 32 * size;
         kern := set_k_brk k (b + 32 * size) |} [b]).
    { constructor; state_simpl; cbn [k_base k_brk set_k_brk].
      - simpl. repeat split; mem_solve.
      - exists b. split; [lia|]. simpl. repeat split; mem_solve.
      - simpl. split; [left; mem_solve | exact I].
      - right. left. reflexivity. }
    split; [reflexivity|]. split.
    { constructor; [exact Inv | exact Kok |].
      eapply maps_inv_frame with
        (st := {| mem := m; head := 0; tail := 0; last_break := lb; kern := k |});
        [exact Kok | reflexivity | exact Hm |].
      state_simpl. cbn [k_base k_brk set_k_brk]. intros x Hx.
      unfold set_next, set_prev, set_size, set_isfree.
      rewrite !store64_out by lia. reflexivity. }
    split; [mem_solve|]. split; [mem_solve|].
    split; [intros y []|]. split; [|reflexivity].
    assert (Ib : In b ([] ++ [b])) by (simpl; auto).
    unfold set_next, set_prev, set_size, set_isfree. headers_solve.
  - (* behind the last block [t] *)
    destruct (dlseg_last _ _ _ _ _ _ _ Hl) as [-> Ent].
    assert (Ht : In t (bl' ++ [t])) by (apply in_or_app; right; simpl; auto).
    destruct (Sep t Ht) as [Lt Ut].
    assert (Nt : (t =? 0) = false) by (apply Z.eqb_neq; lia).
    rewrite Nt.
    assert (Nh : (hd =? 0) = false).
    { apply Z.eqb_neq. destruct bl' as [|h bl'']; simpl in Hl.
      - lia.
      - destruct Hl as (-> & _).
        assert (Hh : In h ((h :: bl'') ++ [t])) by (simpl; auto).
        destruct (Sep h Hh). lia. }
    rewrite Nh.
    set (m' := set_next (set_next (set_prev (set_size (set_isfree m b 0) b size)
                 b t) b 0) t b).
    assert (Sep' : forall y, In y bl' -> y + 32 <= t).
    { intros y Hy. pose proof Hc as Hc'.
      apply contig_app in Hc'. destruct Hc' as (mid & C1 & C2).
      simpl in C2. destruct C2 as (-> & _).
      destruct (contig_In _ _ _ _ _ C1 Hy) as (? & ? & ?).
      unfold HDR, get_size in *. lia. }
    assert (Fr : forall y, In y (bl' ++ [t]) ->
              get_isfree m' y = get_isfree m y
              /\ get_size m' y = get_size m y
              /\ get_prev m' y = get_prev m y
              /\ (y <> t -> get_next m' y = get_next m y)).
    { intros y Hy. destruct (Sep y Hy). subst m'.
      apply in_app_or in Hy. destruct Hy as [Hy | [<- | []]].
      - specialize (Sep' y Hy). repeat split; mem_solve.
      - repeat split; try mem_solve; congruence. }
    assert (Inv : heap_inv
      {| mem := m'; head := hd; tail := b; last_break := b + 32 * size;
         kern := set_k_brk k (b + 32 * size) |} ((bl' ++ [t]) ++ [b])).
    { constructor; state_simpl; cbn [k_base k_brk set_k_brk].
      - apply dlseg_app. exists b, t. split.
        + apply dlseg_app in Hl. destruct Hl as (mid & lastx & L1 & L2).
          simpl in L2. destruct L2 as (-> & Hpt & _).
          apply dlseg_app. exists t, lastx. split.
          * eapply dlseg_frame; [|exact L1]. intros y Hy.
            assert (Hy' : In y (bl' ++ [t])) by (apply in_or_app; auto).
            destruct (Fr y Hy') as (_ & _ & F3 & F4).
            split; [exact F3 | apply F4]. specialize (Sep' y Hy). lia.
          * simpl. destruct (Fr t Ht) as (_ & _ & F3 & _).
            split; [reflexivity|]. split; [congruence|].
            split; [subst m'; mem_solve | reflexivity].
        + simpl. subst m'. repeat split; mem_solve.
      - exists lo. split; [lia|]. apply contig_app. exists b. split.
        + eapply contig_frame; [|exact Hc]. intros y Hy. apply (Fr y Hy).
        + simpl. subst m'. repeat split; mem_solve.
      - apply nofree2_snoc_used.
        + eapply nofree2_frame; [|exact Hn]. intros y Hy. apply (Fr y Hy).
        + subst m'. mem_solve.
      - right. left. reflexivity. }
    split; [reflexivity|]. split.
    { constructor; [exact Inv | exact Kok |].
      eapply maps_inv_frame with
        (st := {| mem := m; head := hd; tail := t; last_break := lb; kern := k |});
        [exact Kok | reflexivity | exact Hm |].
      state_simpl. cbn [k_base k_brk set_k_brk]. intros x Hx.
      subst m'. unfold set_next, set_prev, set_size, set_isfree.
      rewrite !store64_out by lia. reflexivity. }
    split; [subst m'; mem_solve|]. split; [subst m'; mem_solve|].
    split; [intros y Hy; split; apply (Fr y Hy)|]. split; [|reflexivity].
    assert (Ib : In b ((bl' ++ [t]) ++ [b]))
      by (apply in_or_app; right; simpl; auto).
    assert (It : In t ((bl' ++ [t]) ++ [b]))
      by (apply in_or_app; left; exact Ht).
    subst m'. unfold set_next, set_prev, set_size, set_isfree. headers_solve.
Qed.

(** ** The first-fit scan *)

Lemma lmalloc_scan_skip st size pre : forall first prv nxt last fuel,
  dlseg (mem st) first prv nxt last pre ->
  Forall (fun y => y <> NULL /\ fitsb (mem st) size y = false) pre ->
  lmalloc_scan (length pre + fuel) st first size
  = lmalloc_scan fuel st nxt size.
Proof.
  induction pre as [|y pre IH]; intros first prv nxt last fuel Hl Hf.
  - simpl in Hl. destruct Hl as [-> _]. reflexivity.
  - simpl in Hl. destruct Hl as (-> & _ & Hl).
    inversion Hf as [|? ? [Hy Hfit] Hf']; subst.
    cbn [length Nat.add lmalloc_scan].
    assert (E : (y =? NULL) = false) by (apply Z.eqb_neq; exact Hy).
    rewrite E. unfold fitsb in Hfit. rewrite Hfit.
    eapply IH; eassumption.
Qed.

Lemma block_units_small len :
  0 <= len < LMEM_MMAP_TRESHOLD ->
  block_units len = (len + HDR - 1) / HDR + 1
  /\ 1 <= block_units len <= 2049
  /\ len <= HDR * (block_units len - 1).
Proof.
  unfold LMEM_MMAP_TRESHOLD, LMEM_PAGESIZE. intros H.
  assert (E : block_units len = (len + HDR - 1) / HDR + 1).
  { unfold block_units. rewrite (wrap_small (len + HDR - 1))
      by (unfold HDR; rewrite WORD_val; lia).
    apply wrap_small. unfold HDR. rewrite WORD_val.
    Z.to_euclidean_division_equations. lia. }
  rewrite E. unfold HDR. Z.to_euclidean_division_equations. lia.
Qed.

Lemma nofree2_app_l m xs ys : nofree2 m (xs ++ ys) -> nofree2 m xs.
Proof.
  induction xs as [|x xs IH]; simpl; [auto|].
  intros [H1 H2]. split; [|apply IH; exact H2].
  destruct H1 as [H1 | H1]; [left; exact H1 | right].
  destruct xs; simpl in *; [exact I | exact H1].
Qed.

Lemma dlseg_nonnull m bl lo hi : forall first prv nxt last,
  dlseg m first prv nxt last bl -> contig m lo bl hi -> 0 < lo ->
  Forall (fun y => y <> NULL) bl.
Proof.
  intros first prv nxt last _ Hc Hlo. apply Forall_forall. intros y Hy.
  destruct (contig_In _ _ _ _ _ Hc Hy) as (? & _). unfold NULL. lia.
Qed.

(** A byte of the payload of a block lies in no header of the list. *)
Lemma payload_not_header m bl lo hi b x :
  contig m lo bl hi -> In b bl ->
  b + HDR <= x < b + HDR * get_size m b ->
  forall y, In y bl -> x < y \/ y + HDR <= x.
Proof.
  intros Hc Hb Hx y Hy.
  apply in_split in Hb. destruct Hb as (pre & post & ->).
  destruct (contig_split _ _ _ _ _ _ Hc) as (_ & _ & _ & _ & _ & Bpre & Bpost).
  apply in_app_or in Hy. unfold HDR in *. destruct Hy as [Hy | [<- | Hy]].
  - destruct (Bpre y Hy) as (? & ? & ?). lia.
  - lia.
  - destruct (Bpost y Hy) as (? & ? & ?). lia.
Qed.

Lemma lmalloc_scan_found st size pre b post fuel :
  dlseg (mem st) (head st) NULL NULL (tail st) (pre ++ b :: post) ->
  Forall (fun y => y <> NULL /\ fitsb (mem st) size y = false) pre ->
  b <> NULL -> fitsb (mem st) size b = true ->
  (length pre < fuel)%nat ->
  lmalloc_scan fuel st (head st) size
  = Some (take_block st b size, ptr_add b 1).
Proof.
  intros Hl Hf Hb Hfit Hfuel.
  apply dlseg_app in Hl. destruct Hl as (mid & lastp & Hpre & Hl).
  simpl in Hl. destruct Hl as (-> & _).
  replace fuel with (length pre + S (fuel - length pre - 1))%nat by lia.
  rewrite (lmalloc_scan_skip _ _ _ _ _ _ _ _ Hpre Hf).
  cbn [lmalloc_scan].
  assert (E : (b =? NULL) = false) by (apply Z.eqb_neq; exact Hb).
  rewrite E. unfold fitsb in Hfit. rewrite Hfit. reflexivity.
Qed.

Lemma lmalloc_scan_none st size bl fuel :
  dlseg (mem st) (head st) NULL NULL (tail st) bl ->
  Forall (fun y => y <> NULL /\ fitsb (mem st) size y = false) bl ->
  (length bl < fuel)%nat ->
  lmalloc_scan fuel st (head st) size = Some (lmalloc_new_block st size).
Proof.
  intros Hl Hf Hfuel.
  replace fuel with (length bl + S (fuel - length bl - 1))%nat by lia.
  rewrite (lmalloc_scan_skip _ _ _ _ _ _ _ _ Hl Hf). reflexivity.
Qed.

Lemma brk_state_cons st st' bl bl' :
  brk_state st bl -> bl <> [] ->
  last_break st' = last_break st -> kern st' = kern st ->
  brk_state st' bl'.
Proof.
  unfold brk_state. intros [[_ H] | [H | H]] Hne E1 E2; rewrite E1, E2.
  - contradiction.
  - right. left. exact H.
  - right. right. exact H.
Qed.

(** Taking a fitting block keeps the invariant. *)
Lemma take_block_spec st pre b post size :
  alloc_inv st (pre ++ b :: post) ->
  get_isfree (mem st) b <> 0 -> 1 <= size <= get_size (mem st) b ->
  let st' := take_block st b size in
  let bl' :=
    if size <? get_size (mem st) b
    then pre ++ b :: (b + HDR * size) :: post
    else pre ++ b :: post in
  alloc_inv st' bl'
  /\ get_isfree (mem st') b = 0
  /\ get_size (mem st') b = size
  /\ (forall y, In y (pre ++ post) ->
        get_isfree (mem st') y = get_isfree (mem st) y
        /\ get_size (mem st') y = get_size (mem st) y)
  /\ only_headers bl' (mem st) (mem st')
  /\ kern st' = kern st
  /\ (size < get_size (mem st) b ->
        get_isfree (mem st') (b + HDR * size) = 1
        /\ get_size (mem st') (b + HDR * size)
           = get_size (mem st) b - size).
Proof.
  intros [[Hl (lo & Hlo & Hc) Hn Hb] Hk Hm] Hf Hs st' bl'.
  pose proof Hk as [K1 K2 K3 K4].
  unfold LMEM_MMAP_TRESHOLD, LMEM_PAGESIZE in K1.
  assert (Plo : 0 < lo) by lia.
  assert (Phi : k_brk (kern st) <= TASK_SIZE) by lia.
  assert (Ne : pre ++ b :: post <> []) by (destruct pre; discriminate).
  apply nofree2_app_cons in Hn. destruct Hn as [Hn1 Hn2].
  apply nofree2_app_l in Hn1.
  simpl in Hn2. destruct Hn2 as [[Hn2 | Hn2] Hn3]; [contradiction|].
  subst st' bl'. unfold take_block.
  destruct (size <? get_size (mem st) b) eqn:Elt.
  - (* split *)
    apply Z.ltb_lt in Elt.
    pose proof (split_spec st pre b post lo _ size Hl Hc Plo Phi ltac:(lia))
      as S.
    cbv zeta in S. revert S.
    generalize (lmem_split_block st b size). generalize (b + HDR * size).
    intros u st1 (S1 & S2 & S3 & S4 & S5 & S6 & S7 & S8 & S9 & S10 & S11).
    pose proof (mark_spec st1 pre b (u :: post) lo _ 0 S5 Plo Phi
                  ltac:(rewrite WORD_val; lia)) as M.
    cbv zeta in M. revert M. generalize (set_isfree (mem st1) b 0).
    intros m' (M1 & M2 & M3 & M4 & M5 & M6 & M7).
    assert (I1 : forall y, In y (pre ++ post) -> In y (pre ++ u :: post)).
    { intros y Hy. apply in_app_or in Hy. apply in_or_app. simpl. tauto. }
    assert (I2 : forall y, In y (pre ++ post) -> In y (pre ++ b :: post)).
    { intros y Hy. apply in_app_or in Hy. apply in_or_app. simpl. tauto. }
    assert (I3 : forall y, In y (pre ++ post) -> In y (pre ++ b :: u :: post)).
    { intros y Hy. apply in_app_or in Hy. apply in_or_app. simpl. tauto. }
    assert (Fr : forall y, In y (pre ++ post) ->
              get_isfree m' y = get_isfree (mem st) y).
    { intros y Hy. rewrite M4; [apply S9|]; auto. }
    assert (Inv : heap_inv (set_mem st1 m') (pre ++ b :: u :: post)).
    { constructor; goal_simpl.
      - rewrite S1. apply M1; [apply incl_refl|]. rewrite <- S1. exact S4.
      - exists lo. rewrite S3. split; [exact Hlo | exact M2].
      - apply nofree2_app_cons. split.
        + apply nofree2_snoc_used; [|exact M3].
          eapply nofree2_frame; [|exact Hn1]. intros y Hy.
          apply Fr. apply in_or_app. auto.
        + simpl. split; [left; exact M3|]. split.
          * right. destruct post as [|n post]; simpl in *; [exact I|].
            rewrite Fr; [exact Hn2 | apply in_or_app; simpl; auto].
          * eapply nofree2_frame; [|exact Hn3]. intros y Hy.
            apply Fr. apply in_or_app. auto.
      - eapply brk_state_cons; [exact Hb | exact Ne | exact S2 | exact S3]. }
    assert (Oh : only_headers (pre ++ b :: u :: post) (mem st) m').
    { eapply only_headers_trans; [exact S10 | exact M6]. }
    split.
    { constructor; [exact Inv | goal_simpl; rewrite S3; exact Hk |].
      eapply maps_inv_frame with (st := st);
        [goal_simpl; rewrite S3; exact Hk
        | goal_simpl; rewrite S3; reflexivity | exact Hm |].
      goal_simpl. rewrite S3. intros x Hx.
      apply (only_headers_outside _ _ _ lo _ M2 Oh). lia. }
    goal_simpl. split; [exact M3|].
    split.
    { rewrite M7; [exact S7 | apply in_or_app; simpl; auto]. }
    split.
    { intros y Hy. split; [apply Fr; exact Hy|].
      rewrite M7; [apply S11; exact Hy | auto]. }
    split; [exact Oh|]. split; [exact S3|].
    intros _. split.
    + rewrite M4; [exact S6 | apply in_or_app; simpl; auto].
    + rewrite M7; [exact S8 | apply in_or_app; simpl; auto].
  - (* the whole block *)
    apply Z.ltb_ge in Elt.
    pose proof (mark_spec st pre b post lo _ 0 Hc Plo Phi
                  ltac:(rewrite WORD_val; lia)) as M.
    cbv zeta in M. revert M. generalize (set_isfree (mem st) b 0).
    intros m' (M1 & M2 & M3 & M4 & M5 & M6 & M7).
    assert (Inv : heap_inv (set_mem st m') (pre ++ b :: post)).
    { constructor; goal_simpl.
      - apply M1; [apply incl_refl | exact Hl].
      - exists lo. split; [exact Hlo | exact M2].
      - apply nofree2_app_cons. split.
        + apply nofree2_snoc_used; [|exact M3].
          eapply nofree2_frame; [|exact Hn1]. intros y Hy.
          apply M4. apply in_or_app. auto.
        + simpl. split; [left; exact M3|].
          eapply nofree2_frame; [|exact Hn3]. intros y Hy.
          apply M4. apply in_or_app. auto.
      - eapply brk_state_cons; [exact Hb | exact Ne | |]; reflexivity. }
    split.
    { constructor; [exact Inv | exact Hk |].
      eapply maps_inv_frame with (st := st);
        [exact Hk | reflexivity | exact Hm |].
      goal_simpl. intros x Hx.
      apply (only_headers_outside _ _ _ lo _ M2 M6). lia. }
    goal_simpl. split; [exact M3|].
    split.
    { rewrite M7; [lia | apply in_or_app; simpl; auto]. }
    split.
    { intros y Hy. split; [apply M4; exact Hy|].
      apply M7. apply in_app_or in Hy. apply in_or_app. simpl. tauto. }
    split; [exact M6|]. split; [reflexivity|]. intros Hlt. lia.
Qed.

(** ** Page rounding *)

Lemma page_round_eq len :
  page_round len
  = wrap (len + HDR + LMEM_PAGESIZE - 1) / LMEM_PAGESIZE * LMEM_PAGESIZE.
Proof.
  unfold page_round.
  set (x := wrap (len + HDR + LMEM_PAGESIZE - 1)).
  assert (Hx : 0 <= x < 2 ^ 64) by apply wrap_range.
  unfold wrap, WORD, LMEM_PAGESIZE.
  rewrite <- (Z.land_ones (Z.lnot (4096 - 1)) 64) by lia.
  rewrite (Z.land_comm (Z.lnot (4096 - 1))).
  rewrite Z.land_assoc. rewrite (Z.land_ones x 64) by lia.
  rewrite (Z.mod_small x) by exact Hx.
  rewrite <- Z.ldiff_land.
  change (4096 - 1) with (Z.ones 12).
  rewrite Z.ldiff_ones_r by lia.
  rewrite Z.shiftr_div_pow2, Z.shiftl_mul_pow2 by lia.
  reflexivity.
Qed.

Lemma page_round_aligned len :
  0 <= page_round len < WORD /\ page_round len mod LMEM_PAGESIZE = 0.
Proof.
  rewrite page_round_eq.
  pose proof (wrap_range (len + HDR + LMEM_PAGESIZE - 1)) as H.
  revert H. generalize (wrap (len + HDR + LMEM_PAGESIZE - 1)). intros x H.
  rewrite WORD_val in *. unfold LMEM_PAGESIZE. split.
  - Z.to_euclidean_division_equations. lia.
  - apply Z.mod_mul. lia.
Qed.

(** Without wrap-around the result is the header-inclusive length rounded
    up to the next page boundary. *)
Lemma page_round_no_overflow len :
  0 <= len -> len + HDR + LMEM_PAGESIZE - 1 < WORD ->
  len + HDR <= page_round len < len + HDR + LMEM_PAGESIZE.
Proof.
  intros H0 H. rewrite page_round_eq.
  unfold HDR, LMEM_PAGESIZE in *. rewrite wrap_small by lia.
  Z.to_euclidean_division_equations. lia.
Qed.

Lemma page_round_pos len :
  0 < page_round len -> LMEM_PAGESIZE <= page_round len.
Proof.
  destruct (page_round_aligned len) as [H1 H2]. unfold LMEM_PAGESIZE in *.
  intros H. Z.to_euclidean_division_equations. lia.
Qed.

(** ** The mapping path *)

Lemma region_free_spec k maps a n :
  region_free k maps a n = true ->
  MIN_ADDR <= a /\ a + n <= TASK_SIZE
  /\ (a + n <= k_base k \/ k_brk k <= a)
  /\ Forall (apart (a, n)) maps.
Proof.
  unfold region_free, disjoint.
  rewrite !andb_true_iff, orb_true_iff, !Z.leb_le.
  intros [[[H1 H2] H3] H4]. repeat split; try lia.
  rewrite forallb_forall in H4. apply Forall_forall. intros r Hr.
  specialize (H4 r Hr). rewrite orb_true_iff, !Z.leb_le in H4.
  unfold apart. simpl. lia.
Qed.

(** The heap invariant only depends on the bytes of the heap segment. *)
Lemma heap_inv_frame st st' bl :
  heap_inv st bl ->
  head st' = head st -> tail st' = tail st ->
  last_break st' = last_break st ->
  k_base (kern st') = k_base (kern st) ->
  k_brk (kern st') = k_brk (kern st) ->
  (forall x, k_base (kern st) <= x < k_brk (kern st) -> mem st' x = mem st x) ->
  heap_inv st' bl.
Proof.
  intros [Hl (lo & Hlo & Hc) Hn Hb] E1 E2 E3 E4 E5 Hf.
  assert (Fr : forall y off, In y bl -> 0 <= off -> off + 8 <= HDR ->
            load64 (mem st') (y + off) = load64 (mem st) (y + off)).
  { intros y off Hy H0 H8. apply load64_ext. intros x Hx. apply Hf.
    destruct (contig_In _ _ _ _ _ Hc Hy) as (? & ? & ?).
    unfold HDR in *. lia. }
  assert (Fr0 : forall y, In y bl ->
            load64 (mem st') y = load64 (mem st) y).
  { intros y Hy. replace y with (y + 0) by lia.
    apply Fr; unfold HDR; auto; lia. }
  constructor.
  - rewrite E1, E2. eapply dlseg_frame; [|exact Hl].
    intros y Hy. unfold get_prev, get_next.
    split; apply Fr; unfold HDR; auto; lia.
  - exists lo. rewrite E4, E5. split; [exact Hlo|].
    eapply contig_frame; [|exact Hc].
    intros y Hy. unfold get_size. apply Fr; unfold HDR; auto; lia.
  - eapply nofree2_frame; [|exact Hn].
    intros y Hy. unfold get_isfree. apply Fr0. exact Hy.
  - unfold brk_state in *. rewrite E3, E5. exact Hb.
Qed.

Lemma mapped_block_frame m m' r :
  mapped_block_ok m r ->
  (forall x, fst r <= x < fst r + snd r -> m' x = m x) ->
  mapped_block_ok m' r.
Proof.
  intros (H1 & H2 & H3 & H4) Hf. unfold mapped_block_ok, get_next, get_size in *.
  unfold LMEM_PAGESIZE in *.
  rewrite !(load64_ext m m') by (intros x Hx; apply Hf; lia).
  auto.
Qed.

(** The outcome of the mapping branch of [lmalloc]. *)
Lemma lmalloc_mmap_eq st len :
  let L := page_round len in
  let a := k_place (kern st) (k_maps (kern st)) L in
  lmalloc_mmap st len =
  if (0 <? L) && region_free (kern st) (k_maps (kern st)) a L
  then (mkState (set_size (set_next (fill_bytes (mem st) a 0 L) a LMEM_NEXT_MMAP)
                   a L)
          (head st) (tail st) (last_break st)
          (set_k_maps (kern st) ((a, L) :: k_maps (kern st))),
        a + HDR)
  else (st, NULL).
Proof.
  cbv zeta. unfold lmalloc_mmap, sys_mmap.
  destruct ((0 <? page_round len)
            && region_free (kern st) (k_maps (kern st))
                 (k_place (kern st) (k_maps (kern st)) (page_round len))
                 (page_round len)) eqn:E.
  - apply andb_true_iff in E. destruct E as [E1 E2].
    apply Z.ltb_lt in E1. apply region_free_spec in E2.
    destruct E2 as (R1 & R2 & _).
    unfold MIN_ADDR in R1. rewrite TASK_SIZE_val in R2.
    assert (N : (k_place (kern st) (k_maps (kern st)) (page_round len)
                 =? MAP_FAILED) = false).
    { apply Z.eqb_neq. unfold MAP_FAILED, MINUS1. rewrite WORD_val. lia. }
    rewrite N.
    rewrite ptr_add_small by (unfold HDR; rewrite WORD_val; lia).
    destruct st; reflexivity.
  - rewrite Z.eqb_refl. destruct st; reflexivity.
Qed.

Lemma lmalloc_mmap_inv st bl len :
  alloc_inv st bl ->
  let L := page_round len in
  let a := k_place (kern st) (k_maps (kern st)) L in
  (0 <? L) && region_free (kern st) (k_maps (kern st)) a L = true ->
  alloc_inv (fst (lmalloc_mmap st len)) bl
  /\ (forall x, x < a \/ a + L <= x ->
        mem (fst (lmalloc_mmap st len)) x = mem st x).
Proof.
  intros [Hh Hk Hm] L a E.
  pose proof (lmalloc_mmap_eq st len) as Eq. cbv zeta in Eq.
  fold L in Eq. fold a in Eq. rewrite E in Eq. rewrite Eq. cbn [fst].
  apply andb_true_iff in E. destruct E as [E1 E2].
  apply Z.ltb_lt in E1. apply region_free_spec in E2.
  destruct E2 as (R1 & R2 & R3 & R4).
  pose proof (page_round_pos len E1) as PL. fold L in PL.
  destruct (page_round_aligned len) as [PR PA]. fold L in PR, PA.
  pose proof Hk as [K1 K2 K3 K4].
  unfold MIN_ADDR, LMEM_PAGESIZE, LMEM_MMAP_TRESHOLD, LMEM_NEXT_MMAP in *.
  rewrite TASK_SIZE_val in *.
  assert (Fr : forall x, x < a \/ a + L <= x ->
            set_size (set_next (fill_bytes (mem st) a 0 L) a MINUS1) a L x
            = mem st x).
  { intros x Hx. unfold set_size, set_next.
    rewrite !store64_out by lia. apply fill_bytes_out. lia. }
  split; [|exact Fr].
  constructor.
  - eapply heap_inv_frame; [exact Hh | reflexivity .. |].
    cbn [mem kern]. intros x Hx. apply Fr. lia.
  - constructor; cbn [kern k_base k_brk k_maps set_k_maps].
    + unfold LMEM_MMAP_TRESHOLD, LMEM_PAGESIZE. exact K1.
    + rewrite TASK_SIZE_val. exact K2.
    + constructor.
      * unfold map_ok, MIN_ADDR. cbn [fst snd k_base k_brk set_k_maps].
        rewrite TASK_SIZE_val. lia.
      * eapply Forall_impl; [|exact K3]. intros r Hr. exact Hr.
    + cbn [maps_disjoint]. split; [exact R4 | exact K4].
  - unfold maps_inv. cbn [mem kern k_maps set_k_maps]. constructor.
    + unfold mapped_block_ok. cbn [fst snd]. unfold LMEM_NEXT_MMAP, LMEM_PAGESIZE.
      repeat split; mem_solve.
    + unfold maps_inv in Hm. rewrite Forall_forall in *. intros r Hr.
      eapply mapped_block_frame; [apply Hm; exact Hr|].
      intros x Hx. apply Fr. specialize (R4 r Hr). unfold apart in R4.
      simpl in R4. lia.
Qed.

(** ** What [lmalloc] guarantees *)

Lemma first_fit_dec m size bl :
  Forall (fun y => fitsb m size y = false) bl
  \/ exists pre b post,
       bl = pre ++ b :: post
       /\ Forall (fun y => fitsb m size y = false) pre
       /\ fitsb m size b = true.
Proof.
  induction bl as [|x bl IH].
  - left. constructor.
  - destruct (fitsb m size x) eqn:E.
    + right. exists [], x, bl. repeat split; auto.
    + destruct IH as [IH | (pre & b & post & -> & H1 & H2)].
      * left. constructor; assumption.
      * right. exists (x :: pre), b, post. repeat split; auto.
Qed.

Lemma blocks_disjoint m lo bl hi b1 b2 :
  contig m lo bl hi -> In b1 bl -> In b2 bl -> b1 <> b2 ->
  b1 + HDR * get_size m b1 <= b2 \/ b2 + HDR * get_size m b2 <= b1.
Proof.
  intros Hc H1 H2 Hne.
  apply in_split in H1. destruct H1 as (pre & post & ->).
  destruct (contig_split _ _ _ _ _ _ Hc) as (_ & _ & _ & _ & _ & Bpre & Bpost).
  apply in_app_or in H2. destruct H2 as [H2 | [H2 | H2]].
  - destruct (Bpre b2 H2) as (? & ? & ?). right. lia.
  - congruence.
  - destruct (Bpost b2 H2) as (? & ? & ?). left. lia.
Qed.

Lemma fitsb_true m size b :
  fitsb m size b = true <-> get_isfree m b <> 0 /\ size <= get_size m b.
Proof.
  unfold fitsb. rewrite andb_true_iff, negb_true_iff, Z.eqb_neq, Z.leb_le.
  tauto.
Qed.

Lemma lmalloc_found_post st pre b post len :
  alloc_inv st (pre ++ b :: post) ->
  0 <= len < LMEM_MMAP_TRESHOLD ->
  fitsb (mem st) (block_units len) b = true ->
  exists bl',
    lmalloc_post st (pre ++ b :: post) len
      (take_block st b (block_units len)) (b + HDR) bl'.
Proof.
  intros Hinv Hlen Hfit.
  destruct (block_units_small len Hlen) as (_ & Hu & Hul).
  apply fitsb_true in Hfit. destruct Hfit as [Hf Hsz].
  pose proof (take_block_spec st pre b post (block_units len) Hinv Hf
                ltac:(lia)) as T.
  cbv zeta in T. revert T.
  generalize (take_block st b (block_units len)).
  set (bl' := if block_units len <? get_size (mem st) b
              then pre ++ b :: b + HDR * block_units len :: post
              else pre ++ b :: post).
  intros st' (T1 & T2 & T3 & T4 & T5 & T6 & _).
  assert (Hi : incl (pre ++ b :: post) bl').
  { subst bl'. destruct (block_units len <? get_size (mem st) b).
    - intros y Hy. apply in_app_or in Hy. apply in_or_app. simpl in *. tauto.
    - apply incl_refl. }
  assert (Hb' : In b bl') by (apply Hi; apply in_or_app; simpl; auto).
  destruct T1 as [[Hl' (lo' & Hlo' & Hc') Hn' Hbk'] Hk' Hm'].
  assert (Hother : forall y, In y (pre ++ b :: post) ->
            get_isfree (mem st) y = 0 -> In y (pre ++ post) /\ y <> b).
  { intros y Hy Hy0. split.
    - apply in_app_or in Hy. apply in_or_app. destruct Hy as [Hy | [<- | Hy]].
      + auto.
      + contradiction.
      + auto.
    - intros ->. contradiction. }
  exists bl'. split; [|split; [exact Hi|split]].
  - constructor; [constructor|..]; eauto.
  - intros y Hy Hy0. destruct (Hother y Hy Hy0) as [Hy' Hne].
    destruct (T4 y Hy') as [E1 E2].
    split; [congruence|]. split; [exact E2|].
    intros x Hx. apply T5.
    apply (payload_not_header (mem st') bl' lo' _ y x Hc' (Hi y Hy)).
    rewrite E2. exact Hx.
  - intros _ _. split.
    + left. exists b. rewrite T3. auto.
    + intros y Hy Hy0. destruct (Hother y Hy Hy0) as [Hy' Hne].
      destruct (T4 y Hy') as [E1 E2].
      destruct (blocks_disjoint _ _ _ _ b y Hc' Hb' (Hi y Hy)
                  ltac:(congruence)) as [D | D].
      * left. rewrite T3 in D. unfold HDR in *. lia.
      * right. rewrite E2 in D. unfold HDR in *. lia.
Qed.

Lemma lmalloc_none_post st bl len :
  alloc_inv st bl ->
  0 <= len < LMEM_MMAP_TRESHOLD ->
  exists bl',
    lmalloc_post st bl len
      (fst (lmalloc_new_block st (block_units len)))
      (snd (lmalloc_new_block st (block_units len))) bl'.
Proof.
  intros Hinv Hlen.
  destruct (block_units_small len Hlen) as (_ & Hu & Hul).
  pose proof Hinv as [[Hl (lo & Hlo & Hc) Hn Hb] Hk Hm].
  destruct (negb (last_break st =? MINUS1)
            && brk_grants (kern st)
                 (k_brk (kern st) + HDR * block_units len)) eqn:Hg.
  - (* the heap grows *)
    pose proof (append_spec st bl (block_units len) Hinv ltac:(lia) Hg) as A.
    cbv zeta in A. revert A.
    generalize (lmalloc_new_block st (block_units len)).
    intros [st' r] (A1 & A2 & A3 & A4 & A5 & A6 & A7). cbn [fst snd] in *.
    exists (bl ++ [k_brk (kern st)]).
    pose proof A2 as [[Hl' (lo' & Hlo' & Hc') Hn' Hbk'] Hk' Hm'].
    split; [exact A2|]. split; [apply incl_appl; apply incl_refl|]. split.
    + intros y Hy Hy0. destruct (A5 y Hy) as [E1 E2].
      split; [congruence|]. split; [exact E2|].
      intros x Hx. apply A6.
      apply (payload_not_header (mem st') _ lo' _ y x Hc').
      * apply in_or_app. auto.
      * rewrite E2. exact Hx.
    + intros _ _. split.
      * left. exists (k_brk (kern st)). rewrite A4.
        split; [apply in_or_app; simpl; auto|]. auto.
      * intros y Hy Hy0.
        destruct (contig_In _ _ _ _ _ Hc Hy) as (? & ? & ?).
        right. rewrite A1. unfold HDR in *. lia.
  - (* the kernel refuses *)
    rewrite (lmalloc_new_block_fail st bl (block_units len) Hb Hk
               ltac:(lia) Hg).
    cbn [fst snd]. exists bl. split; [|split; [apply incl_refl|split]].
    + constructor; [|exact Hk|exact Hm].
      constructor; goal_simpl; auto.
      * exists lo. auto.
      * right. right. reflexivity.
    + intros y Hy Hy0. auto.
    + intros Hr. exfalso. apply Hr. reflexivity.
Qed.

Lemma lmalloc_mmap_post st bl len :
  alloc_inv st bl -> 0 <= len ->
  lmalloc_post st bl len
    (fst (lmalloc_mmap st len)) (snd (lmalloc_mmap st len)) bl.
Proof.
  intros Hinv Hlen.
  pose proof Hinv as [[Hl (lo & Hlo & Hc) Hn Hb] Hk Hm].
  pose proof (lmalloc_mmap_eq st len) as Eq. cbv zeta in Eq.
  destruct ((0 <? page_round len)
            && region_free (kern st) (k_maps (kern st))
                 (k_place (kern st) (k_maps (kern st)) (page_round len))
                 (page_round len)) eqn:E.
  - destruct (lmalloc_mmap_inv st bl len Hinv E) as [I1 I2].
    apply andb_true_iff in E. destruct E as [E1 E2].
    apply Z.ltb_lt in E1. apply region_free_spec in E2.
    destruct E2 as (R1 & R2 & R3 & R4).
    revert I1 I2. rewrite Eq. cbn [fst snd mem kern]. intros I1 I2.
    set (a := k_place (kern st) (k_maps (kern st)) (page_round len)) in *.
    assert (Hheap : forall y, In y bl ->
              a + page_round len <= y
              \/ y + HDR * get_size (mem st) y <= a).
    { intros y Hy. destruct (contig_In _ _ _ _ _ Hc Hy) as (? & ? & ?). lia. }
    split; [exact I1|]. split; [apply incl_refl|]. split.
    + intros y Hy Hy0.
      assert (Fr : forall x, y <= x < y + HDR * get_size (mem st) y ->
                set_size (set_next (fill_bytes (mem st) a 0 (page_round len)) a
                            LMEM_NEXT_MMAP) a (page_round len) x = mem st x).
      { intros x Hx. apply I2. specialize (Hheap y Hy). lia. }
      destruct (contig_In _ _ _ _ _ Hc Hy) as (? & ? & ?). unfold HDR in *.
      split; [|split].
      * unfold get_isfree in *. cbn [mem].
        rewrite (load64_ext (mem st)); [exact Hy0|].
        intros x Hx. apply Fr. lia.
      * unfold get_size in *. apply load64_ext. intros x Hx. apply Fr. lia.
      * intros x Hx. apply Fr. lia.
    + intros _ Hov.
      pose proof (page_round_no_overflow len Hlen Hov) as [P1 P2].
      split.
      * right. exists a, (page_round len).
        cbn [k_maps set_k_maps]. simpl. auto.
      * intros y Hy Hy0. specialize (Hheap y Hy). unfold HDR in *. lia.
  - rewrite Eq. cbn [fst snd].
    split; [exact Hinv|]. split; [apply incl_refl|]. split.
    + intros y Hy Hy0. auto.
    + intros Hr. exfalso. apply Hr. reflexivity.
Qed.

(** [lmalloc] returns, and its result meets the postcondition. *)
Lemma lmalloc_spec st bl len fuel :
  alloc_inv st bl -> 0 <= len < WORD -> (length bl < fuel)%nat ->
  exists st' r bl',
    lmalloc fuel st len = Some (st', r) /\ lmalloc_post st bl len st' r bl'.
Proof.
  intros Hinv Hlen Hfuel. unfold lmalloc.
  destruct (LMEM_MMAP_TRESHOLD <=? len) eqn:Et.
  - exists (fst (lmalloc_mmap st len)), (snd (lmalloc_mmap st len)), bl.
    split; [rewrite <- surjective_pairing; reflexivity|].
    apply lmalloc_mmap_post; [exact Hinv | lia].
  - apply Z.leb_gt in Et.
    pose proof Hinv as [[Hl (lo & Hlo & Hc) Hn Hb] Hk Hm].
    pose proof Hk as [K1 _ _ _].
    unfold LMEM_MMAP_TRESHOLD, LMEM_PAGESIZE in K1.
    assert (Hnn : Forall (fun y => y <> NULL) bl).
    { eapply dlseg_nonnull; [exact Hl | exact Hc | lia]. }
    destruct (first_fit_dec (mem st) (block_units len) bl)
      as [Hno | (pre & b & post & -> & Hno & Hfit)].
    + rewrite (lmalloc_scan_none st _ bl fuel Hl); [| |exact Hfuel].
      * destruct (lmalloc_none_post st bl len Hinv ltac:(lia)) as (bl' & P).
        exists (fst (lmalloc_new_block st (block_units len))),
               (snd (lmalloc_new_block st (block_units len))), bl'.
        split; [rewrite <- surjective_pairing; reflexivity | exact P].
      * rewrite Forall_forall in *. intros y Hy. split; auto.
    + assert (Hbn : b <> NULL).
      { rewrite Forall_forall in Hnn. apply Hnn. apply in_or_app. simpl. auto. }
      rewrite (lmalloc_scan_found st _ pre b post fuel Hl); auto.
      * destruct (lmalloc_found_post st pre b post len Hinv ltac:(lia) Hfit)
          as (bl' & P).
        assert (Eb : ptr_add b 1 = b + HDR).
        { destruct (contig_In _ _ _ _ b Hc) as (? & ? & ?).
          { apply in_or_app. simpl. auto. }
          destruct Hk as [_ K2 _ _]. rewrite TASK_SIZE_val in K2.
          apply ptr_add_small. unfold HDR in *. rewrite WORD_val. lia. }
        rewrite Eb. eauto.
      * rewrite Forall_forall in *. intros y Hy. split; auto.
        apply Hnn. apply in_or_app. auto.
      * rewrite length_app in Hfuel. simpl in Hfuel. lia.
Qed.

(** The pointer [lmalloc] returns is not the pointer of a block that is in
    use. *)
Lemma lmalloc_new_pointer st bl len fuel st' r :
  alloc_inv st bl -> 0 <= len < WORD -> (length bl < fuel)%nat ->
  lmalloc fuel st len = Some (st', r) ->
  forall b, In b bl -> get_isfree (mem st) b = 0 -> r <> b + HDR.
Proof.
  intros Hinv Hlen Hfuel E b Hb Hb0.
  pose proof Hinv as [[Hl (lo & Hlo & Hc) Hn Hbk] Hk Hm].
  pose proof Hk as [K1 K2 K3 K4].
  unfold LMEM_MMAP_TRESHOLD, LMEM_PAGESIZE in K1.
  destruct (contig_In _ _ _ _ _ Hc Hb) as (B1 & B2 & B3).
  unfold lmalloc in E.
  destruct (LMEM_MMAP_TRESHOLD <=? len) eqn:Et.
  - pose proof (lmalloc_mmap_eq st len) as Eq. cbv zeta in Eq.
    destruct ((0 <? page_round len)
              && region_free (kern st) (k_maps (kern st))
                   (k_place (kern st) (k_maps (kern st)) (page_round len))
                   (page_round len)) eqn:Eg.
    + apply andb_true_iff in Eg. destruct Eg as [E1 E2].
      apply Z.ltb_lt in E1. apply region_free_spec in E2.
      destruct E2 as (R1 & R2 & R3 & _).
      rewrite Eq in E. injection E as _ <-. unfold HDR in *. lia.
    + rewrite Eq in E. injection E as _ <-. unfold NULL, HDR in *. lia.
  - apply Z.leb_gt in Et.
    destruct (block_units_small len ltac:(lia)) as (_ & Hu & _).
    assert (Hnn : Forall (fun y => y <> NULL) bl).
    { eapply dlseg_nonnull; [exact Hl | exact Hc | lia]. }
    rewrite Forall_forall in Hnn.
    destruct (first_fit_dec (mem st) (block_units len) bl)
      as [Hno | (pre & c & post & -> & Hno & Hfit)].
    + rewrite (lmalloc_scan_none st _ bl fuel Hl) in E; [| |exact Hfuel].
      2:{ rewrite Forall_forall in *. intros y Hy. split; auto. }
      injection E as E.
      destruct (negb (last_break st =? MINUS1)
                && brk_grants (kern st)
                     (k_brk (kern st) + HDR * block_units len)) eqn:Hg.
      * pose proof (append_spec st bl (block_units len) Hinv ltac:(lia) Hg)
          as A.
        cbv zeta in A. destruct A as (A1 & _).
        rewrite E in A1. cbn [snd] in A1. unfold HDR in *. lia.
      * rewrite (lmalloc_new_block_fail st bl (block_units len) Hbk Hk
                   ltac:(lia) Hg) in E.
        injection E as _ <-. unfold NULL, HDR in *. lia.
    + assert (Ic : In c (pre ++ c :: post)) by (apply in_or_app; simpl; auto).
      rewrite (lmalloc_scan_found st _ pre c post fuel Hl) in E; auto.
      * destruct (contig_In _ _ _ _ c Hc Ic) as (C1 & C2 & C3).
        rewrite TASK_SIZE_val in K2.
        assert (Eb : ptr_add c 1 = c + HDR).
        { apply ptr_add_small. unfold HDR in *. rewrite WORD_val. lia. }
        rewrite Eb in E. injection E as _ <-.
        apply fitsb_true in Hfit. destruct Hfit as [Hf _].
        intros Ee. assert (c = b) by lia. subst c. contradiction.
      * rewrite Forall_forall in *. intros y Hy. split; auto.
        apply Hnn. apply in_or_app. auto.
      * rewrite length_app in Hfuel. simpl in Hfuel. lia.
Qed.

(** A non-null result of the heap branch of [lmalloc] points behind the
    header of a block that is marked in use. *)
Lemma lmalloc_result_in_use st bl len fuel st' r :
  alloc_inv st bl -> 0 <= len < LMEM_MMAP_TRESHOLD ->
  (length bl < fuel)%nat ->
  lmalloc fuel st len = Some (st', r) -> r <> NULL ->
  get_isfree (mem st') (r - HDR) = 0.
Proof.
  intros Hinv Hlen Hfuel E Hr.
  pose proof Hinv as [[Hl (lo & Hlo & Hc) Hn Hbk] Hk Hm].
  pose proof Hk as [K1 K2 K3 K4].
  unfold LMEM_MMAP_TRESHOLD, LMEM_PAGESIZE in K1.
  unfold lmalloc in E.
  assert (Et : (LMEM_MMAP_TRESHOLD <=? len) = false) by (apply Z.leb_gt; lia).
  rewrite Et in E.
  destruct (block_units_small len Hlen) as (_ & Hu & _).
  assert (Hnn : Forall (fun y => y <> NULL) bl).
  { eapply dlseg_nonnull; [exact Hl | exact Hc | lia]. }
  rewrite Forall_forall in Hnn.
  destruct (first_fit_dec (mem st) (block_units len) bl)
    as [Hno | (pre & c & post & -> & Hno & Hfit)].
  - rewrite (lmalloc_scan_none st _ bl fuel Hl) in E; [| |exact Hfuel].
    2:{ rewrite Forall_forall in *. intros y Hy. split; auto. }
    injection E as E.
    destruct (negb (last_break st =? MINUS1)
              && brk_grants (kern st)
                   (k_brk (kern st) + HDR * block_units len)) eqn:Hg.
    + pose proof (append_spec st bl (block_units len) Hinv ltac:(lia) Hg)
        as A.
      cbv zeta in A. destruct A as (A1 & _ & A3 & _).
      rewrite E in A1, A3. cbn [fst snd] in A1, A3. subst r.
      replace (k_brk (kern st) + HDR - HDR) with (k_brk (kern st)) by lia.
      exact A3.
    + rewrite (lmalloc_new_block_fail st bl (block_units len) Hbk Hk
                 ltac:(lia) Hg) in E.
      injection E as _ <-. exfalso. apply Hr. reflexivity.
  - assert (Ic : In c (pre ++ c :: post)) by (apply in_or_app; simpl; auto).
    rewrite (lmalloc_scan_found st _ pre c post fuel Hl) in E; auto.
    + destruct (contig_In _ _ _ _ c Hc Ic) as (C1 & C2 & C3).
      rewrite TASK_SIZE_val in K2.
      assert (Eb : ptr_add c 1 = c + HDR).
      { apply ptr_add_small. unfold HDR in *. rewrite WORD_val. lia. }
      rewrite Eb in E. injection E as <- <-.
      apply fitsb_true in Hfit. destruct Hfit as [Hf Hsz].
      pose proof (take_block_spec st pre c post (block_units len) Hinv Hf
                    ltac:(lia)) as T.
      cbv zeta in T. destruct T as (_ & T2 & _).
      replace (c + HDR - HDR) with c by lia. exact T2.
    + rewrite Forall_forall in *. intros y Hy. split; auto.
      apply Hnn. apply in_or_app. auto.
    + rewrite length_app in Hfuel. simpl in Hfuel. lia.
Qed.

(** ** Releasing a heap block *)

Lemma alloc_inv_shape st bl :
  alloc_inv st bl <-> shape_inv st bl /\ nofree2 (mem st) bl.
Proof.
  unfold shape_inv. split.
  - intros [[H1 H2 H3 H4] H5 H6]. tauto.
  - intros [(H1 & H2 & H4 & H5 & H6) H3].
    constructor; [constructor|..]; assumption.
Qed.

Lemma merge_absorb_shape st pre p x post :
  shape_inv st (pre ++ p :: x :: post) ->
  get_isfree (mem st) p <> 0 ->
  let st' := lfree_left_merge st x in
  shape_inv st' (pre ++ p :: post)
  /\ (forall y, In y (pre ++ p :: x :: post) ->
        get_isfree (mem st') y = get_isfree (mem st) y)
  /\ get_next (mem st') x = get_next (mem st) x
  /\ only_headers (pre ++ p :: post) (mem st) (mem st')
  /\ get_size (mem st') p = get_size (mem st) p + get_size (mem st) x
  /\ (forall y, In y (pre ++ post) ->
        get_size (mem st') y = get_size (mem st) y)
  /\ kern st' = kern st.
Proof.
  intros (Hl & (lo & Hlo & Hc) & Hb & Hk & Hm) Hf.
  pose proof Hk as [K1 K2 _ _].
  unfold LMEM_MMAP_TRESHOLD, LMEM_PAGESIZE in K1.
  pose proof (absorb_spec st pre p x post lo _ Hl Hc ltac:(lia) ltac:(lia) Hf)
    as A.
  cbv zeta in *. revert A. generalize (lfree_left_merge st x).
  intros st' (A1 & A2 & A3 & A4 & A5 & A6 & A7 & A8 & A9 & A10).
  split; [|auto 10].
  unfold shape_inv. rewrite A3. split; [exact A4|].
  split; [exists lo; auto|].
  split; [eapply brk_state_cons;
          [exact Hb | destruct pre; discriminate | exact A2 | exact A3]|].
  split; [exact Hk|].
  eapply maps_inv_frame with (st := st);
    [rewrite A3; exact Hk | rewrite A3; reflexivity | exact Hm |].
  rewrite A3. intros y Hy.
  apply (only_headers_outside _ _ _ lo _ A5 A9). lia.
Qed.

Lemma merge_mark_shape st pre x post :
  shape_inv st (pre ++ x :: post) ->
  get_prev (mem st) x = NULL
  \/ get_isfree (mem st) (get_prev (mem st) x) = 0 ->
  let st' := lfree_left_merge st x in
  shape_inv st' (pre ++ x :: post)
  /\ get_isfree (mem st') x = 1
  /\ (forall y, In y (pre ++ post) ->
        get_isfree (mem st') y = get_isfree (mem st) y)
  /\ get_next (mem st') x = get_next (mem st) x
  /\ only_headers (pre ++ x :: post) (mem st) (mem st')
  /\ (forall y, In y (pre ++ x :: post) ->
        get_size (mem st') y = get_size (mem st) y)
  /\ kern st' = kern st.
Proof.
  intros (Hl & (lo & Hlo & Hc) & Hb & Hk & Hm) Hp.
  pose proof Hk as [K1 K2 _ _].
  unfold LMEM_MMAP_TRESHOLD, LMEM_PAGESIZE in K1.
  cbv zeta. rewrite (lfree_left_merge_mark st x Hp).
  pose proof (mark_spec st pre x post lo _ 1 Hc ltac:(lia) ltac:(lia)
                ltac:(rewrite WORD_val; lia)) as M.
  cbv zeta in M. revert M. generalize (set_isfree (mem st) x 1).
  intros m' (M1 & M2 & M3 & M4 & M5 & M6 & M7).
  unfold set_mem. cbn [mem head tail last_break kern].
  split; [|auto 10].
  unfold shape_inv. cbn [mem head tail last_break kern].
  split; [apply M1; [apply incl_refl | exact Hl]|].
  split; [exists lo; auto|].
  split; [exact Hb|]. split; [exact Hk|].
  eapply maps_inv_frame with (st := st); [exact Hk | reflexivity | exact Hm |].
  cbn [mem kern]. intros y Hy.
  apply (only_headers_outside _ _ _ lo _ M2 M6). lia.
Qed.

(** The successor recorded in the header of a listed block. *)
Lemma dlseg_next m pre b post first prv last :
  dlseg m first prv NULL last (pre ++ b :: post) ->
  get_next m b = match post with [] => NULL | n :: _ => n end.
Proof.
  intros H. apply dlseg_app in H. destruct H as (mid & lastx & _ & H).
  simpl in H. destruct H as (_ & _ & H).
  destruct post; simpl in H; tauto.
Qed.

(** The predecessor recorded in the header of a listed block. *)
Lemma dlseg_prev m pre b post first nxt last :
  dlseg m first NULL nxt last (pre ++ b :: post) ->
  (pre = [] /\ get_prev m b = NULL)
  \/ (exists pre' p, pre = pre' ++ [p] /\ get_prev m b = p).
Proof.
  intros H. destruct (list_end pre) as [-> | (pre' & p & ->)].
  - left. simpl in H. tauto.
  - right. exists pre', p. split; [reflexivity|].
    rewrite <- app_assoc in H. simpl in H.
    apply dlseg_app in H. destruct H as (mid & lastx & _ & H).
    simpl in H. tauto.
Qed.

Lemma nofree2_snoc_after_used m pre b :
  nofree2 m pre ->
  pre = [] \/ (exists pre' p, pre = pre' ++ [p] /\ get_isfree m p = 0) ->
  nofree2 m (pre ++ [b]).
Proof.
  intros H [-> | (pre' & p & -> & Hp)].
  - simpl. auto.
  - rewrite <- app_assoc. simpl. apply nofree2_app_cons. split; [exact H|].
    simpl. auto.
Qed.

(** [lfree] on the usable pointer of a heap block. *)
Lemma lfree_heap_eq st b :
  0 < b + HDR < WORD -> 0 <= b ->
  get_next (mem st) b <> LMEM_NEXT_MMAP ->
  lfree st (b + HDR) =
  let st1 := lfree_left_merge st b in
  if negb (get_next (mem st1) b =? NULL)
     && negb (get_isfree (mem st1) (get_next (mem st1) b) =? 0)
  then lfree_left_merge st1 (get_next (mem st1) b)
  else st1.
Proof.
  intros Hb Hb0 Hn. unfold lfree.
  assert (E0 : (b + HDR =? NULL) = false)
    by (apply Z.eqb_neq; unfold NULL; lia).
  assert (E1 : ptr_sub (b + HDR) 1 = b).
  { unfold ptr_sub. replace (b + HDR - HDR * 1) with b by lia.
    apply wrap_small. unfold HDR in *. lia. }
  rewrite E0, E1.
  assert (E2 : (get_next (mem st) b =? LMEM_NEXT_MMAP) = false)
    by (apply Z.eqb_neq; exact Hn).
  rewrite E2. reflexivity.
Qed.

(** The second half of [lfree]: the right neighbour of the free block [c]
    is merged into it when it is free. *)
Lemma lfree_right_merge st pre c post nb :
  shape_inv st (pre ++ c :: post) ->
  get_isfree (mem st) c <> 0 ->
  nofree2 (mem st) post ->
  nb = match post with [] => NULL | n :: _ => n end ->
  let st' :=
    if negb (nb =? NULL) && negb (get_isfree (mem st) nb =? 0)
    then lfree_left_merge st nb else st in
  exists post',
    shape_inv st' (pre ++ c :: post')
    /\ nofree2 (mem st') (c :: post')
    /\ (forall y, In y (pre ++ [c]) ->
          get_isfree (mem st') y = get_isfree (mem st) y)
    /\ incl post' post
    /\ get_size (mem st) c <= get_size (mem st') c
    /\ only_headers (pre ++ c :: post) (mem st) (mem st')
    /\ kern st' = kern st
    /\ ((post' = post /\ used_next (mem st) post)
        \/ (exists n, post = n :: post' /\ get_isfree (mem st) n <> 0)).
Proof.
  intros Hs Hc Hn Enb. cbv zeta.
  pose proof Hs as (Hl & (lo & Hlo & Hct) & Hb & Hk & Hm).
  pose proof Hk as [K1 K2 _ _].
  unfold LMEM_MMAP_TRESHOLD, LMEM_PAGESIZE in K1.
  destruct post as [|n post].
  - (* [c] is the last block *)
    subst nb. rewrite Z.eqb_refl. cbn [negb andb].
    exists []. split; [exact Hs|]. split; [simpl; auto|].
    split; [reflexivity|]. split; [apply incl_refl|]. split; [lia|].
    split; [apply only_headers_refl|]. split; [reflexivity|].
    left. simpl. auto.
  - subst nb.
    assert (Nn : (n =? NULL) = false).
    { apply Z.eqb_neq.
      destruct (contig_In _ _ _ _ n Hct) as (? & _).
      { apply in_or_app. simpl. auto. }
      unfold NULL. lia. }
    rewrite Nn. cbn [negb andb].
    destruct (get_isfree (mem st) n =? 0) eqn:Ef; cbn [negb].
    + (* the neighbour is in use *)
      apply Z.eqb_eq in Ef.
      exists (n :: post). split; [exact Hs|].
      split; [simpl; simpl in Hn; tauto|].
      split; [reflexivity|]. split; [apply incl_refl|]. split; [lia|].
      split; [apply only_headers_refl|]. split; [reflexivity|].
      left. simpl. auto.
    + (* the neighbour is free: it is merged *)
      apply Z.eqb_neq in Ef.
      pose proof (merge_absorb_shape st pre c n post Hs Hc) as A.
      cbv zeta in A. revert A. generalize (lfree_left_merge st n).
      intros st' (A1 & A2 & A3 & A4 & A5 & A6 & A7).
      simpl in Hn. destruct Hn as [[Hn | Hn] Hn']; [contradiction|].
      exists post. split; [exact A1|]. split; [|split; [|split; [|split]]].
      * simpl. split.
        -- right. destruct post as [|n' post]; simpl in *; [exact I|].
           rewrite A2; [exact Hn | apply in_or_app; simpl; auto].
        -- eapply nofree2_frame; [|exact Hn']. intros y Hy.
           apply A2. apply in_or_app. simpl. auto.
      * intros y Hy. apply A2. apply in_app_or in Hy. apply in_or_app.
        simpl in *. tauto.
      * apply incl_tl. apply incl_refl.
      * rewrite A5.
        destruct (contig_In _ _ _ _ n Hct) as (_ & ? & _).
        { apply in_or_app. simpl. auto. }
        lia.
      * split; [|split; [exact A7 | right; exists n; auto]].
        eapply only_headers_incl; [|exact A4].
        intros y Hy. apply in_app_or in Hy. apply in_or_app. simpl in *. tauto.
Qed.

(** What [lfree] does to the heap: the released block ends up inside a
    free block [c], and the invariant, in particular invariant 2, holds
    again. *)
Lemma lfree_heap_spec st pre b post :
  alloc_inv st (pre ++ b :: post) ->
  let st' := lfree st (b + HDR) in
  exists pre' c post',
    alloc_inv st' (pre' ++ c :: post')
    /\ incl (pre' ++ c :: post') (pre ++ b :: post)
    /\ get_isfree (mem st') c <> 0
    /\ c <= b
    /\ b + HDR * get_size (mem st) b <= c + HDR * get_size (mem st') c
    /\ only_headers (pre ++ b :: post) (mem st) (mem st')
    /\ kern st' = kern st
    /\ ((pre' = pre /\ c = b
         /\ (pre = []
             \/ exists q p, pre = q ++ [p] /\ get_isfree (mem st) p = 0))
        \/ (pre = pre' ++ [c] /\ get_isfree (mem st) c <> 0))
    /\ ((post' = post /\ used_next (mem st) post)
        \/ (exists n, post = n :: post' /\ get_isfree (mem st) n <> 0)).
Proof.
  intros Hinv. cbv zeta.
  apply alloc_inv_shape in Hinv. destruct Hinv as [Hs Hn].
  pose proof Hs as (Hl & (lo & Hlo & Hc) & Hb & Hk & Hm).
  pose proof Hk as [K1 K2 _ _].
  unfold LMEM_MMAP_TRESHOLD, LMEM_PAGESIZE in K1.
  destruct (contig_split _ _ _ _ _ _ Hc)
    as (Cpre & Sb & Cpost & Lb & Ub & Bpre & Bpost).
  pose proof (dlseg_next _ _ _ _ _ _ _ Hl) as Enext.
  assert (Hnext : get_next (mem st) b <> LMEM_NEXT_MMAP).
  { rewrite Enext. unfold LMEM_NEXT_MMAP, MINUS1, NULL.
    rewrite WORD_val. rewrite TASK_SIZE_val in K2.
    destruct post as [|n post]; [lia|].
    destruct (Bpost n (or_introl eq_refl)) as (? & ? & ?).
    unfold HDR in *. lia. }
  rewrite lfree_heap_eq;
    [| unfold HDR; rewrite WORD_val; rewrite TASK_SIZE_val in K2;
       unfold HDR in *; lia | lia | exact Hnext].
  cbv zeta.
  apply nofree2_app_cons in Hn. destruct Hn as [Hn1 Hn2].
  simpl in Hn2. destruct Hn2 as [Hn2 Hn3].
  destruct (dlseg_prev _ _ _ _ _ _ _ Hl)
    as [[-> Eprev] | (pre' & p & -> & Eprev)].
  - (* no left neighbour: marked in place *)
    pose proof (merge_mark_shape st [] b post Hs (or_introl Eprev)) as M.
    cbv zeta in M. revert M. generalize (lfree_left_merge st b).
    intros st1 (M1 & M2 & M3 & M4 & M5 & M6 & M7).
    rewrite M4.
    assert (Hn3' : nofree2 (mem st1) post).
    { eapply nofree2_frame; [|exact Hn3]. intros y Hy. apply M3. exact Hy. }
    pose proof (lfree_right_merge st1 [] b post (get_next (mem st) b) M1
                  ltac:(lia) Hn3' Enext) as R.
    cbv zeta in R. revert R.
    generalize (if negb (get_next (mem st) b =? NULL)
                   && negb (get_isfree (mem st1) (get_next (mem st) b) =? 0)
                then lfree_left_merge st1 (get_next (mem st) b) else st1).
    intros st2 (post' & R1 & R2 & R3 & R4 & R5 & R6 & R7 & R8).
    assert (R8' : (post' = post /\ used_next (mem st) post)
                  \/ (exists n, post = n :: post'
                                /\ get_isfree (mem st) n <> 0)).
    { destruct R8 as [[-> U] | (n & -> & U)].
      - left. split; [reflexivity|].
        destruct post as [|n post]; simpl in *; [exact I|].
        rewrite <- M3; [exact U | simpl; auto].
      - right. exists n. split; [reflexivity|].
        rewrite <- M3; [exact U | simpl; auto]. }
    exists [], b, post'.
    split; [|split; [|split; [|split; [|split; [|split; [|split; [|split]]]]]]].
    + apply alloc_inv_shape. split; [exact R1 | exact R2].
    + simpl. apply incl_cons; [simpl; auto | apply incl_tl; exact R4].
    + rewrite R3; [lia | simpl; auto].
    + lia.
    + rewrite (M6 b) in R5 by (simpl; auto). unfold HDR. lia.
    + eapply only_headers_trans; [exact M5 | exact R6].
    + congruence.
    + left. auto.
    + exact R8'.
  - destruct (Z.eq_dec (get_isfree (mem st) p) 0) as [Hp | Hp].
    + (* the left neighbour is in use: marked in place *)
      pose proof (merge_mark_shape st (pre' ++ [p]) b post Hs
                    ltac:(right; rewrite Eprev; exact Hp)) as M.
      cbv zeta in M. revert M. generalize (lfree_left_merge st b).
      intros st1 (M1 & M2 & M3 & M4 & M5 & M6 & M7).
      rewrite M4.
      assert (Hn3' : nofree2 (mem st1) post).
      { eapply nofree2_frame; [|exact Hn3]. intros y Hy. apply M3.
        apply in_or_app. auto. }
      pose proof (lfree_right_merge st1 (pre' ++ [p]) b post
                    (get_next (mem st) b) M1 ltac:(lia) Hn3' Enext) as R.
      cbv zeta in R. revert R.
      generalize (if negb (get_next (mem st) b =? NULL)
                     && negb (get_isfree (mem st1) (get_next (mem st) b) =? 0)
                  then lfree_left_merge st1 (get_next (mem st) b) else st1).
      intros st2 (post' & R1 & R2 & R3 & R4 & R5 & R6 & R7 & R8).
      assert (Fl : forall y, In y (pre' ++ [p]) ->
                get_isfree (mem st2) y = get_isfree (mem st) y).
      { intros y Hy. rewrite R3 by (apply in_or_app; auto).
        apply M3. apply in_or_app. auto. }
      assert (R8' : (post' = post /\ used_next (mem st) post)
                    \/ (exists n, post = n :: post'
                                  /\ get_isfree (mem st) n <> 0)).
      { destruct R8 as [[-> U] | (n & -> & U)].
        - left. split; [reflexivity|].
          destruct post as [|n post]; simpl in *; [exact I|].
          rewrite <- M3; [exact U | apply in_or_app; simpl; auto].
        - right. exists n. split; [reflexivity|].
          rewrite <- M3; [exact U | apply in_or_app; simpl; auto]. }
      exists (pre' ++ [p]), b, post'.
      split; [|split; [|split; [|split; [|split; [|split; [|split; [|split]]]]]]].
      * apply alloc_inv_shape. split; [exact R1|].
        apply nofree2_app_cons. split; [|exact R2].
        apply nofree2_snoc_after_used.
        -- eapply nofree2_frame; [|apply (nofree2_app_l _ _ _ Hn1)].
           exact Fl.
        -- right. exists pre', p. split; [reflexivity|].
           rewrite Fl; [exact Hp | apply in_or_app; simpl; auto].
      * intros y Hy. apply in_app_or in Hy. apply in_or_app.
        destruct Hy as [Hy | [<- | Hy]]; simpl; auto.
      * rewrite R3; [lia | apply in_or_app; simpl; auto].
      * lia.
      * rewrite (M6 b) in R5 by (apply in_or_app; simpl; auto).
        unfold HDR. lia.
      * eapply only_headers_trans; [exact M5 | exact R6].
      * congruence.
      * left. split; [reflexivity|]. split; [reflexivity|].
        right. exists pre', p. auto.
      * exact R8'.
    + (* the left neighbour is free: [b] is merged into it *)
      pose proof (nofree2_app_l _ _ _ Hn1) as Hn1'. clear Hn1.
      rewrite <- app_assoc in *. cbn [app] in *.
      pose proof (merge_absorb_shape st pre' p b post Hs Hp) as A.
      cbv zeta in A. revert A. generalize (lfree_left_merge st b).
      intros st1 (A1 & A2 & A3 & A4 & A5 & A6 & A7).
      rewrite A3.
      assert (Hn3' : nofree2 (mem st1) post).
      { eapply nofree2_frame; [|exact Hn3]. intros y Hy. apply A2.
        apply in_or_app. simpl. auto. }
      assert (Hp1 : get_isfree (mem st1) p <> 0).
      { rewrite A2; [exact Hp | apply in_or_app; simpl; auto]. }
      pose proof (lfree_right_merge st1 pre' p post (get_next (mem st) b) A1
                    Hp1 Hn3' Enext) as R.
      cbv zeta in R. revert R.
      generalize (if negb (get_next (mem st) b =? NULL)
                     && negb (get_isfree (mem st1) (get_next (mem st) b) =? 0)
                  then lfree_left_merge st1 (get_next (mem st) b) else st1).
      intros st2 (post' & R1 & R2 & R3 & R4 & R5 & R6 & R7 & R8).
      assert (Fl : forall y, In y (pre' ++ [p]) ->
                get_isfree (mem st2) y = get_isfree (mem st) y).
      { intros y Hy. rewrite R3 by exact Hy.
        apply A2. apply in_app_or in Hy. apply in_or_app. simpl in *. tauto. }
      destruct (Bpre p) as (_ & Sp & Hpb); [apply in_or_app; simpl; auto|].
      assert (Epb : b = p + HDR * get_size (mem st) p).
      { apply contig_app in Cpre. destruct Cpre as (mid & _ & C2).
        simpl in C2. destruct C2 as (-> & _ & C2). symmetry. exact C2. }
      assert (R8' : (post' = post /\ used_next (mem st) post)
                    \/ (exists n, post = n :: post'
                                  /\ get_isfree (mem st) n <> 0)).
      { destruct R8 as [[-> U] | (n & -> & U)].
        - left. split; [reflexivity|].
          destruct post as [|n post]; simpl in *; [exact I|].
          rewrite <- A2; [exact U | apply in_or_app; simpl; auto].
        - right. exists n. split; [reflexivity|].
          rewrite <- A2; [exact U | apply in_or_app; simpl; auto]. }
      exists pre', p, post'.
      split; [|split; [|split; [|split; [|split; [|split; [|split; [|split]]]]]]].
      * apply alloc_inv_shape. split; [exact R1|].
        apply nofree2_app_cons. split; [|exact R2].
        eapply nofree2_frame; [|exact Hn1']. exact Fl.
      * intros y Hy. apply in_app_or in Hy. apply in_or_app.
        destruct Hy as [Hy | [<- | Hy]]; simpl; auto.
      * rewrite R3; [exact Hp1 | apply in_or_app; simpl; auto].
      * unfold HDR in *. lia.
      * rewrite A5 in R5. unfold HDR in *. lia.
      * eapply only_headers_trans.
        -- eapply only_headers_incl; [|exact A4].
           intros y Hy. apply in_app_or in Hy. apply in_or_app.
           simpl in *. tauto.
        -- eapply only_headers_incl; [|exact R6].
           intros y Hy. apply in_app_or in Hy. apply in_or_app.
           simpl in *. tauto.
      * congruence.
      * right. auto.
      * exact R8'.
Qed.

(** ** Releasing and resizing a mapping *)

Lemma maps_disjoint_In l : forall r s,
  maps_disjoint l -> In r l -> In s l -> r = s \/ apart r s.
Proof.
  induction l as [|x l IH]; intros r s Hd Hr Hs; [contradiction|].
  simpl in Hd. destruct Hd as [Hx Hd]. rewrite Forall_forall in Hx.
  destruct Hr as [<- | Hr]; destruct Hs as [<- | Hs]; auto.
  right. specialize (Hx r Hr). unfold apart in *. lia.
Qed.

Lemma maps_disjoint_filter f l :
  maps_disjoint l -> maps_disjoint (filter f l).
Proof.
  induction l as [|x l IH]; simpl; [auto|].
  intros [Hx Hd]. destruct (f x); simpl; [|apply IH; exact Hd].
  split; [|apply IH; exact Hd].
  rewrite Forall_forall in *. intros r Hr. apply filter_In in Hr.
  apply Hx. tauto.
Qed.

Lemma Forall_filter {A} (P : A -> Prop) f l :
  Forall P l -> Forall P (filter f l).
Proof.
  rewrite !Forall_forall. intros H x Hx. apply filter_In in Hx.
  apply H. tauto.
Qed.

Lemma region_eqb_eq r s : region_eqb r s = true <-> r = s.
Proof.
  unfold region_eqb. rewrite andb_true_iff, !Z.eqb_eq.
  destruct r, s; simpl. split; [intros [-> ->]; reflexivity|].
  intros E. inversion E. auto.
Qed.

(** Unmapping exactly one live mapping removes it and nothing else. *)
Lemma munmap_exact l a L :
  maps_disjoint l -> Forall (fun r => 0 < snd r) l -> In (a, L) l ->
  flat_map (unmap_range a L) l
  = filter (fun r => negb (region_eqb (a, L) r)) l.
Proof.
  intros Hd Hp Hin.
  assert (H : forall r, In r l -> r = (a, L) \/ apart r (a, L)).
  { intros r Hr. apply maps_disjoint_In with (l := l); assumption. }
  assert (HL : 0 < L).
  { rewrite Forall_forall in Hp. apply (Hp (a, L) Hin). }
  clear Hd Hin. induction l as [|x l IH]; [reflexivity|].
  inversion Hp as [|? ? Hx Hp']; subst.
  cbn [flat_map filter]. rewrite IH; [|exact Hp'|intros r Hr; apply H; simpl; auto].
  destruct (H x (or_introl eq_refl)) as [-> | Ha].
  - assert (E : region_eqb (a, L) (a, L) = true) by (apply region_eqb_eq; reflexivity).
    rewrite E. cbn [negb]. unfold unmap_range, disjoint.
    assert (E1 : (a + L <=? a) = false) by (apply Z.leb_gt; lia).
    rewrite E1. cbn [orb]. rewrite !Z.ltb_irrefl. reflexivity.
  - destruct x as [a' L']. unfold apart in Ha. simpl in Ha, Hx.
    assert (E : region_eqb (a, L) (a', L') = false).
    { destruct (region_eqb (a, L) (a', L')) eqn:E; [|reflexivity].
      apply region_eqb_eq in E. inversion E. lia. }
    rewrite E. cbn [negb]. unfold unmap_range, disjoint.
    assert (E1 : (a' + L' <=? a) || (a + L <=? a') = true).
    { apply orb_true_iff. rewrite !Z.leb_le. lia. }
    rewrite E1. reflexivity.
Qed.

Lemma kernel_ok_filter k f :
  kernel_ok k -> kernel_ok (set_k_maps k (filter f (k_maps k))).
Proof.
  intros [K1 K2 K3 K4]. constructor; cbn [k_base k_brk k_maps set_k_maps].
  - exact K1.
  - exact K2.
  - apply Forall_filter. exact K3.
  - apply maps_disjoint_filter. exact K4.
Qed.

(** [lfree] on the usable pointer of a mapping-resident block. *)
Lemma lfree_mapped_spec st bl a L :
  alloc_inv st bl -> In (a, L) (k_maps (kern st)) ->
  lfree st (a + HDR)
  = set_kern st (sys_munmap (kern st) a (get_size (mem st) a))
  /\ get_size (mem st) a = L
  /\ k_maps (kern (lfree st (a + HDR)))
     = filter (fun r => negb (region_eqb (a, L) r)) (k_maps (kern st))
  /\ alloc_inv (lfree st (a + HDR)) bl.
Proof.
  intros [Hh Hk Hm] Hin.
  pose proof Hk as [K1 K2 K3 K4].
  unfold maps_inv in Hm. rewrite Forall_forall in Hm, K3.
  destruct (Hm _ Hin) as (M1 & M2 & M3 & M4).
  destruct (K3 _ Hin) as (O1 & O2 & O3 & O4).
  cbn [fst snd] in *. unfold MIN_ADDR in O1. rewrite TASK_SIZE_val in O3.
  assert (E : lfree st (a + HDR)
              = set_kern st (sys_munmap (kern st) a (get_size (mem st) a))).
  { unfold lfree.
    assert (E0 : (a + HDR =? NULL) = false)
      by (apply Z.eqb_neq; unfold NULL, HDR; lia).
    assert (E1 : ptr_sub (a + HDR) 1 = a).
    { unfold ptr_sub. replace (a + HDR - HDR * 1) with a by lia.
      apply wrap_small. rewrite WORD_val. lia. }
    rewrite E0, E1, M1, Z.eqb_refl. reflexivity. }
  assert (Em : flat_map (unmap_range a L) (k_maps (kern st))
               = filter (fun r => negb (region_eqb (a, L) r))
                   (k_maps (kern st))).
  { apply munmap_exact; [exact K4 | | exact Hin].
    apply Forall_forall. intros r Hr. destruct (K3 r Hr) as (_ & ? & _).
    assumption. }
  rewrite E, M2. unfold sys_munmap. rewrite Em.
  split; [reflexivity|]. split; [reflexivity|]. split; [reflexivity|].
  constructor; cbn [kern mem set_kern].
  - eapply heap_inv_frame; [exact Hh | reflexivity ..|]. reflexivity.
  - apply kernel_ok_filter. exact Hk.
  - unfold maps_inv. cbn [kern mem set_kern k_maps set_k_maps].
    apply Forall_filter. apply Forall_forall. exact Hm.
Qed.

Lemma lrealloc_mmap_eq st a L len :
  In (a, L) (k_maps (kern st)) -> get_size (mem st) a = L ->
  let L1 := page_round len in
  let rest := filter (fun r => negb (region_eqb (a, L) r)) (k_maps (kern st)) in
  let a1 := k_place (kern st) rest L1 in
  lrealloc_mmap st a len =
  if (0 <? L1) && region_free (kern st) rest a1 L1
  then (mkState (set_size (move_pages (mem st) a L a1 L1) a1 L1)
          (head st) (tail st) (last_break st)
          (set_k_maps (kern st) ((a1, L1) :: rest)),
        a1 + HDR)
  else (st, NULL).
Proof.
  intros Hin Hsz. cbv zeta. unfold lrealloc_mmap, sys_mremap. rewrite Hsz.
  assert (Ex : existsb (region_eqb (a, L)) (k_maps (kern st)) = true).
  { apply existsb_exists. exists (a, L). split; [exact Hin|].
    apply region_eqb_eq. reflexivity. }
  rewrite Ex. cbn [andb].
  destruct (0 <? page_round len) eqn:E1; cbn [andb].
  - destruct (region_free (kern st) _ _ (page_round len)) eqn:E2.
    + apply Z.ltb_lt in E1. apply region_free_spec in E2.
      destruct E2 as (R1 & R2 & _).
      unfold MIN_ADDR in R1. rewrite TASK_SIZE_val in R2.
      match goal with
      | |- context [?x =? MAP_FAILED] =>
        assert (N : (x =? MAP_FAILED) = false)
          by (apply Z.eqb_neq; unfold MAP_FAILED, MINUS1;
              rewrite WORD_val; lia);
        rewrite N
      end.
      rewrite ptr_add_small by (unfold HDR; rewrite WORD_val; lia).
      destruct st; reflexivity.
    + rewrite Z.eqb_refl. destruct st; reflexivity.
  - rewrite Z.eqb_refl. destruct st; reflexivity.
Qed.

Lemma move_pages_out m old old_len a new_len x :
  x < a \/ a + new_len <= x -> move_pages m old old_len a new_len x = m x.
Proof.
  intros H. unfold move_pages.
  destruct (in_range a new_len x) eqn:E; [apply in_range_true in E; lia|].
  reflexivity.
Qed.

Lemma move_pages_in m old old_len a new_len x :
  a <= x < a + new_len -> x - a < old_len ->
  move_pages m old old_len a new_len x = m (old + (x - a)).
Proof.
  intros H1 H2. unfold move_pages.
  destruct (in_range a new_len x) eqn:E; [|apply in_range_false in E; lia].
  apply Z.ltb_lt in H2. rewrite H2. reflexivity.
Qed.

Lemma In_filter_neq (l : list (Z * Z)) r s :
  In s (filter (fun x => negb (region_eqb r x)) l) -> In s l /\ s <> r.
Proof.
  intros H. apply filter_In in H. destruct H as [H1 H2]. split; [exact H1|].
  intros ->. apply negb_true_iff in H2.
  assert (E : region_eqb r r = true) by (apply region_eqb_eq; reflexivity).
  congruence.
Qed.

(** A successful resize of a mapping keeps the invariant, and the block at
    the new base records the new length. *)
Lemma lrealloc_mmap_inv st bl a L len :
  alloc_inv st bl -> In (a, L) (k_maps (kern st)) ->
  let L1 := page_round len in
  let rest := filter (fun r => negb (region_eqb (a, L) r)) (k_maps (kern st)) in
  let a1 := k_place (kern st) rest L1 in
  (0 <? L1) && region_free (kern st) rest a1 L1 = true ->
  let st' := fst (lrealloc_mmap st a len) in
  alloc_inv st' bl
  /\ k_maps (kern st') = (a1, L1) :: rest
  /\ get_size (mem st') a1 = L1
  /\ get_next (mem st') a1 = LMEM_NEXT_MMAP.
Proof.
  intros Hinv Hin L1 rest a1 E st'.
  pose proof Hinv as [Hh Hk Hm].
  pose proof Hk as [K1 K2 K3 K4].
  unfold maps_inv in Hm. rewrite Forall_forall in Hm, K3.
  destruct (Hm _ Hin) as (M1 & M2 & M3 & M4).
  pose proof (lrealloc_mmap_eq st a L len Hin M2) as Eq. cbv zeta in Eq.
  fold L1 in Eq. fold rest in Eq. fold a1 in Eq. rewrite E in Eq.
  subst st'. rewrite Eq. cbn [fst mem kern k_maps set_k_maps].
  apply andb_true_iff in E. destruct E as [E1 E2].
  apply Z.ltb_lt in E1. apply region_free_spec in E2.
  destruct E2 as (R1 & R2 & R3 & R4).
  pose proof (page_round_pos len E1) as PL. fold L1 in PL.
  destruct (page_round_aligned len) as [PR PA]. fold L1 in PR, PA.
  cbn [fst snd] in *.
  unfold MIN_ADDR, LMEM_PAGESIZE, LMEM_MMAP_TRESHOLD, LMEM_NEXT_MMAP in *.
  rewrite TASK_SIZE_val in *.
  assert (Fr : forall x, x < a1 \/ a1 + L1 <= x ->
            set_size (move_pages (mem st) a L a1 L1) a1 L1 x = mem st x).
  { intros x Hx. unfold set_size. rewrite store64_out by lia.
    apply move_pages_out. lia. }
  assert (Enext : get_next (set_size (move_pages (mem st) a L a1 L1) a1 L1) a1
                  = MINUS1).
  { rewrite <- M1. unfold get_next, set_size.
    rewrite load64_store64_other by lia.
    unfold load64.
    rewrite !move_pages_in by lia.
    repeat match goal with
           | |- context [a + (?t - a1)] =>
             replace (a + (t - a1)) with (a + (t - a1 + 0)) by lia
           end.
    replace (a + (a1 + 24 - a1 + 0)) with (a + 24) by lia.
    replace (a + (a1 + 24 + 1 - a1 + 0)) with (a + 24 + 1) by lia.
    replace (a + (a1 + 24 + 2 - a1 + 0)) with (a + 24 + 2) by lia.
    replace (a + (a1 + 24 + 3 - a1 + 0)) with (a + 24 + 3) by lia.
    replace (a + (a1 + 24 + 4 - a1 + 0)) with (a + 24 + 4) by lia.
    replace (a + (a1 + 24 + 5 - a1 + 0)) with (a + 24 + 5) by lia.
    replace (a + (a1 + 24 + 6 - a1 + 0)) with (a + 24 + 6) by lia.
    replace (a + (a1 + 24 + 7 - a1 + 0)) with (a + 24 + 7) by lia.
    reflexivity. }
  assert (Esize : get_size (set_size (move_pages (mem st) a L a1 L1) a1 L1) a1
                  = L1).
  { unfold get_size, set_size. apply load64_store64_same. lia. }
  split; [|split; [reflexivity|split; [exact Esize|exact Enext]]].
  constructor.
  - eapply heap_inv_frame; [exact Hh | reflexivity ..|].
    cbn [mem kern]. intros x Hx. apply Fr. lia.
  - constructor; cbn [kern k_base k_brk k_maps set_k_maps].
    + unfold LMEM_MMAP_TRESHOLD, LMEM_PAGESIZE. exact K1.
    + exact K2.
    + constructor.
      * unfold map_ok, MIN_ADDR. cbn [fst snd k_base k_brk set_k_maps].
        rewrite TASK_SIZE_val. lia.
      * apply Forall_forall. intros r Hr. apply In_filter_neq in Hr.
        apply K3. tauto.
    + cbn [maps_disjoint]. split; [exact R4|].
      apply maps_disjoint_filter. exact K4.
  - unfold maps_inv. cbn [mem kern k_maps set_k_maps]. constructor.
    + unfold mapped_block_ok. cbn [fst snd].
      unfold LMEM_NEXT_MMAP, LMEM_PAGESIZE. auto.
    + apply Forall_forall. intros r Hr.
      rewrite Forall_forall in R4. specialize (R4 r Hr).
      apply In_filter_neq in Hr. destruct Hr as [Hr _].
      eapply mapped_block_frame; [apply Hm; exact Hr|].
      intros x Hx. apply Fr. unfold apart in R4. simpl in R4. lia.
Qed.

(** ** Writing into a granted region *)

Lemma In_map_apart k r s :
  kernel_ok k -> In r (k_maps k) -> In s (k_maps k) -> r = s \/ apart r s.
Proof. intros [_ _ _ K4]. apply maps_disjoint_In. exact K4. Qed.

(** A write that stays inside a usable region leaves every header, and so
    the invariant, alone. *)
Lemma write_payload_inv st bl p len m' :
  alloc_inv st bl -> usable st bl p len ->
  (forall x, x < p \/ p + len <= x -> m' x = mem st x) ->
  alloc_inv (set_mem st m') bl.
Proof.
  intros Hinv Hu Hf.
  pose proof Hinv as [[Hl (lo & Hlo & Hc) Hn Hb] Hk Hm].
  pose proof Hk as [K1 K2 K3 K4].
  destruct Hu as [(b & Hb1 & -> & Hlen) | (a & L & Ha & -> & Hlen)].
  - (* inside a heap block *)
    assert (Hh : forall y off, In y bl -> 0 <= off -> off + 8 <= HDR ->
              load64 m' (y + off) = load64 (mem st) (y + off)).
    { intros y off Hy H0 H8. apply load64_ext. intros x Hx. apply Hf.
      destruct (Z.eq_dec y b) as [-> | Hne].
      - unfold HDR in *. lia.
      - destruct (blocks_disjoint _ _ _ _ y b Hc Hy Hb1 Hne) as [D | D];
        destruct (contig_In _ _ _ _ _ Hc Hy) as (? & ? & ?);
        unfold HDR in *; lia. }
    assert (Hh0 : forall y, In y bl -> load64 m' y = load64 (mem st) y).
    { intros y Hy. replace y with (y + 0) by lia.
      apply Hh; unfold HDR; auto; lia. }
    constructor; [constructor|..]; unfold set_mem; cbn [mem head tail last_break kern].
    + eapply dlseg_frame; [|exact Hl]. intros y Hy.
      unfold get_prev, get_next. split; apply Hh; unfold HDR; auto; lia.
    + exists lo. split; [exact Hlo|]. eapply contig_frame; [|exact Hc].
      intros y Hy. unfold get_size. apply Hh; unfold HDR; auto; lia.
    + eapply nofree2_frame; [|exact Hn]. intros y Hy.
      unfold get_isfree. apply Hh0. exact Hy.
    + exact Hb.
    + exact Hk.
    + eapply maps_inv_frame with (st := st);
        [exact Hk | reflexivity | exact Hm |].
      cbn [mem kern]. intros x Hx. apply Hf.
      destruct (contig_In _ _ _ _ _ Hc Hb1) as (? & ? & ?).
      unfold HDR in *. lia.
  - (* inside a mapping *)
    rewrite Forall_forall in K3. destruct (K3 _ Ha) as (O1 & O2 & O3 & O4).
    cbn [fst snd] in *.
    constructor.
    + eapply heap_inv_frame; [constructor; eauto | reflexivity ..|].
      cbn [mem set_mem]. intros x Hx. apply Hf. unfold HDR in *. lia.
    + exact Hk.
    + unfold maps_inv in *. cbn [mem kern set_mem].
      rewrite Forall_forall in *. intros r Hr.
      destruct (In_map_apart _ _ _ Hk Hr Ha) as [-> | Hap].
      * destruct (Hm _ Ha) as (M1 & M2 & M3 & M4).
        unfold mapped_block_ok, get_next, get_size in *. cbn [fst snd] in *.
        rewrite !(load64_ext (mem st) m')
          by (intros x Hx; apply Hf; unfold HDR; lia).
        auto.
      * eapply mapped_block_frame; [apply Hm; exact Hr|].
        intros x Hx. apply Hf. unfold apart in Hap. cbn [fst snd] in Hap.
        unfold HDR in *. lia.
Qed.

(** ** The public operations keep the invariant *)

Lemma heap_block_facts st bl b :
  alloc_inv st bl -> In b bl ->
  0 <= b /\ 0 < b + HDR < WORD
  /\ get_next (mem st) b <> LMEM_NEXT_MMAP
  /\ exists pre post, bl = pre ++ b :: post.
Proof.
  intros [[Hl (lo & Hlo & Hc) Hn Hb] Hk Hm] Hin.
  pose proof Hk as [K1 K2 _ _].
  unfold LMEM_MMAP_TRESHOLD, LMEM_PAGESIZE in K1. rewrite TASK_SIZE_val in K2.
  destruct (in_split _ _ Hin) as (pre & post & ->).
  destruct (contig_split _ _ _ _ _ _ Hc)
    as (Cpre & Sb & Cpost & Lb & Ub & Bpre & Bpost).
  pose proof (dlseg_next _ _ _ _ _ _ _ Hl) as Enext.
  unfold HDR in *. rewrite WORD_val.
  split; [lia|]. split; [lia|]. split; [|eauto].
  rewrite Enext. unfold LMEM_NEXT_MMAP, MINUS1, NULL. rewrite WORD_val.
  destruct post as [|n post]; [lia|].
  destruct (Bpost n (or_introl eq_refl)) as (? & ? & ?). lia.
Qed.

Lemma lfree_spec st bl addr :
  alloc_inv st bl -> valid_ptr st bl addr ->
  exists bl', alloc_inv (lfree st addr) bl' /\ incl bl' bl.
Proof.
  intros Hinv [-> | [(b & Hb & ->) | (a & L & Ha & ->)]].
  - exists bl. split; [exact Hinv | apply incl_refl].
  - destruct (heap_block_facts st bl b Hinv Hb) as (_ & _ & _ & pre & post & ->).
    destruct (lfree_heap_spec st pre b post Hinv)
      as (pre' & c & post' & H1 & H2 & _).
    eauto.
  - destruct (lfree_mapped_spec st bl a L Hinv Ha) as (_ & _ & _ & H).
    exists bl. split; [exact H | apply incl_refl].
Qed.

(** *** What a release leaves alone *)

(** A merge step changes the flag of no other listed block and the size of
    no other block in use. *)
Lemma merge_others st pre x post :
  shape_inv st (pre ++ x :: post) ->
  let st' := lfree_left_merge st x in
  forall y, In y (pre ++ post) ->
    get_isfree (mem st') y = get_isfree (mem st) y
    /\ (get_isfree (mem st) y = 0 ->
        get_size (mem st') y = get_size (mem st) y).
Proof.
  intros Hs. cbv zeta.
  pose proof Hs as (Hl & _).
  destruct (dlseg_prev _ _ _ _ _ _ _ Hl)
    as [[-> Eprev] | (pre' & p & -> & Eprev)].
  - pose proof (merge_mark_shape st [] x post Hs (or_introl Eprev)) as M.
    cbv zeta in M. destruct M as (_ & _ & M3 & _ & _ & M6 & _).
    intros y Hy. split; [apply M3; exact Hy|].
    intros _. apply M6. simpl in *. auto.
  - destruct (Z.eq_dec (get_isfree (mem st) p) 0) as [Hp | Hp].
    + pose proof (merge_mark_shape st (pre' ++ [p]) x post Hs
                    ltac:(right; rewrite Eprev; exact Hp)) as M.
      cbv zeta in M. destruct M as (_ & _ & M3 & _ & _ & M6 & _).
      intros y Hy. split; [apply M3; exact Hy|].
      intros _. apply M6. apply in_app_or in Hy. apply in_or_app.
      simpl. tauto.
    + rewrite <- app_assoc in Hs. cbn [app] in Hs.
      pose proof (merge_absorb_shape st pre' p x post Hs Hp) as A.
      cbv zeta in A. destruct A as (_ & A2 & _ & _ & _ & A6 & _).
      intros y Hy. rewrite <- app_assoc in Hy. cbn [app] in Hy.
      split.
      * apply A2. apply in_app_or in Hy. apply in_or_app. simpl in *. tauto.
      * intros Hy0. apply A6. apply in_app_or in Hy. apply in_or_app.
        destruct Hy as [Hy | [<- | Hy]]; [auto | contradiction | auto].
Qed.

(** Releasing the heap block [b] changes the flag of no other listed
    block and the size of no other block in use. *)
Lemma lfree_heap_others st pre b post :
  alloc_inv st (pre ++ b :: post) ->
  forall y, In y (pre ++ post) ->
    get_isfree (mem (lfree st (b + HDR))) y = get_isfree (mem st) y
    /\ (get_isfree (mem st) y = 0 ->
        get_size (mem (lfree st (b + HDR))) y = get_size (mem st) y).
Proof.
  intros Hinv y Hy.
  destruct (heap_block_facts st _ b Hinv) as (B0 & B1 & B2 & _).
  { apply in_or_app. simpl. auto. }
  rewrite (lfree_heap_eq st b B1 B0 B2). cbv zeta.
  apply alloc_inv_shape in Hinv. destruct Hinv as [Hs Hn].
  pose proof Hs as (Hl & (lo & Hlo & Hc) & _ & Hk & _).
  pose proof Hk as [K1 K2 _ _].
  unfold LMEM_MMAP_TRESHOLD, LMEM_PAGESIZE in K1.
  pose proof (dlseg_next _ _ _ _ _ _ _ Hl) as Enext.
  destruct (merge_others st pre b post Hs y Hy) as [F1 F2].
  (* the state after the first step, and the list it is in *)
  assert (S1 : exists pre1 c,
             shape_inv (lfree_left_merge st b) (pre1 ++ c :: post)
             /\ get_next (mem (lfree_left_merge st b)) b
                = get_next (mem st) b
             /\ get_isfree (mem (lfree_left_merge st b)) c <> 0
             /\ (In y pre -> In y (pre1 ++ [c]))).
  { destruct (dlseg_prev _ _ _ _ _ _ _ Hl)
      as [[-> Eprev] | (pre' & p & -> & Eprev)].
    - pose proof (merge_mark_shape st [] b post Hs (or_introl Eprev)) as M.
      cbv zeta in M. destruct M as (M1 & M2 & _ & M4 & _).
      exists [], b. split; [exact M1|]. split; [exact M4|].
      split; [lia | intros []].
    - destruct (Z.eq_dec (get_isfree (mem st) p) 0) as [Hp | Hp].
      + pose proof (merge_mark_shape st (pre' ++ [p]) b post Hs
                      ltac:(right; rewrite Eprev; exact Hp)) as M.
        cbv zeta in M. destruct M as (M1 & M2 & _ & M4 & _).
        exists (pre' ++ [p]), b. split; [exact M1|]. split; [exact M4|].
        split; [lia|]. intros H. apply in_or_app. auto.
      + pose proof Hs as Hs'. rewrite <- app_assoc in Hs'. cbn [app] in Hs'.
        pose proof (merge_absorb_shape st pre' p b post Hs' Hp) as A.
        cbv zeta in A. destruct A as (A1 & A2 & A3 & _).
        exists pre', p. split; [exact A1|]. split; [exact A3|].
        split; [|auto].
        rewrite A2; [exact Hp | apply in_or_app; simpl; auto]. }
  destruct S1 as (pre1 & c & Hs1 & En1 & Hc1 & Hpre1).
  revert Hs1 En1 Hc1 F1 F2. generalize (lfree_left_merge st b).
  intros st1 Hs1 En1 Hc1 F1 F2. rewrite En1, Enext.
  destruct post as [|n post2].
  - rewrite Z.eqb_refl. cbn [negb andb]. auto.
  - assert (Nn : (n =? NULL) = false).
    { apply Z.eqb_neq.
      destruct (contig_In _ _ _ _ n Hc) as (? & _).
      { apply in_or_app. simpl. auto. }
      unfold NULL. lia. }
    rewrite Nn. cbn [negb andb].
    destruct (get_isfree (mem st1) n =? 0) eqn:Ef; cbn [negb]; [auto|].
    apply Z.eqb_neq in Ef.
    pose proof (merge_absorb_shape st1 pre1 c n post2 Hs1 Hc1) as A.
    cbv zeta in A. destruct A as (_ & A2 & _ & _ & _ & A6 & _).
    assert (Hy1 : In y (pre1 ++ c :: n :: post2)).
    { apply in_app_or in Hy. destruct Hy as [Hy | Hy].
      - specialize (Hpre1 Hy). apply in_app_or in Hpre1. apply in_or_app.
        simpl in *. tauto.
      - apply in_or_app. simpl in *. tauto. }
    split; [rewrite (A2 y Hy1); exact F1|].
    intros Hy0. rewrite <- (F2 Hy0). apply A6.
    rewrite <- F1 in Hy0.
    apply in_app_or in Hy1. apply in_or_app.
    destruct Hy1 as [Hy1 | [<- | [<- | Hy1]]];
      [auto | contradiction | contradiction | auto].
Qed.

(** [lfree_heap_spec], together with what becomes of the other blocks in
    use: they stay listed, in use and of the same size. *)
Lemma lfree_heap_keeps st pre b post :
  alloc_inv st (pre ++ b :: post) ->
  let st' := lfree st (b + HDR) in
  exists bl' c,
    alloc_inv st' bl'
    /\ In c bl'
    /\ get_isfree (mem st') c <> 0
    /\ c <= b
    /\ b + HDR * get_size (mem st) b <= c + HDR * get_size (mem st') c
    /\ only_headers (pre ++ b :: post) (mem st) (mem st')
    /\ kern st' = kern st
    /\ (forall y, In y (pre ++ post) -> get_isfree (mem st) y = 0 ->
          In y bl'
          /\ get_isfree (mem st') y = 0
          /\ get_size (mem st') y = get_size (mem st) y).
Proof.
  intros Hinv. cbv zeta.
  pose proof (lfree_heap_others st pre b post Hinv) as O.
  destruct (lfree_heap_spec st pre b post Hinv)
    as (pre' & c & post' & H1 & H2 & H3 & H4 & H5 & H6 & H7 & H8 & H9).
  exists (pre' ++ c :: post'), c.
  split; [exact H1|]. split; [apply in_or_app; simpl; auto|].
  split; [exact H3|]. split; [exact H4|]. split; [exact H5|].
  split; [exact H6|]. split; [exact H7|].
  intros y Hy Hy0. destruct (O y Hy) as [O1 O2].
  rewrite Hy0 in O1. split; [|split; [exact O1 | exact (O2 Hy0)]].
  apply in_app_or in Hy. apply in_or_app. destruct Hy as [Hy | Hy].
  - destruct H8 as [(-> & _) | (-> & Hc0)]; [auto|].
    apply in_app_or in Hy. destruct Hy as [Hy | [<- | []]]; [auto|].
    contradiction.
  - right. right.
    destruct H9 as [(-> & _) | (n & -> & Hn0)]; [auto|].
    destruct Hy as [<- | Hy]; [contradiction | auto].
Qed.

(** *** Mapped ranges *)

Lemma covered_done fuel rs p e : e <= p -> covered fuel rs p e = true.
Proof.
  intros H. apply Z.leb_le in H. destruct fuel; simpl; rewrite H; reflexivity.
Qed.

(** [covered] answers for every byte of the range. *)
Lemma covered_sound rs : forall fuel p e,
  covered fuel rs p e = true ->
  forall x, p <= x < e ->
    exists r, In r rs /\ in_range (fst r) (snd r) x = true.
Proof.
  induction fuel as [|fuel IH]; intros p e H x Hx; simpl in H.
  - destruct (e <=? p) eqn:E; [apply Z.leb_le in E; lia | discriminate].
  - destruct (e <=? p) eqn:E; [apply Z.leb_le in E; lia|].
    destruct (find (fun r => in_range (fst r) (snd r) p) rs) as [r|] eqn:F;
      [|discriminate].
    apply find_some in F. destruct F as [F1 F2].
    apply in_range_true in F2.
    destruct (Z_lt_dec x (fst r + snd r)) as [Hlt | Hge].
    + exists r. split; [exact F1|]. apply in_range_true. lia.
    + apply (IH _ _ H). lia.
Qed.

Lemma page_up_bounds x : x <= page_up x < x + LMEM_PAGESIZE.
Proof.
  unfold page_up, LMEM_PAGESIZE.
  pose proof (Z.div_mod (x + 4096 - 1) 4096 ltac:(lia)) as D.
  pose proof (Z.mod_pos_bound (x + 4096 - 1) 4096 ltac:(lia)) as M.
  lia.
Qed.

Lemma page_up_task x : x <= TASK_SIZE -> page_up x <= TASK_SIZE.
Proof.
  intros H. rewrite TASK_SIZE_val in *. unfold page_up, LMEM_PAGESIZE.
  pose proof (Z.div_mod (x + 4096 - 1) 4096 ltac:(lia)) as D.
  pose proof (Z.mod_pos_bound (x + 4096 - 1) 4096 ltac:(lia)) as M.
  assert (Q : (x + 4096 - 1) / 4096 <= 34359738368).
  { replace 34359738368 with ((140737488355328 + 4095) / 4096) by reflexivity.
    apply Z.div_le_mono; lia. }
  lia.
Qed.

Lemma filter_length_lt {A} (f g : A -> bool) (l : list A) (r : A) :
  (forall x, g x = true -> f x = true) ->
  In r l -> f r = true -> g r = false ->
  (length (filter g l) < length (filter f l))%nat.
Proof.
  intros Hgf Hin Hf Hg.
  assert (Le : forall l', (length (filter g l') <= length (filter f l'))%nat).
  { induction l' as [|x l' IH]; simpl; [lia|].
    destruct (g x) eqn:G.
    - rewrite (Hgf _ G). simpl. lia.
    - destruct (f x); simpl; lia. }
  induction l as [|x l IH]; simpl in *; [contradiction|].
  destruct Hin as [-> | Hin].
  - rewrite Hf, Hg. simpl. pose proof (Le l). lia.
  - specialize (IH Hin). destruct (g x) eqn:G.
    + rewrite (Hgf _ G). simpl. lia.
    + destruct (f x); simpl; lia.
Qed.

(** A range inside one of the ranges [rs] is covered, whatever other
    ranges lie over it. *)
Lemma covered_complete rs a L e :
  In (a, L) rs -> e <= a + L ->
  forall fuel p,
    a <= p ->
    (length (filter (fun r => (p <? fst r + snd r)%Z) rs) <= fuel)%nat ->
    covered fuel rs p e = true.
Proof.
  intros Hin He. induction fuel as [|fuel IH]; intros p Hp Hf.
  - apply covered_done.
    destruct (Z_le_dec e p) as [|Hlt]; [assumption|]. exfalso.
    assert (Hl : (length (filter (fun r => (0 <? 0)%Z) rs)
                  < length (filter (fun r => (p <? fst r + snd r)%Z) rs))%nat).
    { apply (filter_length_lt _ _ rs (a, L)); [discriminate | exact Hin | |].
      - cbn [fst snd]. apply Z.ltb_lt. lia.
      - reflexivity. }
    lia.
  - cbn [covered]. destruct (e <=? p) eqn:E; [reflexivity|].
    apply Z.leb_gt in E.
    destruct (find (fun r => in_range (fst r) (snd r) p) rs) as [r|] eqn:F.
    + apply find_some in F. destruct F as [F1 F2].
      apply in_range_true in F2. apply IH; [lia|].
      assert (Hl : (length (filter (fun s => (fst r + snd r <? fst s + snd s)%Z)
                              rs)
                    < length (filter (fun s => (p <? fst s + snd s)%Z) rs))%nat).
      { apply (filter_length_lt _ _ rs r).
        - intros s Hs. apply Z.ltb_lt in Hs. apply Z.ltb_lt. lia.
        - exact F1.
        - apply Z.ltb_lt. lia.
        - apply Z.ltb_irrefl. }
      lia.
    + exfalso. pose proof (find_none _ _ F _ Hin) as N. cbn [fst snd] in N.
      apply in_range_false in N. lia.
Qed.

(** A range inside the heap pages or inside one mapping is mapped. *)
Lemma mapped_range_in k a L p n :
  In (a, L) (regions k) -> a <= p -> p + n <= a + L ->
  mapped_range k p n = true.
Proof.
  intros Hin Hp Hn. unfold mapped_range.
  apply (covered_complete _ a L); [exact Hin | exact Hn | exact Hp |].
  pose proof (filter_length_le (fun r => p <? fst r + snd r) (regions k)).
  lia.
Qed.

(** A mapped range lies in the user address space. *)
Lemma mapped_range_bound k p n :
  kernel_ok k -> mapped_range k p n = true -> 0 < n ->
  0 < p /\ p + n <= TASK_SIZE.
Proof.
  intros Hk H Hn. pose proof Hk as [K1 K2 K3 _].
  unfold LMEM_MMAP_TRESHOLD, LMEM_PAGESIZE in K1.
  rewrite Forall_forall in K3.
  pose proof (page_up_task (k_brk k) ltac:(lia)) as Hu.
  assert (B : forall x, p <= x < p + n -> 0 < x < TASK_SIZE).
  { intros x Hx.
    destruct (covered_sound _ _ _ _ H x Hx) as (r & Hr & Hin).
    apply in_range_true in Hin. unfold regions in Hr.
    destruct Hr as [<- | Hr]; cbn [fst snd] in *.
    - lia.
    - destruct (K3 _ Hr) as (M1 & M2 & M3 & _). unfold MIN_ADDR in M1. lia. }
  pose proof (B p ltac:(lia)). pose proof (B (p + n - 1) ltac:(lia)). lia.
Qed.

(** The bytes the allocator handed out are mapped. *)
Lemma usable_mapped st bl p len :
  alloc_inv st bl -> usable st bl p len ->
  mapped_range (kern st) p len = true.
Proof.
  intros [[_ (lo & Hlo & Hc) _ _] Hk _]
         [(b & Hb & -> & Hlen) | (a & L & Ha & -> & Hlen)].
  - destruct (contig_In _ _ _ _ _ Hc Hb) as (B1 & B2 & B3).
    pose proof (page_up_bounds (k_brk (kern st))) as Hu.
    apply (mapped_range_in _ (k_base (kern st))
             (page_up (k_brk (kern st)) - k_base (kern st))).
    + unfold regions. simpl. auto.
    + unfold HDR. lia.
    + unfold HDR in *. lia.
  - apply (mapped_range_in _ a L).
    + unfold regions. simpl. auto.
    + unfold HDR. lia.
    + lia.
Qed.

Lemma lcalloc_spec st bl nlen len fuel :
  alloc_inv st bl -> no_overflow (wrap (nlen * len)) ->
  (length bl < fuel)%nat ->
  exists st' r bl',
    lcalloc fuel st nlen len = Some (Done (st', r)) /\ alloc_inv st' bl'.
Proof.
  intros Hinv Hov Hfuel. unfold lcalloc.
  pose proof (wrap_range (nlen * len)) as Hr.
  destruct (lmalloc_spec st bl (wrap (nlen * len)) fuel Hinv Hr Hfuel)
    as (st1 & r & bl1 & E & P1 & P2 & P3 & P4).
  rewrite E. destruct (r =? NULL) eqn:Er; cbn [negb].
  - eauto.
  - apply Z.eqb_neq in Er. destruct (P4 Er Hov) as [U _].
    unfold memset. rewrite (usable_mapped st1 bl1 _ _ P1 U).
    exists (set_mem st1 (fill_bytes (mem st1) r 0 (wrap (nlen * len)))), r, bl1.
    split; [reflexivity|].
    eapply write_payload_inv; [exact P1 | exact U |].
    intros x Hx. apply fill_bytes_out. exact Hx.
Qed.

Lemma lrealloc_heap_eq fuel st b len :
  0 <= b -> 0 < b + HDR < WORD ->
  get_next (mem st) b <> LMEM_NEXT_MMAP ->
  lrealloc fuel st (b + HDR) len =
  match lmalloc fuel st len with
  | None => None
  | Some (st1, newblock) =>
    if newblock =? NULL then Some (Done (st1, NULL))
    else
      match memcpy (kern st1) (mem st1) newblock (b + HDR) len with
      | Some m => Some (Done (lfree (set_mem st1 m) (b + HDR), newblock))
      | None => Some Killed
      end
  end.
Proof.
  intros Hb0 Hb Hn. unfold lrealloc.
  assert (E0 : (b + HDR =? NULL) = false)
    by (apply Z.eqb_neq; unfold NULL; lia).
  assert (E1 : ptr_sub (b + HDR) 1 = b).
  { unfold ptr_sub. replace (b + HDR - HDR * 1) with b by lia.
    apply wrap_small. unfold HDR in *. lia. }
  rewrite E0, E1.
  assert (E2 : (get_next (mem st) b =? LMEM_NEXT_MMAP) = false)
    by (apply Z.eqb_neq; exact Hn).
  rewrite E2. reflexivity.
Qed.

Lemma lrealloc_mapped_eq fuel st bl a L len :
  alloc_inv st bl -> In (a, L) (k_maps (kern st)) ->
  lrealloc fuel st (a + HDR) len = Some (Done (lrealloc_mmap st a len)).
Proof.
  intros [Hh Hk Hm] Hin.
  pose proof Hk as [K1 K2 K3 K4].
  unfold maps_inv in Hm. rewrite Forall_forall in Hm, K3.
  destruct (Hm _ Hin) as (M1 & M2 & M3 & M4).
  destruct (K3 _ Hin) as (O1 & O2 & O3 & O4).
  cbn [fst snd] in *. unfold MIN_ADDR in O1. rewrite TASK_SIZE_val in O3.
  unfold lrealloc.
  assert (E0 : (a + HDR =? NULL) = false)
    by (apply Z.eqb_neq; unfold NULL, HDR; lia).
  assert (E1 : ptr_sub (a + HDR) 1 = a).
  { unfold ptr_sub. replace (a + HDR - HDR * 1) with a by lia.
    apply wrap_small. rewrite WORD_val. lia. }
  rewrite E0, E1, M1, Z.eqb_refl. reflexivity.
Qed.

(** The copy of [lrealloc] is defined when the new length is within the
    payload of the old block. *)
Lemma lrealloc_copy_mapped st bl b len st1 r bl1 :
  alloc_inv st bl -> In b bl -> get_isfree (mem st) b = 0 ->
  0 <= len <= HDR * (get_size (mem st) b - 1) ->
  lmalloc_post st bl len st1 r bl1 -> r <> NULL ->
  memcpy (kern st1) (mem st1) r (b + HDR) len
  = Some (copy_bytes (mem st1) r (b + HDR) len).
Proof.
  intros Hinv Hb Hused Hlen (P1 & P2 & P3 & P4) Hr.
  pose proof Hinv as [[_ (lo & Hlo & Hc) _ _] Hk _].
  pose proof Hk as [K1 K2 _ _]. rewrite TASK_SIZE_val in K2.
  unfold LMEM_MMAP_TRESHOLD, LMEM_PAGESIZE in K1.
  destruct (contig_In _ _ _ _ _ Hc Hb) as (Lb & Sb & Ub).
  assert (Hov : len + HDR + LMEM_PAGESIZE - 1 < WORD).
  { unfold HDR, LMEM_PAGESIZE in *. rewrite WORD_val. lia. }
  destruct (P4 Hr Hov) as [U _].
  destruct (P3 b Hb Hused) as (_ & F2 & _).
  unfold memcpy.
  rewrite (usable_mapped st1 bl1 _ _ P1 U).
  rewrite (usable_mapped st1 bl1 (b + HDR) len P1); [reflexivity|].
  left. exists b. split; [apply P2; exact Hb|]. split; [reflexivity|].
  rewrite F2. lia.
Qed.

(** [lrealloc] returns and keeps the invariant, or the copy touches
    unmapped memory; the latter only for a heap block that is not in use
    or is smaller than the new length, and only by reading: [lmalloc] has
    returned a block, and the bytes from the old pointer on are not all
    mapped. *)
Lemma lrealloc_spec st bl addr len fuel :
  alloc_inv st bl -> valid_ptr st bl addr ->
  0 <= len < WORD -> no_overflow len -> (length bl < fuel)%nat ->
  (exists st' r bl',
      lrealloc fuel st addr len = Some (Done (st', r)) /\ alloc_inv st' bl')
  \/ (lrealloc fuel st addr len = Some Killed
      /\ exists b, In b bl /\ addr = b + HDR
                   /\ (get_isfree (mem st) b <> 0
                       \/ HDR * (get_size (mem st) b - 1) < len)
                   /\ exists st1 r,
                        lmalloc fuel st len = Some (st1, r) /\ r <> NULL
                        /\ mapped_range (kern st1) addr len = false).
Proof.
  intros Hinv Hv Hlen Hov Hfuel.
  destruct Hv as [-> | [(b & Hb & ->) | (a & L & Ha & ->)]].
  - (* null: plain allocation *)
    left. unfold lrealloc. cbn [NULL]. rewrite Z.eqb_refl.
    destruct (lmalloc_spec st bl len fuel Hinv Hlen Hfuel)
      as (st1 & r & bl1 & E & P1 & _).
    rewrite E. cbn [option_map]. eauto.
  - (* heap block: allocate, copy, release *)
    destruct (heap_block_facts st bl b Hinv Hb) as (B0 & B1 & B2 & _).
    rewrite (lrealloc_heap_eq fuel st b len B0 B1 B2).
    destruct (lmalloc_spec st bl len fuel Hinv Hlen Hfuel)
      as (st1 & r & bl1 & E & P).
    pose proof P as (P1 & P2 & P3 & P4).
    rewrite E. destruct (r =? NULL) eqn:Er.
    + left. eauto.
    + apply Z.eqb_neq in Er. destruct (P4 Er Hov) as [U _].
      destruct (memcpy (kern st1) (mem st1) r (b + HDR) len) as [m2|] eqn:Em.
      * left. unfold memcpy in Em.
        destruct (mapped_range (kern st1) r len
                  && mapped_range (kern st1) (b + HDR) len);
          [|discriminate].
        injection Em as <-.
        assert (I2 : alloc_inv
                  (set_mem st1 (copy_bytes (mem st1) r (b + HDR) len)) bl1).
        { eapply write_payload_inv; [exact P1 | exact U |].
          intros x Hx. apply copy_bytes_out. exact Hx. }
        revert I2.
        generalize (set_mem st1 (copy_bytes (mem st1) r (b + HDR) len)).
        intros st2 I2.
        destruct (lfree_spec st2 bl1 (b + HDR) I2) as (bl2 & I3 & _).
        { right. left. exists b. split; [apply P2; exact Hb | reflexivity]. }
        eauto.
      * right. split; [reflexivity|]. exists b.
        split; [exact Hb|]. split; [reflexivity|]. split.
        -- destruct (Z.eq_dec (get_isfree (mem st) b) 0) as [Hu | Hu];
             [|left; exact Hu].
           destruct (Z_lt_dec (HDR * (get_size (mem st) b - 1)) len)
             as [Hl | Hl]; [right; exact Hl|].
           exfalso.
           rewrite (lrealloc_copy_mapped st bl b len st1 r bl1 Hinv Hb Hu
                      ltac:(lia) P Er) in Em.
           discriminate.
        -- exists st1, r. split; [reflexivity|]. split; [exact Er|].
           unfold memcpy in Em.
           rewrite (usable_mapped st1 bl1 _ _ P1 U) in Em.
           destruct (mapped_range (kern st1) (b + HDR) len);
             [discriminate | reflexivity].
  - (* mapping: resized by the kernel *)
    left. rewrite (lrealloc_mapped_eq fuel st bl a L len Hinv Ha).
    destruct ((0 <? page_round len)
              && region_free (kern st)
                   (filter (fun r => negb (region_eqb (a, L) r))
                      (k_maps (kern st)))
                   (k_place (kern st)
                      (filter (fun r => negb (region_eqb (a, L) r))
                         (k_maps (kern st))) (page_round len))
                   (page_round len)) eqn:E.
    + destruct (lrealloc_mmap_inv st bl a L len Hinv Ha E) as (I & _).
      exists (fst (lrealloc_mmap st a len)), (snd (lrealloc_mmap st a len)), bl.
      split; [rewrite <- surjective_pairing; reflexivity | exact I].
    + pose proof Hinv as [_ _ Hm].
      unfold maps_inv in Hm. rewrite Forall_forall in Hm.
      destruct (Hm _ Ha) as (_ & M2 & _). cbn [fst snd] in M2.
      pose proof (lrealloc_mmap_eq st a L len Ha M2) as Eq.
      cbv zeta in Eq. rewrite E in Eq. rewrite Eq. eauto.
Qed.

(** The machine before the first call. *)
Lemma state0_inv limit : alloc_inv (state0 limit) [].
Proof.
  constructor.
  - constructor; cbn.
    + auto.
    + exists 16777216. split; [lia | reflexivity].
    + exact I.
    + left. auto.
  - constructor; cbn.
    + unfold LMEM_MMAP_TRESHOLD, LMEM_PAGESIZE. lia.
    + rewrite TASK_SIZE_val. lia.
    + constructor.
    + exact I.
  - constructor.
Qed.

(** ** The concrete runs satisfy the invariant *)

Lemma demo_state_inv : alloc_inv demo_state demo_blocks.
Proof.
  constructor.
  - constructor.
    + cbn [dlseg demo_blocks]. repeat split; vm_compute; reflexivity.
    + exists 16777216. split; [vm_compute; discriminate|].
      cbn [contig demo_blocks]. repeat split; vm_compute; congruence.
    + cbn [nofree2 demo_blocks used_next].
      repeat split; auto; vm_compute; auto.
    + right. left. vm_compute. reflexivity.
  - assert (E : k_maps (kern demo_state) = []) by (vm_compute; reflexivity).
    constructor; rewrite ?E.
    + vm_compute. discriminate.
    + split; vm_compute; discriminate.
    + constructor.
    + exact I.
  - unfold maps_inv.
    replace (k_maps (kern demo_state)) with (@nil (Z * Z))
      by (vm_compute; reflexivity).
    constructor.
Qed.

(** * Part IV: the properties of the specification *)

(** ** C1: first fit *)

Lemma block_units_ceil len :
  0 <= len < LMEM_MMAP_TRESHOLD ->
  block_units len = len / HDR + (if len mod HDR =? 0 then 0 else 1) + 1.
Proof.
  intros H. destruct (block_units_small len H) as (E & _). rewrite E.
  unfold HDR. destruct (len mod 32 =? 0) eqn:Em.
  - apply Z.eqb_eq in Em. Z.to_euclidean_division_equations. lia.
  - apply Z.eqb_neq in Em. Z.to_euclidean_division_equations. lia.
Qed.

(** C1.  For a request [len] below the mapping threshold the required size
    is [ceil (len / 32) + 1] header units; the scan from [head] stops at
    the first block [b] that is free and at least that large, whatever
    follows it in the list ([post] is arbitrary, so a tighter fit further
    on is not looked at); the result is [b] plus one header unit and [b]
    is marked in use.  When [b] has exactly the required size the only
    write is the flag; when it is strictly larger it is split first, and
    the remainder becomes a free block right behind it. *)
Theorem lmalloc_first_fit st pre b post len fuel :
  alloc_inv st (pre ++ b :: post) ->
  0 <= len < LMEM_MMAP_TRESHOLD ->
  Forall (fun y => fitsb (mem st) (block_units len) y = false) pre ->
  fitsb (mem st) (block_units len) b = true ->
  (length pre < fuel)%nat ->
  let size := block_units len in
  let st' := take_block st b size in
  size = len / HDR + (if len mod HDR =? 0 then 0 else 1) + 1
  /\ lmalloc fuel st len = Some (st', b + HDR)
  /\ get_isfree (mem st') b = 0
  /\ get_size (mem st') b = size
  /\ (get_size (mem st) b = size ->
        st' = set_mem st (set_isfree (mem st) b 0)
        /\ alloc_inv st' (pre ++ b :: post))
  /\ (size < get_size (mem st) b ->
        st' = set_mem (lmem_split_block st b size)
                (set_isfree (mem (lmem_split_block st b size)) b 0)
        /\ alloc_inv st' (pre ++ b :: (b + HDR * size) :: post)
        /\ get_isfree (mem st') (b + HDR * size) = 1
        /\ get_size (mem st') (b + HDR * size) = get_size (mem st) b - size).
Proof.
  intros Hinv Hlen Hpre Hfit Hfuel size st'.
  destruct (block_units_small len Hlen) as (_ & Hu & _). fold size in Hu.
  pose proof Hinv as [[Hl (lo & Hlo & Hc) Hn Hb] Hk Hm].
  pose proof Hk as [K1 K2 _ _].
  unfold LMEM_MMAP_TRESHOLD, LMEM_PAGESIZE in K1.
  assert (Hnn : Forall (fun y => y <> NULL) (pre ++ b :: post)).
  { eapply dlseg_nonnull; [exact Hl | exact Hc | lia]. }
  rewrite Forall_forall in Hnn.
  assert (Hbn : b <> NULL) by (apply Hnn; apply in_or_app; simpl; auto).
  pose proof Hfit as Hfit'. apply fitsb_true in Hfit'.
  destruct Hfit' as [Hf Hsz]. fold size in Hsz.
  pose proof (take_block_spec st pre b post size Hinv Hf ltac:(lia)) as T.
  cbv zeta in T. fold st' in T.
  destruct T as (T1 & T2 & T3 & T4 & T5 & T6 & T7).
  split; [apply block_units_ceil; exact Hlen|].
  split.
  { unfold lmalloc.
    assert (Et : (LMEM_MMAP_TRESHOLD <=? len) = false) by (apply Z.leb_gt; lia).
    rewrite Et.
    rewrite (lmalloc_scan_found st _ pre b post fuel Hl); auto.
    - fold size. fold st'. f_equal. f_equal.
      destruct (contig_In _ _ _ _ b Hc) as (? & ? & ?);
        [apply in_or_app; simpl; auto|].
      rewrite TASK_SIZE_val in K2.
      apply ptr_add_small. unfold HDR in *. rewrite WORD_val. lia.
    - rewrite Forall_forall in *. intros y Hy. split; auto.
      apply Hnn. apply in_or_app. auto. }
  split; [exact T2|]. split; [exact T3|]. split.
  - intros E.
    assert (El : (size <? get_size (mem st) b) = false)
      by (apply Z.ltb_ge; lia).
    rewrite El in T1. split; [|exact T1].
    subst st'. unfold take_block. rewrite El. reflexivity.
  - intros E.
    assert (El : (size <? get_size (mem st) b) = true)
      by (apply Z.ltb_lt; lia).
    rewrite El in T1. split; [|split; [exact T1 | exact (T7 E)]].
    subst st'. unfold take_block. rewrite El. reflexivity.
Qed.

(** On the demo heap a request of 10 bytes (2 units) is served from the
    5-unit block A, although the free block C has exactly 2 units. *)
Lemma lmalloc_first_fit_witness :
  fitsb (mem demo_state) (block_units 10) 16777472 = true
  /\ lmalloc 8 demo_state 10
     = Some (take_block demo_state 16777216 (block_units 10), 16777216 + HDR)
  /\ get_isfree (mem (take_block demo_state 16777216 (block_units 10)))
       16777472 <> 0.
Proof.
  split; [vm_compute; reflexivity|].
  split.
  - destruct (lmalloc_first_fit demo_state [] 16777216
                [16777376; 16777472; 16777536] 10 8) as (_ & H & _).
    + exact demo_state_inv.
    + unfold LMEM_MMAP_TRESHOLD, LMEM_PAGESIZE. lia.
    + constructor.
    + vm_compute. reflexivity.
    + simpl. lia.
    + exact H.
  - vm_compute. discriminate.
Defined.

(** ** C2: no two adjacent free blocks *)

(** C2.  Every public operation, called on a state that satisfies the
    allocator invariant with a valid pointer and a request that does not
    wrap around, returns and leaves a state that satisfies the invariant
    again; in particular the block list it leaves has no two adjacent free
    blocks.  The one call that may not return is [lrealloc] of a heap
    block that is not in use or whose payload is smaller than the new
    length: when [lmalloc] has returned a block and the bytes from the old
    pointer on are not all mapped, the copy ends the process, which
    leaves no state.  Releasing the heap block [b] is
    [lfree_left_merge] on [b] followed, when the block then recorded
    behind [b] is free, by [lfree_left_merge] on that block; afterwards
    [b] lies in a free block [c] that starts at the left neighbour when
    that one was free and has swallowed the right neighbour when that one
    was free. *)
Theorem no_adjacent_free_blocks st bl :
  alloc_inv st bl ->
  (forall fuel len,
      0 <= len < WORD -> (length bl < fuel)%nat ->
      exists st' r bl',
        lmalloc fuel st len = Some (st', r)
        /\ alloc_inv st' bl' /\ nofree2 (mem st') bl')
  /\ (forall fuel nlen len,
        no_overflow (wrap (nlen * len)) -> (length bl < fuel)%nat ->
        exists st' r bl',
          lcalloc fuel st nlen len = Some (Done (st', r))
          /\ alloc_inv st' bl' /\ nofree2 (mem st') bl')
  /\ (forall fuel addr len,
        valid_ptr st bl addr -> 0 <= len < WORD -> no_overflow len ->
        (length bl < fuel)%nat ->
        (exists st' r bl',
            lrealloc fuel st addr len = Some (Done (st', r))
            /\ alloc_inv st' bl' /\ nofree2 (mem st') bl')
        \/ (lrealloc fuel st addr len = Some Killed
            /\ exists b,
                 In b bl /\ addr = b + HDR
                 /\ (get_isfree (mem st) b <> 0
                     \/ HDR * (get_size (mem st) b - 1) < len)
                 /\ exists st1 r,
                      lmalloc fuel st len = Some (st1, r) /\ r <> NULL
                      /\ mapped_range (kern st1) addr len = false))
  /\ (forall addr,
        valid_ptr st bl addr ->
        exists bl',
          alloc_inv (lfree st addr) bl' /\ nofree2 (mem (lfree st addr)) bl')
  /\ (forall pre b post,
        bl = pre ++ b :: post ->
        lfree st (b + HDR)
        = (let st1 := lfree_left_merge st b in
           if negb (get_next (mem st1) b =? NULL)
              && negb (get_isfree (mem st1) (get_next (mem st1) b) =? 0)
           then lfree_left_merge st1 (get_next (mem st1) b)
           else st1)
        /\ exists pre' c post',
             alloc_inv (lfree st (b + HDR)) (pre' ++ c :: post')
             /\ nofree2 (mem (lfree st (b + HDR))) (pre' ++ c :: post')
             /\ get_isfree (mem (lfree st (b + HDR))) c <> 0
             /\ c <= b
             /\ b + HDR * get_size (mem st) b
                <= c + HDR * get_size (mem (lfree st (b + HDR))) c
             /\ ((pre' = pre /\ c = b
                  /\ (pre = []
                      \/ exists q p,
                           pre = q ++ [p] /\ get_isfree (mem st) p = 0))
                 \/ (pre = pre' ++ [c] /\ get_isfree (mem st) c <> 0))
             /\ ((post' = post /\ used_next (mem st) post)
                 \/ (exists n,
                       post = n :: post' /\ get_isfree (mem st) n <> 0))).
Proof.
  intros Hinv.
  assert (N : forall s l, alloc_inv s l -> nofree2 (mem s) l).
  { intros s l [[_ _ H _] _ _]. exact H. }
  split; [|split; [|split; [|split]]].
  - intros fuel len Hlen Hfuel.
    destruct (lmalloc_spec st bl len fuel Hinv Hlen Hfuel)
      as (st' & r & bl' & E & P & _).
    exists st', r, bl'. auto.
  - intros fuel nlen len Hov Hfuel.
    destruct (lcalloc_spec st bl nlen len fuel Hinv Hov Hfuel)
      as (st' & r & bl' & E & P).
    exists st', r, bl'. auto.
  - intros fuel addr len Hv Hlen Hov Hfuel.
    destruct (lrealloc_spec st bl addr len fuel Hinv Hv Hlen Hov Hfuel)
      as [(st' & r & bl' & E & P) | K].
    + left. exists st', r, bl'. auto.
    + right. exact K.
  - intros addr Hv.
    destruct (lfree_spec st bl addr Hinv Hv) as (bl' & P & _).
    exists bl'. auto.
  - intros pre b post ->.
    destruct (heap_block_facts st _ b Hinv) as (B0 & B1 & B2 & _).
    { apply in_or_app. simpl. auto. }
    split; [apply lfree_heap_eq; assumption|].
    destruct (lfree_heap_spec st pre b post Hinv)
      as (pre' & c & post' & H1 & H2 & H3 & H4 & H5 & H6 & H7 & H8 & H9).
    exists pre', c, post'. auto 10.
Qed.

(** On the demo heap, releasing B between the free blocks A and C leaves
    one free block of 10 units at the address of A, followed by D. *)
Lemma no_adjacent_free_blocks_witness :
  alloc_inv demo_state demo_blocks
  /\ (exists bl',
        alloc_inv (lfree demo_state (16777376 + HDR)) bl'
        /\ nofree2 (mem (lfree demo_state (16777376 + HDR))) bl')
  /\ get_size (mem (lfree demo_state (16777376 + HDR))) 16777216 = 10
  /\ get_next (mem (lfree demo_state (16777376 + HDR))) 16777216 = 16777536.
Proof.
  split; [exact demo_state_inv|].
  split.
  - destruct (no_adjacent_free_blocks demo_state demo_blocks demo_state_inv)
      as (_ & _ & _ & H & _).
    apply (H (16777376 + HDR)).
    right. left. exists 16777376. split; [|reflexivity].
    unfold demo_blocks. simpl. auto.
  - split; vm_compute; reflexivity.
Defined.

(** ** C3: resizing a heap block *)

Lemma usable_not_header st bl p len :
  alloc_inv st bl -> usable st bl p len ->
  forall x, p <= x < p + len ->
            forall y, In y bl -> x < y \/ y + HDR <= x.
Proof.
  intros [[Hl (lo & Hlo & Hc) Hn Hb] Hk Hm] Hu x Hx y Hy.
  destruct Hu as [(b & Hb1 & -> & Hlen) | (a & L & Ha & -> & Hlen)].
  - apply (payload_not_header (mem st) bl lo _ b x Hc Hb1); [|exact Hy].
    unfold HDR in *. lia.
  - destruct Hk as [K1 K2 K3 K4]. rewrite Forall_forall in K3.
    destruct (K3 _ Ha) as (O1 & O2 & O3 & O4). cbn [fst snd] in *.
    destruct (contig_In _ _ _ _ _ Hc Hy) as (? & ? & ?).
    unfold HDR in *. lia.
Qed.

(** What the release at the end of [lrealloc] does: the old block [b]
    ends up in a free block of the list, and the new region stays the
    caller's. *)
Lemma lrealloc_release st1 bl1 b r len :
  alloc_inv st1 bl1 -> In b bl1 -> usable st1 bl1 r len ->
  r <> b + HDR ->
  (len < LMEM_MMAP_TRESHOLD -> get_isfree (mem st1) (r - HDR) = 0) ->
  (LMEM_MMAP_TRESHOLD <= len ->
   exists a L, In (a, L) (k_maps (kern st1)) /\ r = a + HDR /\ len + HDR <= L) ->
  let st2 := set_mem st1 (copy_bytes (mem st1) r (b + HDR) len) in
  let st3 := lfree st2 (b + HDR) in
  (forall x, r <= x < r + len -> mem st3 x = mem st2 x)
  /\ exists bl3 c,
       alloc_inv st3 bl3 /\ In c bl3
       /\ get_isfree (mem st3) c <> 0
       /\ c <= b
       /\ b + HDR * get_size (mem st2) b <= c + HDR * get_size (mem st3) c
       /\ usable st3 bl3 r len.
Proof.
  intros P1 Hb1 U Hne Hheap Hmap. cbv zeta.
  assert (I2 : alloc_inv
            (set_mem st1 (copy_bytes (mem st1) r (b + HDR) len)) bl1).
  { eapply write_payload_inv; [exact P1 | exact U |].
    intros x Hx. apply copy_bytes_out. exact Hx. }
  assert (Hh : forall y off, In y bl1 -> 0 <= off -> off + 8 <= HDR ->
            load64 (copy_bytes (mem st1) r (b + HDR) len) (y + off)
            = load64 (mem st1) (y + off)).
  { intros y off Hy H0 H8. apply load64_ext. intros x Hx.
    apply copy_bytes_out.
    destruct (Z_lt_dec x r) as [|Hge]; [auto|].
    destruct (Z_le_dec (r + len) x) as [|Hlt]; [auto|]. exfalso.
    destruct (usable_not_header st1 bl1 r len P1 U x ltac:(lia) y Hy);
      unfold HDR in *; lia. }
  assert (U2 : usable (set_mem st1 (copy_bytes (mem st1) r (b + HDR) len))
                 bl1 r len).
  { destruct U as [(c & Hc1 & -> & Hl1) | (a & L & Ha & -> & Hl1)].
    - left. exists c. split; [exact Hc1|]. split; [reflexivity|].
      cbn [mem set_mem]. unfold get_size.
      rewrite (Hh c 8 Hc1); [exact Hl1 | lia | unfold HDR; lia].
    - right. exists a, L. auto. }
  assert (Hheap2 : len < LMEM_MMAP_TRESHOLD ->
             get_isfree (mem (set_mem st1 (copy_bytes (mem st1) r (b + HDR) len)))
               (r - HDR) = 0).
  { intros Hl. specialize (Hheap Hl).
    destruct (Z_lt_dec len LMEM_MMAP_TRESHOLD) as [_|]; [|contradiction].
    destruct U as [(c & Hc1 & -> & _) | (a & L & Ha & -> & Hl1)].
    - replace (c + HDR - HDR) with c in * by lia.
      cbn [mem set_mem]. unfold get_isfree in *.
      replace c with (c + 0) at 2 by lia.
      rewrite (Hh c 0 Hc1); [|lia | unfold HDR; lia].
      replace (c + 0) with c by lia. exact Hheap.
    - replace (a + HDR - HDR) with a in * by lia.
      cbn [mem set_mem]. unfold get_isfree in *.
      rewrite load64_copy_bytes_out; [exact Hheap | unfold HDR; lia]. }
  assert (Hmap2 : LMEM_MMAP_TRESHOLD <= len ->
            exists a L,
              In (a, L) (k_maps (kern (set_mem st1
                           (copy_bytes (mem st1) r (b + HDR) len))))
              /\ r = a + HDR /\ len + HDR <= L) by exact Hmap.
  revert I2 U2 Hheap2 Hmap2.
  generalize (set_mem st1 (copy_bytes (mem st1) r (b + HDR) len)).
  intros st2 I2 U2 Hheap2 Hmap2.
  destruct (heap_block_facts st2 bl1 b I2 Hb1)
    as (_ & _ & _ & pre & post & ->).
  destruct (lfree_heap_keeps st2 pre b post I2)
    as (bl3 & c & H1 & H2 & H3 & H4 & H5 & H6 & H7 & H8).
  split.
  { intros x Hx. apply H6.
    apply (usable_not_header st2 _ r len I2 U2). exact Hx. }
  exists bl3, c.
  split; [exact H1|]. split; [exact H2|]. split; [exact H3|].
  split; [exact H4|]. split; [exact H5|].
  destruct U2 as [(c' & Hc1 & -> & Hl1) | (a & L & Ha & -> & Hl1)].
  - (* the new block is a block of the heap, in use *)
    destruct (Z_lt_dec len LMEM_MMAP_TRESHOLD) as [Hl | Hl].
    + specialize (Hheap2 Hl).
      replace (c' + HDR - HDR) with c' in Hheap2 by lia.
      assert (Hc' : In c' (pre ++ post)).
      { apply in_app_or in Hc1. apply in_or_app.
        destruct Hc1 as [? | [E | ?]]; [auto | | auto].
        exfalso. apply Hne. rewrite E. reflexivity. }
      destruct (H8 c' Hc' Hheap2) as (Q1 & Q2 & Q3).
      left. exists c'. split; [exact Q1|]. split; [reflexivity|].
      rewrite Q3. exact Hl1.
    + destruct (Hmap2 ltac:(lia)) as (a & L & Ha & Ea & Hl2).
      right. exists a, L. rewrite H7. auto.
  - right. exists a, L. rewrite H7. auto.
Qed.

(** What [lrealloc] does for a heap block in use once [lmalloc] has
    returned the non-null pointer [r] and the bytes to copy are mapped. *)
Lemma lrealloc_heap_done st bl b len fuel st1 r :
  alloc_inv st bl -> In b bl -> get_isfree (mem st) b = 0 ->
  0 <= len < WORD -> (length bl < fuel)%nat ->
  lmalloc fuel st len = Some (st1, r) ->
  r <> NULL ->
  mapped_range (kern st1) (b + HDR) len = true ->
  memcpy (kern st1) (mem st1) r (b + HDR) len
  = Some (copy_bytes (mem st1) r (b + HDR) len)
  /\ (r + len <= b \/ b + HDR * get_size (mem st) b <= r)
  /\ (forall i, 0 <= i < len ->
        mem (lfree (set_mem st1
                      (copy_bytes (mem st1) r (b + HDR) len))
               (b + HDR)) (r + i)
        = mem st1 (b + HDR + i))
  /\ exists bl3 c,
       alloc_inv (lfree (set_mem st1
                           (copy_bytes (mem st1) r (b + HDR) len))
                    (b + HDR)) bl3
       /\ In c bl3
       /\ get_isfree
            (mem (lfree (set_mem st1
                           (copy_bytes (mem st1) r (b + HDR) len))
                    (b + HDR))) c <> 0
       /\ c <= b
       /\ b + HDR * get_size (mem st) b
          <= c + HDR * get_size
                   (mem (lfree (set_mem st1
                           (copy_bytes (mem st1) r (b + HDR) len))
                    (b + HDR))) c
       /\ usable (lfree (set_mem st1
                           (copy_bytes (mem st1) r (b + HDR) len))
                    (b + HDR)) bl3 r len.
Proof.
  intros Hinv Hb Hused Hlen Hfuel E Hr Hsrc.
  destruct (lmalloc_spec st bl len fuel Hinv Hlen Hfuel)
    as (st1' & r' & bl1 & E' & P).
  rewrite E in E'. injection E' as <- <-.
  pose proof P as (P1 & P2 & P3 & P4).
  pose proof (lmalloc_new_pointer st bl len fuel st1 r Hinv Hlen Hfuel E
                b Hb Hused) as Hne.
  pose proof Hinv as [[_ (lo & Hlo & Hc) _ _] Hk _].
  pose proof Hk as [K1 K2 _ _].
  unfold LMEM_MMAP_TRESHOLD, LMEM_PAGESIZE in K1.
  rewrite TASK_SIZE_val in K2.
  destruct (contig_In _ _ _ _ _ Hc Hb) as (Lb & Sb & Ub).
  destruct (P3 b Hb Hused) as (F1 & F2 & F3).
  assert (Hov : no_overflow len).
  { unfold no_overflow.
    destruct (Z.eq_dec len 0) as [-> | Hl0].
    - unfold HDR, LMEM_PAGESIZE. rewrite WORD_val. lia.
    - destruct P1 as [_ Hk1 _].
      destruct (mapped_range_bound _ _ _ Hk1 Hsrc ltac:(lia)) as [_ Hb2].
      rewrite TASK_SIZE_val in Hb2.
      unfold HDR, LMEM_PAGESIZE in *. rewrite WORD_val. lia. }
  destruct (P4 Hr Hov) as [U D].
  specialize (D b Hb Hused).
  assert (Hb1 : In b bl1) by (apply P2; exact Hb).
  assert (Hheap : len < LMEM_MMAP_TRESHOLD ->
            get_isfree (mem st1) (r - HDR) = 0).
  { intros Hl.
    apply (lmalloc_result_in_use st bl len fuel st1 r Hinv ltac:(lia)
             Hfuel E Hr). }
  assert (Hmap : LMEM_MMAP_TRESHOLD <= len ->
            exists a L, In (a, L) (k_maps (kern st1)) /\ r = a + HDR
                        /\ len + HDR <= L).
  { intros Hl.
    assert (Et : (LMEM_MMAP_TRESHOLD <=? len) = true)
      by (apply Z.leb_le; exact Hl).
    unfold lmalloc in E. rewrite Et in E. injection E as E.
    pose proof (lmalloc_mmap_eq st len) as Eq. cbv zeta in Eq.
    destruct (page_round_no_overflow len ltac:(lia) Hov) as [R1 R2].
    destruct ((0 <? page_round len)
              && region_free (kern st) (k_maps (kern st))
                   (k_place (kern st) (k_maps (kern st)) (page_round len))
                   (page_round len)).
    - rewrite Eq in E. injection E as <- <-.
      eexists. eexists. cbn [kern k_maps set_k_maps].
      split; [left; reflexivity|]. split; [reflexivity | lia].
    - rewrite Eq in E. injection E as _ <-. exfalso. apply Hr.
      reflexivity. }
  pose proof (lrealloc_release st1 bl1 b r len P1 Hb1 U Hne Hheap Hmap)
    as R.
  cbv zeta in R. destruct R as (R1 & bl3 & c & R2 & R3 & R4 & R5 & R6 & R7).
  split.
  { unfold memcpy. rewrite (usable_mapped st1 bl1 _ _ P1 U), Hsrc.
    reflexivity. }
  split; [exact D|]. split.
  { intros i Hi. rewrite R1 by lia. cbn [mem set_mem].
    rewrite copy_bytes_in by lia. f_equal. lia. }
  exists bl3, c. split; [exact R2|]. split; [exact R3|].
  split; [exact R4|]. split; [exact R5|]. split; [|exact R7].
  assert (S2 : get_size (mem (set_mem st1
                                (copy_bytes (mem st1) r (b + HDR) len))) b
               = get_size (mem st) b).
  { rewrite <- F2. cbn [mem set_mem]. unfold get_size.
    apply load64_copy_bytes_out. unfold HDR in *. lia. }
  rewrite <- S2. exact R6.
Qed.

(** C3 fails when the new length reaches past mapped memory.  In
    [short_tail_state] the block at 16782272 is in use, has 32 payload
    bytes and ends at the break; resized to 5000 bytes, [lmalloc] hands
    out the free block at the start of the heap and leaves the break
    where it is, and the copy of 5000 bytes from the old pointer runs
    4968 bytes past the break, more than a page: the process is killed
    in [memcpy] and no pointer is returned. *)
Lemma lrealloc_copy_past_break :
  get_isfree (mem short_tail_state) 16782272 = 0
  /\ get_size (mem short_tail_state) 16782272 = 2
  /\ k_brk (kern short_tail_state) = 16782272 + HDR * 2
  /\ option_map snd (lmalloc 8 short_tail_state 5000)
     = Some (16777216 + HDR)
  /\ k_brk (kern (after (lmalloc 8 short_tail_state 5000)))
     + LMEM_PAGESIZE < 16782272 + HDR + 5000
  /\ mapped_range (kern (after (lmalloc 8 short_tail_state 5000)))
       (16782272 + HDR) 5000 = false
  /\ lrealloc 8 short_tail_state (16782272 + HDR) 5000 = Some Killed.
Proof.
  repeat split; vm_compute; reflexivity.
Qed.

(** C3, amended.  For a heap block [b] in use, [lrealloc] first calls
    [lmalloc] for [len] bytes.  When that returns null, so does
    [lrealloc], and nothing is copied or released.  When it returns the
    non-null pointer [r] and the [len] bytes from the old pointer on are
    mapped, [lrealloc] copies exactly [len] bytes from the old pointer to
    [r], releases the old block and returns [r], whether [len] is smaller
    or larger than the old payload: [r] lies off the old block, the old
    block ends up inside a free block of the list, the [len] bytes at [r]
    stay the caller's, and where the two ranges of the copy do not overlap
    they are the [len] bytes that followed the old pointer.  When the
    [len] bytes from the old pointer on are not all mapped, the copy ends
    the process.  When [len] does not exceed the old payload the bytes
    are mapped, and the first [len] bytes at [r] are afterwards the bytes
    the old region held before the call. *)
Theorem lrealloc_heap_block st bl b len fuel :
  alloc_inv st bl -> In b bl -> get_isfree (mem st) b = 0 ->
  0 <= len < WORD -> (length bl < fuel)%nat ->
  exists st1 r,
    lmalloc fuel st len = Some (st1, r)
    /\ (r = NULL -> lrealloc fuel st (b + HDR) len = Some (Done (st1, NULL)))
    /\ (r <> NULL -> mapped_range (kern st1) (b + HDR) len = false ->
        lrealloc fuel st (b + HDR) len = Some Killed)
    /\ (r <> NULL -> mapped_range (kern st1) (b + HDR) len = true ->
        let st2 := set_mem st1 (copy_bytes (mem st1) r (b + HDR) len) in
        let st3 := lfree st2 (b + HDR) in
        lrealloc fuel st (b + HDR) len = Some (Done (st3, r))
        /\ (r + len <= b \/ b + HDR * get_size (mem st) b <= r)
        /\ (r + len <= b + HDR \/ b + HDR + len <= r ->
            forall i, 0 <= i < len ->
              mem st3 (r + i) = mem st1 (b + HDR + i))
        /\ exists bl3 c,
             alloc_inv st3 bl3 /\ In c bl3
             /\ get_isfree (mem st3) c <> 0
             /\ c <= b
             /\ b + HDR * get_size (mem st) b
                <= c + HDR * get_size (mem st3) c
             /\ usable st3 bl3 r len)
    /\ (r <> NULL -> len <= HDR * (get_size (mem st) b - 1) ->
        mapped_range (kern st1) (b + HDR) len = true
        /\ forall i, 0 <= i < len ->
             mem (lfree (set_mem st1 (copy_bytes (mem st1) r (b + HDR) len))
                    (b + HDR)) (r + i)
             = mem st (b + HDR + i)).
Proof.
  intros Hinv Hb Hused Hlen Hfuel.
  destruct (heap_block_facts st bl b Hinv Hb) as (B0 & B1 & B2 & _).
  destruct (lmalloc_spec st bl len fuel Hinv Hlen Hfuel)
    as (st1 & r & bl1 & E & P).
  pose proof P as (P1 & P2 & P3 & P4).
  pose proof (lmalloc_new_pointer st bl len fuel st1 r Hinv Hlen Hfuel E
                b Hb Hused) as Hne.
  exists st1, r. split; [exact E|].
  rewrite (lrealloc_heap_eq fuel st b len B0 B1 B2). rewrite E.
  pose proof Hinv as [[_ (lo & Hlo & Hc) _ _] Hk _].
  pose proof Hk as [K1 K2 _ _].
  unfold LMEM_MMAP_TRESHOLD, LMEM_PAGESIZE in K1.
  rewrite TASK_SIZE_val in K2.
  destruct (contig_In _ _ _ _ _ Hc Hb) as (Lb & Sb & Ub).
  destruct (P3 b Hb Hused) as (F1 & F2 & F3).
  pose proof (fun Hr Hsrc =>
                lrealloc_heap_done st bl b len fuel st1 r Hinv Hb Hused Hlen
                  Hfuel E Hr Hsrc) as Main.
  split; [|split; [|split; [|]]].
  - intros ->. reflexivity.
  - intros Hr Hsrc.
    assert (Er : (r =? NULL) = false) by (apply Z.eqb_neq; exact Hr).
    rewrite Er. unfold memcpy. rewrite Hsrc, andb_false_r. reflexivity.
  - intros Hr Hsrc. cbv zeta.
    assert (Er : (r =? NULL) = false) by (apply Z.eqb_neq; exact Hr).
    rewrite Er.
    destruct (Main Hr Hsrc) as (M1 & M2 & M3 & M4).
    rewrite M1. auto.
  - intros Hr Hfit.
    assert (Hsrc : mapped_range (kern st1) (b + HDR) len = true).
    { pose proof (lrealloc_copy_mapped st bl b len st1 r bl1 Hinv Hb Hused
                    ltac:(lia) P Hr) as Em.
      unfold memcpy in Em.
      destruct (mapped_range (kern st1) (b + HDR) len); [reflexivity|].
      rewrite andb_false_r in Em. discriminate. }
    split; [exact Hsrc|].
    destruct (Main Hr Hsrc) as (_ & _ & M3 & _).
    intros i Hi. rewrite (M3 i Hi). apply F3. unfold HDR in *. lia.
Qed.

(** Shrinking the 3-unit block B of the demo heap (64 usable bytes) to 10
    bytes. *)
Lemma lrealloc_heap_block_witness :
  get_isfree (mem demo_state) 16777376 = 0
  /\ exists st1 r,
       lmalloc 8 demo_state 10 = Some (st1, r)
       /\ r = 16777216 + HDR
       /\ lrealloc 8 demo_state (16777376 + HDR) 10
          = Some (Done (lfree (set_mem st1
                                 (copy_bytes (mem st1) r (16777376 + HDR) 10))
                          (16777376 + HDR), r))
       /\ forall i, 0 <= i < 10 ->
            mem (lfree (set_mem st1
                          (copy_bytes (mem st1) r (16777376 + HDR) 10))
                   (16777376 + HDR)) (r + i)
            = mem demo_state (16777376 + HDR + i).
Proof.
  split; [vm_compute; reflexivity|].
  assert (Es : get_size (mem demo_state) 16777376 = 3)
    by (vm_compute; reflexivity).
  destruct (lrealloc_heap_block demo_state demo_blocks 16777376 10 8)
    as (st1 & r & H1 & _ & _ & H3 & H4).
  - exact demo_state_inv.
  - unfold demo_blocks. simpl. auto.
  - vm_compute. reflexivity.
  - rewrite WORD_val. lia.
  - unfold demo_blocks. simpl. lia.
  - assert (Er : option_map snd (lmalloc 8 demo_state 10)
                 = Some (16777216 + HDR)) by (vm_compute; reflexivity).
    rewrite H1 in Er. cbn [option_map snd] in Er. injection Er as Er.
    assert (Hr : r <> NULL) by (rewrite Er; unfold NULL, HDR; lia).
    destruct (H4 Hr) as (Hsrc & Q); [rewrite Es; unfold HDR; lia|].
    destruct (H3 Hr Hsrc) as (Q1 & _).
    exists st1, r. auto.
Defined.

(** ** C4: failure of the break request *)

(** [new_memblk] writes neither the memory nor the list ends. *)
Lemma new_memblk_frame st size :
  mem (fst (new_memblk st size)) = mem st
  /\ head (fst (new_memblk st size)) = head st
  /\ tail (fst (new_memblk st size)) = tail st.
Proof.
  unfold new_memblk.
  destruct (last_break st =? NULL).
  - destruct (sys_brk (kern st) 0) as [k0 r0].
    destruct (sys_brk _ _) as [k r]. destruct (r =? MINUS1); auto.
  - destruct (sys_brk _ _) as [k r]. destruct (r =? MINUS1); auto.
Qed.

(** On success the result is the new break minus [size] and the cached
    break is the new break; on failure the cached break is overwritten with
    the failure value. *)
Lemma new_memblk_outcomes st bl size :
  brk_state st bl -> kernel_ok (kern st) -> 1 <= size <= 4096 ->
  let st' := fst (new_memblk st size) in
  let r := snd (new_memblk st size) in
  (r <> MINUS1 ->
     last_break st' = k_brk (kern st')
     /\ k_brk (kern st') = k_brk (kern st) + HDR * size
     /\ r = ptr_sub (last_break st') size
     /\ r = k_brk (kern st))
  /\ (r = MINUS1 -> last_break st' = MINUS1 /\ kern st' = kern st).
Proof.
  intros Hb Hk Hs. cbv zeta.
  rewrite (new_memblk_spec st bl size Hb Hk Hs). cbv zeta.
  destruct (negb (last_break st =? MINUS1)
            && brk_grants (kern st) (k_brk (kern st) + HDR * size)) eqn:E.
  - cbn [fst snd last_break kern set_kern set_last_break k_brk set_k_brk].
    split; [|intros Hr].
    + intros _. split; [reflexivity|]. split; [reflexivity|].
      split; [|reflexivity].
      destruct Hk as [K1 K2 _ _]. rewrite TASK_SIZE_val in K2.
      unfold LMEM_MMAP_TRESHOLD, LMEM_PAGESIZE in K1.
      unfold ptr_sub.
      replace (k_brk (kern st) + HDR * size - HDR * size)
        with (k_brk (kern st)) by lia.
      symmetry. apply wrap_small. rewrite WORD_val. lia.
    + exfalso. destruct Hk as [K1 K2 _ _]. rewrite TASK_SIZE_val in K2.
      unfold MINUS1 in Hr. rewrite WORD_val in Hr. lia.
  - cbn [fst snd last_break kern set_last_break].
    split; [intros Hr; exfalso; apply Hr; reflexivity|].
    intros _. destruct st; auto.
Qed.

(** C4, at a failing input.  The cached break of [full_state] is the
    kernel's break, 16777376.  The kernel refuses to move it by 2 units:
    [new_memblk] returns the failure value, the kernel's break is where it
    was, but the cached break is now the failure value.  The cache stays
    lost: with a kernel that grants every request the next call asks for
    the break 63 and fails again. *)
Theorem new_memblk_failure_overwrites_last_break :
  last_break full_state = 16777376
  /\ k_brk (kern full_state) = 16777376
  /\ snd (new_memblk full_state 2) = MINUS1
  /\ k_brk (kern (fst (new_memblk full_state 2))) = 16777376
  /\ last_break (fst (new_memblk full_state 2)) = MINUS1
  /\ last_break (fst (new_memblk full_state 2)) <> last_break full_state
  /\ ptr_add (last_break (fst (new_memblk full_state 2))) 2 = 63
  /\ snd (new_memblk (generous (fst (new_memblk full_state 2))) 2) = MINUS1
  /\ snd (new_memblk (generous full_state) 2) = 16777376.
Proof.
  repeat split; try (vm_compute; reflexivity).
  vm_compute. discriminate.
Qed.

(** ** C5: the mapping path of [lmalloc] *)

(** C5 fails for requests within a page of the largest [size_t]: the sum
    wraps around.  A request of [WORD - 1] bytes maps one page and returns
    a pointer to 4064 usable bytes. *)
Lemma lmalloc_mmap_wraps :
  LMEM_MMAP_TRESHOLD <= WORD - 1 < WORD
  /\ page_round (WORD - 1) = LMEM_PAGESIZE
  /\ ~ rounds_up (WORD - 1) (page_round (WORD - 1))
  /\ option_map snd (lmalloc 1 (state0 0) (WORD - 1))
     = Some (1073741824 + HDR)
  /\ option_map (fun p => k_maps (kern (fst p)))
       (lmalloc 1 (state0 0) (WORD - 1))
     = Some [(1073741824, LMEM_PAGESIZE)].
Proof.
  split; [vm_compute; split; [discriminate | reflexivity]|].
  split; [vm_compute; reflexivity|].
  split.
  - intros [_ [H _]]. revert H. vm_compute. intros H. apply H. reflexivity.
  - split; vm_compute; reflexivity.
Qed.

(** C5, amended.  For a request at or above the threshold that does not
    wrap around, [lmalloc] asks for a mapping of the header-inclusive
    length rounded up to a page.  When the kernel refuses, the result is
    null and the state is untouched.  When it grants the base [a], the
    block at [a] carries the tag in [next] and the rounded length in
    [size], and the result is [a] plus one header.  Either way [head] and
    [tail] are unchanged, no byte of the heap segment changes, and a block
    list stays what it was. *)
Theorem lmalloc_mmap_path st len fuel :
  LMEM_MMAP_TRESHOLD <= len -> no_overflow len ->
  let L := page_round len in
  let st' := fst (lmalloc_mmap st len) in
  let a := snd (sys_mmap (kern st) (mem st) L) in
  rounds_up len L
  /\ lmalloc fuel st len = Some (lmalloc_mmap st len)
  /\ (a = MAP_FAILED -> lmalloc_mmap st len = (st, NULL))
  /\ (a <> MAP_FAILED ->
        snd (lmalloc_mmap st len) = a + HDR
        /\ get_next (mem st') a = LMEM_NEXT_MMAP
        /\ get_size (mem st') a = L
        /\ k_maps (kern st') = (a, L) :: k_maps (kern st))
  /\ head st' = head st /\ tail st' = tail st
  /\ (forall x, k_base (kern st) <= x < k_brk (kern st) ->
                mem st' x = mem st x)
  /\ (forall bl, heap_inv st bl -> heap_inv st' bl).
Proof.
  intros Hlen Hov L st' a.
  assert (H0 : 0 <= len) by (unfold LMEM_MMAP_TRESHOLD, LMEM_PAGESIZE in *; lia).
  destruct (page_round_no_overflow len H0 Hov) as [P1 P2].
  destruct (page_round_aligned len) as [P3 P4].
  fold L in P1, P2, P3, P4.
  pose proof (lmalloc_mmap_eq st len) as Eq. cbv zeta in Eq. fold L in Eq.
  assert (Ea : a = if (0 <? L)
                      && region_free (kern st) (k_maps (kern st))
                           (k_place (kern st) (k_maps (kern st)) L) L
                   then k_place (kern st) (k_maps (kern st)) L
                   else MAP_FAILED).
  { subst a. unfold sys_mmap. destruct (_ && _); reflexivity. }
  assert (Hframe : forall x, k_base (kern st) <= x < k_brk (kern st) ->
                     mem st' x = mem st x).
  { intros x Hx. subst st'. rewrite Eq.
    destruct ((0 <? L) && region_free _ _ _ L) eqn:E; [|reflexivity].
    apply andb_true_iff in E. destruct E as [E1 E2].
    apply Z.ltb_lt in E1. apply region_free_spec in E2.
    destruct E2 as (R1 & R2 & R3 & R4).
    cbn [fst mem]. unfold set_size, set_next, HDR, LMEM_PAGESIZE in *.
    rewrite !store64_out by lia. apply fill_bytes_out. lia. }
  split; [unfold rounds_up; auto|].
  split.
  { unfold lmalloc.
    assert (Et : (LMEM_MMAP_TRESHOLD <=? len) = true) by (apply Z.leb_le; lia).
    rewrite Et. reflexivity. }
  split.
  { intros Hf. rewrite Ea in Hf. rewrite Eq.
    destruct ((0 <? L) && region_free _ _ _ L) eqn:E; [|reflexivity].
    exfalso. apply andb_true_iff in E. destruct E as [_ E2].
    apply region_free_spec in E2. destruct E2 as (R1 & R2 & _).
    rewrite TASK_SIZE_val in R2. unfold MAP_FAILED, MINUS1 in Hf.
    rewrite WORD_val in Hf. unfold HDR, LMEM_PAGESIZE in *. lia. }
  split.
  { intros Hf. rewrite Ea in Hf. subst st'. rewrite Eq. rewrite Ea.
    destruct ((0 <? L) && region_free _ _ _ L) eqn:E;
      [|exfalso; apply Hf; reflexivity].
    apply andb_true_iff in E. destruct E as [E1 E2].
    apply Z.ltb_lt in E1. apply region_free_spec in E2.
    destruct E2 as (R1 & R2 & R3 & R4).
    rewrite TASK_SIZE_val in R2. unfold MIN_ADDR in R1.
    cbn [fst snd mem kern k_maps set_k_maps].
    unfold LMEM_NEXT_MMAP, HDR, LMEM_PAGESIZE in *.
    split; [reflexivity|]. split; [mem_solve|]. split; [mem_solve|].
    reflexivity. }
  assert (Eh : head st' = head st /\ tail st' = tail st
               /\ last_break st' = last_break st
               /\ k_base (kern st') = k_base (kern st)
               /\ k_brk (kern st') = k_brk (kern st)).
  { subst st'. rewrite Eq. destruct (_ && _); cbn; auto. }
  destruct Eh as (Eh1 & Eh2 & Eh3 & Eh4 & Eh5).
  split; [exact Eh1|]. split; [exact Eh2|]. split; [exact Hframe|].
  intros bl Hbl. eapply heap_inv_frame; eauto.
Qed.

Lemma lmalloc_mmap_path_witness :
  LMEM_MMAP_TRESHOLD <= 70000 /\ no_overflow 70000
  /\ rounds_up 70000 (page_round 70000)
  /\ lmalloc 8 demo_state 70000 = Some (lmalloc_mmap demo_state 70000)
  /\ page_round 70000 = 73728
  /\ snd (lmalloc_mmap demo_state 70000) = 1073741824 + HDR.
Proof.
  assert (H1 : LMEM_MMAP_TRESHOLD <= 70000) by (vm_compute; discriminate).
  assert (H2 : no_overflow 70000) by (vm_compute; reflexivity).
  destruct (lmalloc_mmap_path demo_state 70000 8 H1 H2) as (A & B & _).
  split; [exact H1|]. split; [exact H2|]. split; [exact A|].
  split; [exact B|]. split; vm_compute; reflexivity.
Defined.

(** ** C6: splitting *)

Lemma last_cons_default (l : list Z) : forall a d d',
  List.last (a :: l) d = List.last (a :: l) d'.
Proof.
  induction l as [|x l IH]; intros a d d'; [reflexivity|].
  change (List.last (x :: l) d = List.last (x :: l) d'). apply IH.
Qed.

Lemma last_app_cons (xs : list Z) y ys d :
  List.last (xs ++ y :: ys) d = List.last (y :: ys) d.
Proof.
  induction xs as [|x xs IH]; [reflexivity|].
  rewrite <- IH. simpl. destruct (xs ++ y :: ys) eqn:E; [|reflexivity].
  destruct xs; discriminate.
Qed.

Lemma dlseg_tail m bl : forall first prv nxt last,
  dlseg m first prv nxt last bl -> last = List.last bl prv.
Proof.
  induction bl as [|b bl IH]; intros first prv nxt last H.
  - simpl in H. simpl. tauto.
  - simpl in H. destruct H as (_ & _ & H). apply IH in H.
    rewrite H. destruct bl as [|z bl]; [reflexivity|].
    change (List.last (z :: bl) b = List.last (z :: bl) prv).
    apply last_cons_default.
Qed.

(** C6 fails for [size = 0], which [size < block.size] allows: the upper
    block is then the block itself.  On the demo heap the block B is in
    use; after a split at 0 its flag says free and its [next] is B. *)
Lemma lmem_split_block_zero :
  0 < get_size (mem demo_state) 16777376
  /\ get_isfree (mem demo_state) 16777376 = 0
  /\ get_isfree (mem (lmem_split_block demo_state 16777376 0)) 16777376
     <> get_isfree (mem demo_state) 16777376
  /\ get_isfree (mem (lmem_split_block demo_state 16777376 0)) 16777376 = 1
  /\ get_next (mem (lmem_split_block demo_state 16777376 0)) 16777376
     = 16777376.
Proof.
  split; [vm_compute; reflexivity|]. split; [vm_compute; reflexivity|].
  split; [vm_compute; discriminate|]. split; vm_compute; reflexivity.
Qed.

(** C6, amended.  For a listed block [b] and [1 <= size < b.size] the
    split leaves [b] with [size] units and its flag as it was, writes a
    free block [u] of the remaining units right behind it, links [u]
    between [b] and the former successor of [b] ([tail] becomes [u] when
    there was none), and the list with [u] inserted is again a doubly
    linked list in which every block ends where the next one starts. *)
Theorem lmem_split_block_spec st pre b post lo hi size :
  dlseg (mem st) (head st) NULL NULL (tail st) (pre ++ b :: post) ->
  contig (mem st) lo (pre ++ b :: post) hi ->
  0 < lo -> hi <= TASK_SIZE ->
  1 <= size < get_size (mem st) b ->
  let st' := lmem_split_block st b size in
  let u := b + HDR * size in
  get_size (mem st') b = size
  /\ get_isfree (mem st') b = get_isfree (mem st) b
  /\ u = ptr_add b size
  /\ get_isfree (mem st') u = 1
  /\ get_size (mem st') u = get_size (mem st) b - size
  /\ get_next (mem st') b = u
  /\ get_prev (mem st') u = b
  /\ get_next (mem st') u = get_next (mem st) b
  /\ (get_next (mem st) b <> NULL ->
        get_prev (mem st') (get_next (mem st) b) = u
        /\ tail st' = tail st)
  /\ (get_next (mem st) b = NULL -> tail st' = u)
  /\ head st' = head st
  /\ dlseg (mem st') (head st') NULL NULL (tail st') (pre ++ b :: u :: post)
  /\ contig (mem st') lo (pre ++ b :: u :: post) hi.
Proof.
  intros Hl Hc Hlo Hhi Hs.
  pose proof (split_spec st pre b post lo hi size Hl Hc Hlo Hhi Hs) as S.
  cbv zeta in *.
  destruct (contig_split _ _ _ _ _ _ Hc)
    as (Cpre & Sb & Cpost & Lb & Ub & Bpre & Bpost).
  pose proof (dlseg_next _ _ _ _ _ _ _ Hl) as Enext.
  pose proof (dlseg_tail _ _ _ _ _ _ Hl) as Etail.
  assert (Eu : b + HDR * size = ptr_add b size).
  { symmetry. apply ptr_add_small. rewrite TASK_SIZE_val in Hhi.
    unfold HDR in *. rewrite WORD_val. lia. }
  revert S. generalize (lmem_split_block st b size).
  intros st' (S1 & S2 & S3 & S4 & S5 & S6 & S7 & S8 & S9 & S10 & S11).
  pose proof (dlseg_tail _ _ _ _ _ _ S4) as Etail'.
  pose proof S4 as S4'.
  apply dlseg_app in S4'. destruct S4' as (mid & lastp & _ & L).
  cbn [dlseg] in L. destruct L as (_ & _ & L1 & L2 & L3).
  split; [exact S7|].
  split; [apply S9; apply in_or_app; simpl; auto|].
  split; [exact Eu|]. split; [exact S6|]. split; [exact S8|].
  split; [exact L1|]. split; [exact L2|].
  destruct post as [|n post].
  - cbn [dlseg] in L3. destruct L3 as [L3 L4].
    split; [congruence|].
    split; [intros Hn; congruence|].
    split; [intros _; exact L4|].
    auto.
  - cbn [dlseg] in L3. destruct L3 as (L3 & L4 & _).
    destruct (Bpost n (or_introl eq_refl)) as (? & ? & ?).
    split; [congruence|].
    split.
    { intros _. split; [rewrite Enext; exact L4|].
      rewrite Etail, Etail'. rewrite !last_app_cons. reflexivity. }
    split; [|auto].
    intros Hn. exfalso. rewrite Enext in Hn. unfold NULL, HDR in *. lia.
Qed.

Lemma lmem_split_block_spec_witness :
  1 <= 2 < get_size (mem demo_state) 16777216
  /\ get_size (mem (lmem_split_block demo_state 16777216 2)) 16777216 = 2
  /\ get_isfree (mem (lmem_split_block demo_state 16777216 2))
       (16777216 + HDR * 2) = 1
  /\ get_size (mem (lmem_split_block demo_state 16777216 2))
       (16777216 + HDR * 2)
     = get_size (mem demo_state) 16777216 - 2.
Proof.
  assert (H : 1 <= 2 < get_size (mem demo_state) 16777216).
  { vm_compute. split; [discriminate | reflexivity]. }
  split; [exact H|].
  destruct (lmem_split_block_spec demo_state [] 16777216
              [16777376; 16777472; 16777536] 16777216 16777600 2)
    as (H1 & _ & _ & H4 & H5 & _).
  - pose proof demo_state_inv as [[Hl _ _ _] _ _]. exact Hl.
  - cbn [contig app]. repeat split; vm_compute; congruence.
  - lia.
  - rewrite TASK_SIZE_val. lia.
  - exact H.
  - auto.
Defined.

(** ** C7: exhaustion *)

(** C7.  When no listed block fits and the break request fails,
    [lmalloc] returns null; the memory, and with it every header field of
    every block, [head] and [tail] are what they were, and the list still
    satisfies the invariant. *)
Theorem lmalloc_exhaustion st bl len fuel :
  alloc_inv st bl ->
  0 <= len < LMEM_MMAP_TRESHOLD ->
  Forall (fun y => fitsb (mem st) (block_units len) y = false) bl ->
  snd (new_memblk st (block_units len)) = MINUS1 ->
  (length bl < fuel)%nat ->
  exists st',
    lmalloc fuel st len = Some (st', NULL)
    /\ mem st' = mem st /\ head st' = head st /\ tail st' = tail st
    /\ (forall y,
          get_isfree (mem st') y = get_isfree (mem st) y
          /\ get_size (mem st') y = get_size (mem st) y
          /\ get_prev (mem st') y = get_prev (mem st) y
          /\ get_next (mem st') y = get_next (mem st) y)
    /\ (forall lo hi, contig (mem st) lo bl hi -> contig (mem st') lo bl hi)
    /\ alloc_inv st' bl.
Proof.
  intros Hinv Hlen Hno Hfail Hfuel.
  destruct (block_units_small len Hlen) as (_ & Hu & _).
  pose proof Hinv as [[Hl (lo & Hlo & Hc) Hn Hb] Hk Hm].
  pose proof Hk as [K1 _ _ _].
  unfold LMEM_MMAP_TRESHOLD, LMEM_PAGESIZE in K1.
  assert (Hnn : Forall (fun y => y <> NULL) bl).
  { eapply dlseg_nonnull; [exact Hl | exact Hc | lia]. }
  assert (Hg : negb (last_break st =? MINUS1)
               && brk_grants (kern st)
                    (k_brk (kern st) + HDR * block_units len) = false).
  { destruct (negb (last_break st =? MINUS1) && brk_grants _ _) eqn:E;
      [|reflexivity].
    rewrite (new_memblk_spec st bl (block_units len) Hb Hk ltac:(lia))
      in Hfail.
    cbv zeta in Hfail. rewrite E in Hfail. cbn [snd] in Hfail.
    destruct Hk as [_ K2 _ _]. rewrite TASK_SIZE_val in K2.
    unfold MINUS1 in Hfail. rewrite WORD_val in Hfail. lia. }
  exists (set_last_break st MINUS1).
  split.
  { unfold lmalloc.
    assert (Et : (LMEM_MMAP_TRESHOLD <=? len) = false)
      by (apply Z.leb_gt; lia).
    rewrite Et. rewrite (lmalloc_scan_none st _ bl fuel Hl); [| |exact Hfuel].
    - rewrite (lmalloc_new_block_fail st bl (block_units len) Hb Hk
                 ltac:(lia) Hg).
      reflexivity.
    - rewrite Forall_forall in *. intros y Hy. split; auto. }
  cbn [mem head tail set_last_break].
  split; [reflexivity|]. split; [reflexivity|]. split; [reflexivity|].
  split; [auto|]. split; [auto|].
  constructor; [|exact Hk|exact Hm].
  constructor; goal_simpl; auto.
  - exists lo. auto.
  - right. right. reflexivity.
Qed.

(** [full_state]: the only block is in use and the kernel is at its
    limit. *)
Lemma full_state_inv : alloc_inv full_state [16777216].
Proof.
  constructor.
  - constructor.
    + cbn [dlseg]. repeat split; vm_compute; reflexivity.
    + exists 16777216. split; [vm_compute; discriminate|].
      cbn [contig]. repeat split; vm_compute; congruence.
    + cbn [nofree2 used_next]. auto.
    + right. left. vm_compute. reflexivity.
  - assert (E : k_maps (kern full_state) = []) by (vm_compute; reflexivity).
    constructor; rewrite ?E.
    + vm_compute. discriminate.
    + split; vm_compute; discriminate.
    + constructor.
    + exact I.
  - unfold maps_inv.
    replace (k_maps (kern full_state)) with (@nil (Z * Z))
      by (vm_compute; reflexivity).
    constructor.
Qed.

Lemma lmalloc_exhaustion_witness :
  snd (new_memblk full_state (block_units 10)) = MINUS1
  /\ exists st',
       lmalloc 8 full_state 10 = Some (st', NULL)
       /\ mem st' = mem full_state
       /\ head st' = head full_state /\ tail st' = tail full_state.
Proof.
  split; [vm_compute; reflexivity|].
  destruct (lmalloc_exhaustion full_state [16777216] 10 8)
    as (st' & H1 & H2 & H3 & H4 & _).
  - exact full_state_inv.
  - unfold LMEM_MMAP_TRESHOLD, LMEM_PAGESIZE. lia.
  - constructor; [vm_compute; reflexivity | constructor].
  - vm_compute. reflexivity.
  - simpl. lia.
  - exists st'. auto.
Defined.

(** ** C8: zero-filled allocation *)

(** C8 fails when the product is within a page of the largest [size_t]:
    [lcalloc (2^64 - 1, 1)] on the first call gets a mapping of one page
    from [lmalloc] (the rounding wraps) and then fills [2^64 - 1] bytes
    from the pointer on, far past the mapping: the call does not
    return. *)
Lemma lcalloc_fill_past_mapping :
  wrap ((WORD - 1) * 1) = WORD - 1
  /\ ~ no_overflow (WORD - 1)
  /\ option_map snd (lmalloc 1 (state0 0) (WORD - 1))
     = Some (1073741824 + HDR)
  /\ option_map (fun p => k_maps (kern (fst p)))
       (lmalloc 1 (state0 0) (WORD - 1))
     = Some [(1073741824, LMEM_PAGESIZE)]
  /\ mapped_range (kern (after (lmalloc 1 (state0 0) (WORD - 1))))
       (1073741824 + HDR) (WORD - 1) = false
  /\ lcalloc 1 (state0 0) (WORD - 1) 1 = Some Killed.
Proof.
  split; [reflexivity|]. split.
  { unfold no_overflow, HDR, LMEM_PAGESIZE. rewrite WORD_val. lia. }
  repeat split; vm_compute; reflexivity.
Qed.

(** C8, amended.  [lcalloc] calls [lmalloc] with the product of its
    arguments as the multiplication in [size_t] gives it.  When that size
    does not wrap around once header and page rounding are added:
    if [lmalloc] returns null so does [lcalloc], in the very state
    [lmalloc] left; otherwise [lcalloc] returns the same pointer, every
    byte of the [size] bytes from it on reads zero, no other byte differs
    from what [lmalloc] left, and the region is the caller's. *)
Theorem lcalloc_zero_fill st bl nlen len fuel :
  alloc_inv st bl -> no_overflow (wrap (nlen * len)) ->
  (length bl < fuel)%nat ->
  let size := wrap (nlen * len) in
  exists st1 r,
    lmalloc fuel st size = Some (st1, r)
    /\ (r = NULL -> lcalloc fuel st nlen len = Some (Done (st1, NULL)))
    /\ (r <> NULL ->
        exists st' bl',
          lcalloc fuel st nlen len = Some (Done (st', r))
          /\ (forall i, 0 <= i < size -> mem st' (r + i) = 0)
          /\ (forall x, x < r \/ r + size <= x -> mem st' x = mem st1 x)
          /\ head st' = head st1 /\ tail st' = tail st1
          /\ last_break st' = last_break st1 /\ kern st' = kern st1
          /\ alloc_inv st' bl' /\ usable st' bl' r size).
Proof.
  intros Hinv Hov Hfuel. cbv zeta. unfold lcalloc.
  pose proof (wrap_range (nlen * len)) as Hr.
  revert Hov Hr. generalize (wrap (nlen * len)). intros size Hov Hr.
  destruct (lmalloc_spec st bl size fuel Hinv Hr Hfuel)
    as (st1 & r & bl1 & E & P1 & P2 & P3 & P4).
  exists st1, r. rewrite E. split; [reflexivity|]. split.
  - intros ->. reflexivity.
  - intros Hnn.
    assert (Er : (r =? NULL) = false) by (apply Z.eqb_neq; exact Hnn).
    rewrite Er. cbn [negb].
    destruct (P4 Hnn Hov) as [U _].
    unfold memset. rewrite (usable_mapped st1 bl1 _ _ P1 U).
    exists (set_mem st1 (fill_bytes (mem st1) r 0 size)), bl1.
    split; [reflexivity|]. cbn [mem head tail last_break kern set_mem].
    split; [intros i Hi; rewrite fill_bytes_in by lia; reflexivity|].
    split; [intros x Hx; apply fill_bytes_out; exact Hx|].
    split; [reflexivity|]. split; [reflexivity|].
    split; [reflexivity|]. split; [reflexivity|].
    split.
    + eapply write_payload_inv; [exact P1 | exact U |].
      intros x Hx. apply fill_bytes_out. exact Hx.
    + destruct U as [(c & Hc1 & -> & Hl1) | (a & L & Ha & -> & Hl1)].
      * left. exists c. split; [exact Hc1|]. split; [reflexivity|].
        cbn [mem set_mem]. unfold get_size in *.
        rewrite load64_fill_bytes_out; [exact Hl1 | unfold HDR; lia].
      * right. exists a, L. auto.
Qed.

(** [lcalloc (3, 10)] on the demo heap: 30 zero bytes in block A. *)
Lemma lcalloc_zero_fill_witness :
  exists st',
    lcalloc 8 demo_state 3 10 = Some (Done (st', 16777216 + HDR))
    /\ forall i, 0 <= i < 30 -> mem st' (16777216 + HDR + i) = 0.
Proof.
  assert (Ew : wrap (3 * 10) = 30) by reflexivity.
  destruct (lcalloc_zero_fill demo_state demo_blocks 3 10 8)
    as (st1 & r & H1 & _ & H3).
  - exact demo_state_inv.
  - rewrite Ew. unfold no_overflow, HDR, LMEM_PAGESIZE. rewrite WORD_val. lia.
  - unfold demo_blocks. simpl. lia.
  - rewrite Ew in *.
    assert (Er : option_map snd (lmalloc 8 demo_state 30)
                 = Some (16777216 + HDR)) by (vm_compute; reflexivity).
    rewrite H1 in Er. cbn [option_map snd] in Er. injection Er as ->.
    destruct H3 as (st' & bl' & Q1 & Q2 & _).
    { unfold NULL, HDR. lia. }
    exists st'. split; [exact Q1 | exact Q2].
Defined.

(** ** C9: null pointers *)

(** C9.  [lfree] of the null pointer returns the state it was given,
    whatever the memory holds; [lrealloc] of the null pointer is [lmalloc]
    of the requested length, which at or above the threshold is the mapping
    branch. *)
Theorem null_pointer_operations fuel st len :
  lfree st NULL = st
  /\ lrealloc fuel st NULL len = option_map Done (lmalloc fuel st len)
  /\ lrealloc fuel st NULL len
     = if LMEM_MMAP_TRESHOLD <=? len then Some (Done (lmalloc_mmap st len))
       else option_map Done
              (lmalloc_scan fuel st (head st) (block_units len)).
Proof.
  split; [reflexivity|]. split; [reflexivity|].
  unfold lrealloc, lmalloc. cbn [NULL]. rewrite Z.eqb_refl.
  destruct (LMEM_MMAP_TRESHOLD <=? len); reflexivity.
Qed.

(** ** C10: the size of a mapping-resident block *)

(** C10.  In a state that satisfies the invariant the header of every live
    mapping is tagged and records the length of the mapping, a positive
    number of pages.  A successful [lmalloc] on the mapping branch adds a
    mapping of [page_round len] bytes and records that length; a successful
    [lrealloc] of a mapping-resident block replaces its mapping by one of
    [page_round len] bytes and records that length at the new base;
    [lfree] of a mapping-resident block passes the recorded length to
    [munmap], which removes that mapping and no other.  All of them, and
    every other operation that returns, keep the invariant; the one call
    that may not return is [lrealloc] of a heap block that is not in use
    or whose payload is smaller than the new length, when the bytes to
    copy from the old pointer on are not all mapped. *)
Theorem mapping_size_invariant st bl :
  alloc_inv st bl ->
  (forall a L,
      In (a, L) (k_maps (kern st)) ->
      get_next (mem st) a = LMEM_NEXT_MMAP
      /\ get_size (mem st) a = L
      /\ LMEM_PAGESIZE <= L /\ L mod LMEM_PAGESIZE = 0)
  /\ (forall len,
        0 <= len ->
        snd (lmalloc_mmap st len) <> NULL ->
        exists a,
          snd (lmalloc_mmap st len) = a + HDR
          /\ k_maps (kern (fst (lmalloc_mmap st len)))
             = (a, page_round len) :: k_maps (kern st)
          /\ get_size (mem (fst (lmalloc_mmap st len))) a = page_round len
          /\ alloc_inv (fst (lmalloc_mmap st len)) bl)
  /\ (forall fuel a L len,
        In (a, L) (k_maps (kern st)) ->
        lrealloc fuel st (a + HDR) len = Some (Done (lrealloc_mmap st a len))
        /\ (snd (lrealloc_mmap st a len) = NULL ->
              fst (lrealloc_mmap st a len) = st)
        /\ (snd (lrealloc_mmap st a len) <> NULL ->
            exists a1,
              snd (lrealloc_mmap st a len) = a1 + HDR
              /\ k_maps (kern (fst (lrealloc_mmap st a len)))
                 = (a1, page_round len)
                   :: filter (fun r => negb (region_eqb (a, L) r))
                        (k_maps (kern st))
              /\ get_size (mem (fst (lrealloc_mmap st a len))) a1
                 = page_round len
              /\ alloc_inv (fst (lrealloc_mmap st a len)) bl))
  /\ (forall a L,
        In (a, L) (k_maps (kern st)) ->
        lfree st (a + HDR) = set_kern st (sys_munmap (kern st) a L)
        /\ k_maps (kern (lfree st (a + HDR)))
           = filter (fun r => negb (region_eqb (a, L) r)) (k_maps (kern st))
        /\ alloc_inv (lfree st (a + HDR)) bl)
  /\ (forall fuel len,
        0 <= len < WORD -> (length bl < fuel)%nat ->
        exists st' r bl',
          lmalloc fuel st len = Some (st', r)
          /\ alloc_inv st' bl' /\ maps_inv st')
  /\ (forall fuel nlen len,
        no_overflow (wrap (nlen * len)) -> (length bl < fuel)%nat ->
        exists st' r bl',
          lcalloc fuel st nlen len = Some (Done (st', r))
          /\ alloc_inv st' bl' /\ maps_inv st')
  /\ (forall fuel addr len,
        valid_ptr st bl addr -> 0 <= len < WORD -> no_overflow len ->
        (length bl < fuel)%nat ->
        (exists st' r bl',
            lrealloc fuel st addr len = Some (Done (st', r))
            /\ alloc_inv st' bl' /\ maps_inv st')
        \/ (lrealloc fuel st addr len = Some Killed
            /\ exists b,
                 In b bl /\ addr = b + HDR
                 /\ (get_isfree (mem st) b <> 0
                     \/ HDR * (get_size (mem st) b - 1) < len)
                 /\ exists st1 r,
                      lmalloc fuel st len = Some (st1, r) /\ r <> NULL
                      /\ mapped_range (kern st1) addr len = false))
  /\ (forall addr,
        valid_ptr st bl addr ->
        exists bl',
          alloc_inv (lfree st addr) bl' /\ maps_inv (lfree st addr)).
Proof.
  intros Hinv.
  assert (N : forall s l, alloc_inv s l -> maps_inv s).
  { intros s l [_ _ H]. exact H. }
  pose proof Hinv as [Hh Hk Hm].
  unfold maps_inv in Hm. rewrite Forall_forall in Hm.
  split; [|split; [|split; [|split; [|split; [|split; [|split]]]]]].
  - intros a L Hin. destruct (Hm _ Hin) as (M1 & M2 & M3 & M4). auto.
  - intros len Hlen Hr.
    pose proof (lmalloc_mmap_eq st len) as Eq. cbv zeta in Eq.
    destruct ((0 <? page_round len) && region_free _ _ _ _) eqn:E.
    + destruct (lmalloc_mmap_inv st bl len Hinv E) as [I _].
      assert (PR : 0 <= page_round len < WORD) by apply page_round_aligned.
      apply andb_true_iff in E. destruct E as [E1 E2].
      apply region_free_spec in E2. destruct E2 as (R1 & R2 & _).
      revert I. rewrite Eq. cbn [fst snd mem kern k_maps set_k_maps].
      intros I.
      exists (k_place (kern st) (k_maps (kern st)) (page_round len)).
      split; [reflexivity|]. split; [reflexivity|]. split; [|exact I].
      unfold get_size, set_size. apply load64_store64_same. exact PR.
    + exfalso. apply Hr. rewrite Eq. reflexivity.
  - intros fuel a L len Hin.
    destruct (Hm _ Hin) as (M1 & M2 & M3 & M4). cbn [fst snd] in M1, M2.
    split; [apply (lrealloc_mapped_eq fuel st bl a L len Hinv Hin)|].
    pose proof (lrealloc_mmap_eq st a L len Hin M2) as Eq. cbv zeta in Eq.
    destruct ((0 <? page_round len) && region_free _ _ _ _) eqn:E.
    + destruct (lrealloc_mmap_inv st bl a L len Hinv Hin E)
        as (I1 & I2 & I3 & I4).
      apply andb_true_iff in E. destruct E as [E1 E2].
      apply region_free_spec in E2. destruct E2 as (R1 & R2 & _).
      unfold MIN_ADDR in R1.
      split.
      * intros Hr. exfalso. rewrite Eq in Hr. cbn [snd] in Hr.
        unfold NULL, HDR in Hr. lia.
      * intros _.
        exists (k_place (kern st)
                  (filter (fun r => negb (region_eqb (a, L) r))
                     (k_maps (kern st))) (page_round len)).
        split; [rewrite Eq; reflexivity|]. auto.
    + rewrite Eq. cbn [fst snd]. split; [reflexivity|].
      intros Hr. exfalso. apply Hr. reflexivity.
  - intros a L Hin.
    destruct (lfree_mapped_spec st bl a L Hinv Hin) as (F1 & F2 & F3 & F4).
    rewrite F2 in F1. auto.
  - intros fuel len Hlen Hfuel.
    destruct (lmalloc_spec st bl len fuel Hinv Hlen Hfuel)
      as (st' & r & bl' & E & P & _).
    exists st', r, bl'. eauto.
  - intros fuel nlen len Hov Hfuel.
    destruct (lcalloc_spec st bl nlen len fuel Hinv Hov Hfuel)
      as (st' & r & bl' & E & P).
    exists st', r, bl'. eauto.
  - intros fuel addr len Hv Hlen Hov Hfuel.
    destruct (lrealloc_spec st bl addr len fuel Hinv Hv Hlen Hov Hfuel)
      as [(st' & r & bl' & E & P) | K].
    + left. exists st', r, bl'. eauto.
    + right. exact K.
  - intros addr Hv.
    destruct (lfree_spec st bl addr Hinv Hv) as (bl' & P & _).
    exists bl'. eauto.
Qed.

Lemma mapped_state_inv : alloc_inv mapped_state demo_blocks.
Proof.
  destruct (lmalloc_mmap_inv demo_state demo_blocks 70000 demo_state_inv) as [H _].
  - vm_compute. reflexivity.
  - exact H.
Qed.

Lemma mapping_size_invariant_witness :
  In (1073741824, 73728) (k_maps (kern mapped_state))
  /\ get_size (mem mapped_state) 1073741824 = 73728
  /\ lfree mapped_state (1073741824 + HDR)
     = set_kern mapped_state
         (sys_munmap (kern mapped_state) 1073741824 73728)
  /\ k_maps (kern (lfree mapped_state (1073741824 + HDR))) = [].
Proof.
  assert (Hin : In (1073741824, 73728) (k_maps (kern mapped_state))).
  { replace (k_maps (kern mapped_state)) with [(1073741824, 73728)]
      by (vm_compute; reflexivity).
    left. reflexivity. }
  destruct (mapping_size_invariant mapped_state demo_blocks mapped_state_inv)
    as (H1 & _ & _ & H4 & _).
  destruct (H1 _ _ Hin) as (_ & S & _).
  destruct (H4 _ _ Hin) as (F1 & F2 & _).
  split; [exact Hin|]. split; [exact S|]. split; [exact F1|].
  rewrite F2. vm_compute. reflexivity.
Defined.

(** * Part V: further properties of the code *)

(** ** The further concrete runs satisfy the invariant *)


Lemma refused_state_inv : alloc_inv refused_state [16777216].
Proof.
  constructor.
  - constructor.
    + cbn [dlseg]. repeat split; vm_compute; reflexivity.
    + exists 16777216. split; [vm_compute; discriminate|].
      cbn [contig]. repeat split; vm_compute; congruence.
    + cbn [nofree2 used_next]. auto.
    + right. right. vm_compute. reflexivity.
  - assert (E : k_maps (kern refused_state) = []) by (vm_compute; reflexivity).
    constructor; rewrite ?E.
    + vm_compute. discriminate.
    + split; vm_compute; discriminate.
    + constructor.
    + exact I.
  - unfold maps_inv.
    replace (k_maps (kern refused_state)) with (@nil (Z * Z))
      by (vm_compute; reflexivity).
    constructor.
Qed.

Ltac thr_range := unfold LMEM_MMAP_TRESHOLD, LMEM_PAGESIZE; lia.
Ltac word_bound := rewrite WORD_val; lia.

(** ** What [lmalloc] does to the kernel's side of the state *)

(** A heap request leaves the mappings alone and never lowers the break; a
    mapping request adds one mapping and leaves the break alone.  Either
    way the bytes of the mappings that exist stay as they are, and a
    non-null result lies off every one of them. *)
Lemma lmalloc_kernel_frame st bl len fuel st' r :
  alloc_inv st bl -> 0 <= len < WORD -> (length bl < fuel)%nat ->
  lmalloc fuel st len = Some (st', r) ->
  k_base (kern st') = k_base (kern st)
  /\ k_brk (kern st) <= k_brk (kern st')
  /\ (forall a L, In (a, L) (k_maps (kern st)) ->
        In (a, L) (k_maps (kern st'))
        /\ (forall x, a <= x < a + L -> mem st' x = mem st x)
        /\ (r <> NULL -> no_overflow len -> r + len <= a \/ a + L <= r)).
Proof.
  intros Hinv Hlen Hfuel E.
  pose proof Hinv as [[Hl (lo & Hlo & Hc) Hn Hb] Hk Hm].
  pose proof Hk as [K1 K2 K3 K4].
  unfold LMEM_MMAP_TRESHOLD, LMEM_PAGESIZE in K1.
  rewrite Forall_forall in K3.
  unfold lmalloc in E.
  destruct (LMEM_MMAP_TRESHOLD <=? len) eqn:Et.
  - (* the mapping branch *)
    apply Z.leb_le in Et.
    pose proof (lmalloc_mmap_eq st len) as Eq. cbv zeta in Eq.
    destruct ((0 <? page_round len)
              && region_free (kern st) (k_maps (kern st))
                   (k_place (kern st) (k_maps (kern st)) (page_round len))
                   (page_round len)) eqn:Eg.
    + destruct (lmalloc_mmap_inv st bl len Hinv Eg) as [_ I2].
      apply andb_true_iff in Eg. destruct Eg as [E1 E2].
      apply Z.ltb_lt in E1. apply region_free_spec in E2.
      destruct E2 as (R1 & R2 & R3 & R4). rewrite Forall_forall in R4.
      revert I2. rewrite Eq in *. injection E as <- <-.
      cbn [fst snd mem kern k_base k_brk k_maps set_k_maps]. intros I2.
      split; [reflexivity|]. split; [lia|].
      intros a L Ha. specialize (R4 _ Ha). unfold apart in R4.
      cbn [fst snd] in R4.
      split; [simpl; auto|]. split.
      * intros x Hx. apply I2. lia.
      * intros _ Hov.
        destruct (page_round_no_overflow len ltac:(lia) Hov) as [P1 P2].
        unfold HDR in *. lia.
    + rewrite Eq in E. injection E as <- <-.
      split; [reflexivity|]. split; [lia|].
      intros a L Ha. split; [exact Ha|]. split; [reflexivity|].
      intros Hr. exfalso. apply Hr. reflexivity.
  - (* the heap branch *)
    apply Z.leb_gt in Et.
    destruct (block_units_small len ltac:(lia)) as (_ & Hu & Hul).
    assert (Hnn : Forall (fun y => y <> NULL) bl).
    { eapply dlseg_nonnull; [exact Hl | exact Hc | lia]. }
    rewrite Forall_forall in Hnn.
    destruct (first_fit_dec (mem st) (block_units len) bl)
      as [Hno | (pre & b & post & -> & Hno & Hfit)].
    + (* no block fits *)
      rewrite (lmalloc_scan_none st _ bl fuel Hl) in E; [| |exact Hfuel].
      2:{ rewrite Forall_forall in *. intros y Hy. split; auto. }
      destruct (negb (last_break st =? MINUS1)
                && brk_grants (kern st)
                     (k_brk (kern st) + HDR * block_units len)) eqn:Hg.
      * pose proof (append_spec st bl (block_units len) Hinv ltac:(lia) Hg)
          as A.
        pose proof (lmalloc_new_block_ok st bl (block_units len) Hb Hk
                      ltac:(lia) Hg) as Eq.
        cbv zeta in A, Eq.
        apply andb_true_iff in Hg. destruct Hg as [_ Hg].
        apply brk_grants_spec in Hg. destruct Hg as [Gx Gm].
        rewrite Forall_forall in Gm.
        revert A. rewrite Eq in *. injection E as <- <-. cbn [fst snd].
        intros (A1 & A2 & A3 & A4 & A5 & A6 & A7).
        cbn [mem kern k_base k_brk k_maps set_k_brk] in *.
        destruct A2 as [[_ (lo' & Hlo' & Hc') _ _] _ _].
        cbn [mem kern k_base k_brk k_maps set_k_brk] in *.
        split; [reflexivity|]. split; [unfold HDR; lia|].
        intros a L Ha. destruct (K3 _ Ha) as (M1 & M2 & M3 & M4).
        specialize (Gm _ Ha). cbn [fst snd] in *.
        split; [exact Ha|]. split.
        -- intros x Hx.
           apply (only_headers_outside _ _ _ lo' _ Hc' A6). lia.
        -- intros _ _. unfold HDR in *. lia.
      * rewrite (lmalloc_new_block_fail st bl (block_units len) Hb Hk
                   ltac:(lia) Hg) in E.
        injection E as <- <-. goal_simpl.
        split; [reflexivity|]. split; [lia|].
        intros a L Ha. split; [exact Ha|]. split; [reflexivity|].
        intros Hr. exfalso. apply Hr. reflexivity.
    + (* the block [b] is the first that fits *)
      assert (Ib : In b (pre ++ b :: post)) by (apply in_or_app; simpl; auto).
      rewrite (lmalloc_scan_found st _ pre b post fuel Hl) in E; auto.
      2:{ rewrite Forall_forall in *. intros y Hy. split; auto.
          apply Hnn. apply in_or_app. auto. }
      2:{ rewrite length_app in Hfuel. simpl in Hfuel. lia. }
      apply fitsb_true in Hfit. destruct Hfit as [Hf Hsz].
      pose proof (take_block_spec st pre b post (block_units len) Hinv Hf
                    ltac:(lia)) as T.
      cbv zeta in T.
      destruct (contig_In _ _ _ _ b Hc Ib) as (B1 & B2 & B3).
      rewrite TASK_SIZE_val in K2.
      assert (Eb : ptr_add b 1 = b + HDR).
      { apply ptr_add_small. unfold HDR in *. rewrite WORD_val. lia. }
      rewrite Eb in E. injection E as <- <-.
      revert T. generalize (take_block st b (block_units len)).
      intros st' (T1 & T2 & T3 & T4 & T5 & T6 & _).
      destruct T1 as [[_ (lo' & Hlo' & Hc') _ _] _ _].
      rewrite T6 in *.
      split; [reflexivity|]. split; [lia|].
      intros a L Ha. destruct (K3 _ Ha) as (M1 & M2 & M3 & M4).
      cbn [fst snd] in *.
      split; [exact Ha|]. split.
      * intros x Hx.
        apply (only_headers_outside _ _ _ lo' _ Hc' T5). lia.
      * intros _ _. unfold HDR in *. lia.
Qed.

(** ** Growing the heap *)

(** X1.  When no listed block fits a request below the mapping threshold
    and the kernel grants the new break, [lmalloc] places a block of
    exactly the requested number of units at the old break, in use,
    linked behind the old tail (which now points to it) and with no
    successor; it becomes the tail, and the head as well when the list was
    empty.  The break and its cached copy move up by the size of the
    block, and the pointer behind the new header is returned. *)
Theorem lmalloc_appends_block st bl len fuel :
  alloc_inv st bl ->
  0 <= len < LMEM_MMAP_TRESHOLD ->
  Forall (fun y => fitsb (mem st) (block_units len) y = false) bl ->
  last_break st <> MINUS1 ->
  brk_grants (kern st) (k_brk (kern st) + HDR * block_units len) = true ->
  (length bl < fuel)%nat ->
  let b := k_brk (kern st) in
  exists st',
    lmalloc fuel st len = Some (st', b + HDR)
    /\ k_brk (kern st') = b + HDR * block_units len
    /\ last_break st' = k_brk (kern st')
    /\ get_isfree (mem st') b = 0
    /\ get_size (mem st') b = block_units len
    /\ get_prev (mem st') b = tail st
    /\ get_next (mem st') b = NULL
    /\ tail st' = b
    /\ head st' = (if head st =? NULL then b else head st)
    /\ (tail st <> NULL -> get_next (mem st') (tail st) = b)
    /\ (forall x, ~ b <= x < b + HDR ->
                  ~ (tail st <> NULL /\ tail st + 24 <= x < tail st + HDR) ->
                  mem st' x = mem st x)
    /\ alloc_inv st' (bl ++ [b]).
Proof.
  intros Hinv Hlen Hno Hlb Hg Hfuel b.
  pose proof Hinv as [[Hl (lo & Hlo & Hc) Hn Hb] Hk Hm].
  pose proof Hk as [K1 K2 K3 K4].
  unfold LMEM_MMAP_TRESHOLD, LMEM_PAGESIZE in K1.
  destruct (block_units_small len Hlen) as (_ & Hu & _).
  assert (Hnn : Forall (fun y => y <> NULL) bl).
  { eapply dlseg_nonnull; [exact Hl | exact Hc | lia]. }
  assert (Hg' : negb (last_break st =? MINUS1)
                && brk_grants (kern st)
                     (k_brk (kern st) + HDR * block_units len) = true).
  { rewrite Hg. apply andb_true_iff. split; [|reflexivity].
    apply negb_true_iff. apply Z.eqb_neq. exact Hlb. }
  pose proof (append_spec st bl (block_units len) Hinv ltac:(lia) Hg') as A.
  pose proof (lmalloc_new_block_ok st bl (block_units len) Hb Hk
                ltac:(lia) Hg') as Eq.
  cbv zeta in A, Eq. fold b in A, Eq.
  exists (fst (lmalloc_new_block st (block_units len))).
  destruct A as (A1 & A2 & A3 & A4 & _).
  split.
  { unfold lmalloc.
    assert (Et : (LMEM_MMAP_TRESHOLD <=? len) = false) by (apply Z.leb_gt; lia).
    rewrite Et. rewrite (lmalloc_scan_none st _ bl fuel Hl); [| |exact Hfuel].
    - rewrite <- A1. rewrite <- surjective_pairing. reflexivity.
    - rewrite Forall_forall in *. intros y Hy. split; auto. }
  split; [rewrite Eq; reflexivity|].
  split; [rewrite Eq; reflexivity|].
  split; [exact A3|]. split; [exact A4|].
  assert (Sep : forall y, In y bl -> 0 < y /\ y + HDR <= b).
  { intros y Hy. destruct (contig_In _ _ _ _ _ Hc Hy) as (? & ? & ?).
    fold b in H1. unfold HDR in *. lia. }
  rewrite TASK_SIZE_val in K2. fold b in K2.
  assert (Ht : tail st = NULL \/ In (tail st) bl).
  { destruct (list_end bl) as [-> | (bl' & t & ->)].
    - left. simpl in Hl. tauto.
    - right. destruct (dlseg_last _ _ _ _ _ _ _ Hl) as [-> _].
      apply in_or_app. simpl. auto. }
  assert (Hh : (head st =? NULL) = true <-> tail st = NULL).
  { destruct bl as [|h bl'].
    - simpl in Hl. destruct Hl as [-> ->]. rewrite Z.eqb_refl. tauto.
    - pose proof Hl as Hl'. simpl in Hl'. destruct Hl' as (-> & _).
      rewrite Forall_forall in Hnn.
      destruct (list_end (h :: bl')) as [Ee | (bl'' & t & Ee)];
        [discriminate|].
      rewrite Ee in Hl. destruct (dlseg_last _ _ _ _ _ _ _ Hl) as [-> _].
      assert (In t (h :: bl')) by (rewrite Ee; apply in_or_app; simpl; auto).
      split; intros Hx.
      + apply Z.eqb_eq in Hx. exfalso. apply (Hnn h); simpl; auto.
      + exfalso. apply (Hnn t); auto. }
  rewrite Eq. cbn [fst mem head tail].
  destruct Ht as [Ht | Ht].
  - rewrite Ht. rewrite Z.eqb_refl. unfold NULL.
    split; [mem_solve|]. split; [mem_solve|]. split; [reflexivity|].
    split; [reflexivity|]. split; [intros Hx; exfalso; apply Hx; reflexivity|].
    split.
    + intros x Hx _. unfold set_next, set_prev, set_size, set_isfree, HDR in *.
      rewrite !store64_out by lia. reflexivity.
    + rewrite Eq in A2. cbn [fst] in A2. rewrite Ht in A2.
      rewrite Z.eqb_refl in A2. exact A2.
  - destruct (Sep _ Ht) as [T1 T2].
    assert (Nt : (tail st =? NULL) = false)
      by (apply Z.eqb_neq; unfold NULL; lia).
    rewrite Nt.
    assert (Nh : (head st =? NULL) = false).
    { apply not_true_is_false. intros Eh. apply Hh in Eh.
      unfold NULL in *. lia. }
    rewrite Nh. unfold NULL.
    split; [mem_solve|]. split; [mem_solve|]. split; [reflexivity|].
    split; [reflexivity|]. split; [intros _; mem_solve|].
    split.
    + intros x Hx Hx'.
      unfold set_next, set_prev, set_size, set_isfree, HDR, NULL in *.
      rewrite !store64_out by lia. reflexivity.
    + rewrite Eq in A2. cbn [fst] in A2. rewrite Nt, Nh in A2. exact A2.
Qed.

(** On the demo heap a request of 200 bytes (8 units) fits neither A nor
    C: the heap grows by 256 bytes and the new block follows D. *)
Lemma lmalloc_appends_block_witness :
  exists st',
    lmalloc 8 demo_state 200 = Some (st', 16777600 + HDR)
    /\ k_brk (kern st') = 16777856
    /\ tail st' = 16777600
    /\ get_prev (mem st') 16777600 = 16777536
    /\ get_next (mem st') 16777536 = 16777600.
Proof.
  assert (Eb : k_brk (kern demo_state) = 16777600) by (vm_compute; reflexivity).
  assert (Et : tail demo_state = 16777536) by (vm_compute; reflexivity).
  assert (Eu : block_units 200 = 8) by reflexivity.
  destruct (lmalloc_appends_block demo_state demo_blocks 200 8)
    as (st' & H1 & H2 & _ & _ & _ & H6 & _ & H8 & _ & H10 & _).
  - exact demo_state_inv.
  - thr_range.
  - repeat (constructor; [vm_compute; reflexivity|]). constructor.
  - vm_compute. discriminate.
  - vm_compute. reflexivity.
  - simpl. lia.
  - rewrite Eb, ?Et, ?Eu in *. exists st'.
    split; [exact H1|]. split; [rewrite H2; reflexivity|].
    split; [exact H8|]. split; [exact H6|].
    apply H10. discriminate.
Defined.

(** ** What a successful allocation may be used for *)

(** X2.  A non-null result of [lmalloc] points behind the header of a
    listed block, or of a live mapping, that holds [len] bytes from there
    on; these bytes overlap no block that was in use and no mapping that
    existed.  The call leaves every block that was in use listed, in use,
    of the same size and with the same payload bytes, and every mapping
    that existed live with the same bytes. *)
Theorem lmalloc_result_is_fresh st bl len fuel :
  alloc_inv st bl -> 0 <= len < WORD -> no_overflow len ->
  (length bl < fuel)%nat ->
  exists st' r bl',
    lmalloc fuel st len = Some (st', r)
    /\ alloc_inv st' bl'
    /\ (r <> NULL ->
          ((exists b, In b bl' /\ r = b + HDR
                      /\ len <= HDR * (get_size (mem st') b - 1))
           \/ (exists a L, In (a, L) (k_maps (kern st')) /\ r = a + HDR
                           /\ len + HDR <= L))
          /\ (forall y, In y bl -> get_isfree (mem st) y = 0 ->
                r + len <= y \/ y + HDR * get_size (mem st) y <= r)
          /\ (forall a L, In (a, L) (k_maps (kern st)) ->
                r + len <= a \/ a + L <= r))
    /\ (forall y, In y bl -> get_isfree (mem st) y = 0 ->
          In y bl'
          /\ get_isfree (mem st') y = 0
          /\ get_size (mem st') y = get_size (mem st) y
          /\ forall x, y + HDR <= x < y + HDR * get_size (mem st) y ->
                       mem st' x = mem st x)
    /\ (forall a L, In (a, L) (k_maps (kern st)) ->
          In (a, L) (k_maps (kern st'))
          /\ forall x, a <= x < a + L -> mem st' x = mem st x).
Proof.
  intros Hinv Hlen Hov Hfuel.
  destruct (lmalloc_spec st bl len fuel Hinv Hlen Hfuel)
    as (st' & r & bl' & E & P1 & P2 & P3 & P4).
  destruct (lmalloc_kernel_frame st bl len fuel st' r Hinv Hlen Hfuel E)
    as (_ & _ & F).
  exists st', r, bl'. split; [exact E|]. split; [exact P1|].
  split; [|split].
  - intros Hr. destruct (P4 Hr Hov) as [U D].
    split; [exact U|]. split; [exact D|].
    intros a L Ha. destruct (F a L Ha) as (_ & _ & F3). auto.
  - intros y Hy Hy0. destruct (P3 y Hy Hy0) as (Q1 & Q2 & Q3). auto.
  - intros a L Ha. destruct (F a L Ha) as (F1 & F2 & _). auto.
Qed.

(** On the demo heap a request of 10 bytes leaves the blocks in use, B
    among them, as they are, and its result lies off B. *)
Lemma lmalloc_result_is_fresh_witness :
  exists st' r,
    lmalloc 8 demo_state 10 = Some (st', r)
    /\ get_isfree (mem st') 16777376 = 0
    /\ get_size (mem st') 16777376 = get_size (mem demo_state) 16777376
    /\ (r <> NULL ->
        r + 10 <= 16777376
        \/ 16777376 + HDR * get_size (mem demo_state) 16777376 <= r).
Proof.
  destruct (lmalloc_result_is_fresh demo_state demo_blocks 10 8)
    as (st' & r & bl' & H1 & _ & H3 & H4 & _).
  - exact demo_state_inv.
  - word_bound.
  - unfold no_overflow, HDR, LMEM_PAGESIZE. word_bound.
  - simpl. lia.
  - assert (Hb : In 16777376 demo_blocks) by (simpl; auto).
    assert (Hu : get_isfree (mem demo_state) 16777376 = 0)
      by (vm_compute; reflexivity).
    destruct (H4 _ Hb Hu) as (_ & Q1 & Q2 & _).
    exists st', r. split; [exact H1|]. split; [exact Q1|].
    split; [exact Q2|].
    intros Hr. destruct (H3 Hr) as (_ & D & _). exact (D _ Hb Hu).
Defined.

(** X3.  The bytes [lmalloc] hands out are the process's own: for a
    request that does not wrap around, every one of the [len] bytes from
    a non-null result on lies in the heap segment below the break or in
    a live mapping.  The range is mapped, and a [memset] of [len] bytes
    to the result does not fault. *)
Theorem lmalloc_result_mapped st bl len fuel :
  alloc_inv st bl -> 0 <= len < WORD -> no_overflow len ->
  (length bl < fuel)%nat ->
  exists st' r,
    lmalloc fuel st len = Some (st', r)
    /\ (r <> NULL ->
        mapped_range (kern st') r len = true
        /\ (forall c, memset (kern st') (mem st') r c len
                      = Some (fill_bytes (mem st') r c len))
        /\ (forall x, r <= x < r + len ->
              k_base (kern st') <= x < k_brk (kern st')
              \/ exists a L, In (a, L) (k_maps (kern st'))
                             /\ a <= x < a + L)).
Proof.
  intros Hinv Hlen Hov Hfuel.
  destruct (lmalloc_spec st bl len fuel Hinv Hlen Hfuel)
    as (st' & r & bl' & E & P1 & P2 & P3 & P4).
  exists st', r. split; [exact E|]. intros Hr.
  destruct (P4 Hr Hov) as [U _].
  pose proof (usable_mapped st' bl' r len P1 U) as M.
  split; [exact M|]. split.
  { intros c. unfold memset. rewrite M. reflexivity. }
  intros x Hx.
  pose proof P1 as [[_ (lo & Hlo & Hc) _ _] _ _].
  destruct U as [(b & Hb & -> & Hfit) | (a & L & Ha & -> & HL)].
  - left. destruct (contig_In _ _ _ _ _ Hc Hb) as (B1 & B2 & B3).
    unfold HDR in *. lia.
  - right. exists a, L. split; [exact Ha|]. unfold HDR in *. lia.
Qed.

(** A request of 10 bytes on the demo heap: the 10 bytes handed out lie
    below the break. *)
Lemma lmalloc_result_mapped_witness :
  exists st' r,
    lmalloc 8 demo_state 10 = Some (st', r)
    /\ r = 16777216 + HDR
    /\ mapped_range (kern st') r 10 = true.
Proof.
  destruct (lmalloc_result_mapped demo_state demo_blocks 10 8)
    as (st' & r & H1 & H2).
  - exact demo_state_inv.
  - word_bound.
  - unfold no_overflow, HDR, LMEM_PAGESIZE. word_bound.
  - simpl. lia.
  - assert (E : option_map snd (lmalloc 8 demo_state 10)
                = Some (16777216 + HDR)) by (vm_compute; reflexivity).
    rewrite H1 in E. cbn [option_map snd] in E. injection E as E.
    exists st', r. split; [exact H1|]. split; [exact E|].
    apply H2. rewrite E. unfold NULL, HDR. lia.
Defined.

(** ** A request of no bytes *)

(** X4.  [lmalloc 0] asks for one unit, the header alone, so every free
    block fits: the first free block of the list is taken whatever its
    size, cut down to one unit, and the pointer returned is the address
    right behind its header, where the next block of the list starts. *)
Theorem lmalloc_zero_bytes st pre b post fuel :
  alloc_inv st (pre ++ b :: post) ->
  Forall (fun y => get_isfree (mem st) y = 0) pre ->
  get_isfree (mem st) b <> 0 ->
  (length pre < fuel)%nat ->
  exists st',
    lmalloc fuel st 0 = Some (st', b + HDR)
    /\ get_isfree (mem st') b = 0
    /\ get_size (mem st') b = 1
    /\ (get_size (mem st) b = 1 -> alloc_inv st' (pre ++ b :: post))
    /\ (1 < get_size (mem st) b ->
          alloc_inv st' (pre ++ b :: (b + HDR) :: post)
          /\ get_isfree (mem st') (b + HDR) = 1
          /\ get_size (mem st') (b + HDR) = get_size (mem st) b - 1).
Proof.
  intros Hinv Hpre Hf Hfuel.
  assert (Eu : block_units 0 = 1) by reflexivity.
  pose proof Hinv as [[Hl (lo & Hlo & Hc) Hn Hb] Hk Hm].
  pose proof Hk as [K1 K2 _ _].
  unfold LMEM_MMAP_TRESHOLD, LMEM_PAGESIZE in K1.
  rewrite TASK_SIZE_val in K2.
  assert (Hnn : Forall (fun y => y <> NULL) (pre ++ b :: post)).
  { eapply dlseg_nonnull; [exact Hl | exact Hc | lia]. }
  rewrite Forall_forall in Hnn.
  assert (Ib : In b (pre ++ b :: post)) by (apply in_or_app; simpl; auto).
  destruct (contig_In _ _ _ _ b Hc Ib) as (B1 & B2 & B3).
  pose proof (take_block_spec st pre b post 1 Hinv Hf ltac:(lia)) as T.
  cbv zeta in T.
  exists (take_block st b 1).
  split.
  { unfold lmalloc.
    assert (Et : (LMEM_MMAP_TRESHOLD <=? 0) = false) by reflexivity.
    rewrite Et, Eu.
    rewrite (lmalloc_scan_found st _ pre b post fuel Hl); auto.
    - f_equal. f_equal. apply ptr_add_small.
      unfold HDR in *. rewrite WORD_val. lia.
    - rewrite Forall_forall in *. intros y Hy.
      split; [apply Hnn; apply in_or_app; auto|].
      unfold fitsb. rewrite (Hpre y Hy). reflexivity.
    - apply fitsb_true. split; [exact Hf | lia]. }
  revert T. generalize (take_block st b 1).
  intros st' (T1 & T2 & T3 & _ & _ & _ & T7).
  split; [exact T2|]. split; [exact T3|]. split.
  - intros E1. rewrite E1 in T1.
    assert (El : (1 <? 1) = false) by reflexivity.
    rewrite El in T1. exact T1.
  - intros E1.
    assert (El : (1 <? get_size (mem st) b) = true) by (apply Z.ltb_lt; lia).
    rewrite El in T1. destruct (T7 E1) as [T8 T9].
    replace (b + HDR * 1) with (b + HDR) in * by lia. auto.
Qed.

(** [lmalloc 0] on the demo heap takes the 5-unit block A and leaves a
    free block of 4 units at the address it returns. *)
Lemma lmalloc_zero_bytes_witness :
  exists st',
    lmalloc 8 demo_state 0 = Some (st', 16777216 + HDR)
    /\ get_size (mem st') 16777216 = 1
    /\ get_isfree (mem st') (16777216 + HDR) = 1
    /\ get_size (mem st') (16777216 + HDR) = 4.
Proof.
  assert (Es : get_size (mem demo_state) 16777216 = 5)
    by (vm_compute; reflexivity).
  destruct (lmalloc_zero_bytes demo_state [] 16777216
              [16777376; 16777472; 16777536] 8)
    as (st' & H1 & _ & H3 & _ & H5).
  - exact demo_state_inv.
  - constructor.
  - vm_compute. discriminate.
  - simpl. lia.
  - destruct H5 as (_ & Q1 & Q2); [lia|].
    exists st'. split; [exact H1|]. split; [exact H3|].
    split; [exact Q1|]. rewrite Q2, Es. reflexivity.
Defined.

(** ** What [lfree] leaves alone *)

(** X5.  Releasing a listed heap block leaves every other block in use
    listed, in use, of the same size and with the same payload bytes; it
    does not call the kernel, and the bytes of every mapping stay as they
    are. *)
Theorem lfree_keeps_other_blocks st bl b :
  alloc_inv st bl -> In b bl ->
  let st' := lfree st (b + HDR) in
  exists bl',
    alloc_inv st' bl'
    /\ (forall y, In y bl -> y <> b -> get_isfree (mem st) y = 0 ->
          In y bl'
          /\ get_isfree (mem st') y = 0
          /\ get_size (mem st') y = get_size (mem st) y
          /\ forall x, y + HDR <= x < y + HDR * get_size (mem st) y ->
                       mem st' x = mem st x)
    /\ kern st' = kern st
    /\ (forall a L, In (a, L) (k_maps (kern st)) ->
          forall x, a <= x < a + L -> mem st' x = mem st x).
Proof.
  intros Hinv Hb. cbv zeta.
  apply in_split in Hb. destruct Hb as (pre & post & ->).
  pose proof Hinv as [[Hl (lo & Hlo & Hc) Hn Hbk] Hk Hm].
  pose proof Hk as [K1 K2 K3 K4]. rewrite Forall_forall in K3.
  pose proof (lfree_heap_others st pre b post Hinv) as O.
  destruct (lfree_heap_spec st pre b post Hinv)
    as (pre' & c & post' & H1 & H2 & H3 & H4 & H5 & H6 & H7 & H8 & H9).
  revert O H1 H3 H5 H6 H7. generalize (lfree st (b + HDR)).
  intros st' O H1 H3 H5 H6 H7.
  exists (pre' ++ c :: post').
  split; [exact H1|]. split; [|split; [exact H7|]].
  - intros y Hy Hne Hy0.
    assert (Hy' : In y (pre ++ post)).
    { apply in_app_or in Hy. apply in_or_app.
      destruct Hy as [Hy | [Hy | Hy]]; [auto | congruence | auto]. }
    destruct (O y Hy') as [O1 O2]. specialize (O2 Hy0).
    rewrite Hy0 in O1.
    split; [|split; [exact O1|split; [exact O2|]]].
    + apply in_app_or in Hy'. apply in_or_app. destruct Hy' as [Hy' | Hy'].
      * destruct H8 as [(-> & _) | (-> & Hc0)]; [auto|].
        apply in_app_or in Hy'. destruct Hy' as [Hy' | [<- | []]]; [auto|].
        contradiction.
      * right. right.
        destruct H9 as [(-> & _) | (n & -> & Hn0)]; [auto|].
        destruct Hy' as [<- | Hy']; [contradiction | auto].
    + intros x Hx. apply H6.
      apply (payload_not_header (mem st) _ lo _ y x Hc Hy Hx).
  - intros a L Ha x Hx. apply H6. intros z Hz.
    destruct (contig_In _ _ _ _ _ Hc Hz) as (Z1 & Z2 & Z3).
    destruct (K3 _ Ha) as (M1 & M2 & M3 & M4). cbn [fst snd] in *.
    unfold HDR in *. lia.
Qed.

(** Releasing B on the demo heap leaves D in use with its two units. *)
Lemma lfree_keeps_other_blocks_witness :
  get_isfree (mem (lfree demo_state (16777376 + HDR))) 16777536 = 0
  /\ get_size (mem (lfree demo_state (16777376 + HDR))) 16777536
     = get_size (mem demo_state) 16777536
  /\ kern (lfree demo_state (16777376 + HDR)) = kern demo_state.
Proof.
  destruct (lfree_keeps_other_blocks demo_state demo_blocks 16777376)
    as (bl' & _ & H2 & H3 & _).
  - exact demo_state_inv.
  - simpl. auto.
  - destruct (H2 16777536) as (_ & Q1 & Q2 & _).
    + simpl. auto.
    + discriminate.
    + vm_compute. reflexivity.
    + auto.
Defined.

(** ** Released memory is used again *)

(** ** Released memory is used again *)

Lemma lfree_frame st addr :
  head (lfree st addr) = head st
  /\ last_break (lfree st addr) = last_break st
  /\ k_base (kern (lfree st addr)) = k_base (kern st)
  /\ k_brk (kern (lfree st addr)) = k_brk (kern st).
Proof.
  assert (M : forall s x,
             head (lfree_left_merge s x) = head s
             /\ last_break (lfree_left_merge s x) = last_break s
             /\ kern (lfree_left_merge s x) = kern s).
  { intros s x. unfold lfree_left_merge.
    destruct (negb (get_prev (mem s) x =? NULL)
              && negb (get_isfree (mem s) (get_prev (mem s) x) =? 0));
      [|repeat split].
    cbv zeta.
    destruct (negb (get_next (set_next (mem s) (get_prev (mem s) x)
                                (get_next (mem s) x)) x =? NULL));
      repeat split. }
  unfold lfree.
  destruct (addr =? NULL); [auto|].
  destruct (get_next (mem st) (ptr_sub addr 1) =? LMEM_NEXT_MMAP);
    [repeat split|].
  cbv zeta.
  destruct (M st (ptr_sub addr 1)) as (M0 & M1 & M2).
  destruct (negb (get_next (mem (lfree_left_merge st (ptr_sub addr 1)))
                    (ptr_sub addr 1) =? NULL)
            && negb (get_isfree (mem (lfree_left_merge st (ptr_sub addr 1)))
                       (get_next (mem (lfree_left_merge st (ptr_sub addr 1)))
                          (ptr_sub addr 1)) =? 0)).
  - destruct (M (lfree_left_merge st (ptr_sub addr 1))
                (get_next (mem (lfree_left_merge st (ptr_sub addr 1)))
                   (ptr_sub addr 1))) as (N0 & N1 & N2).
    rewrite N0, N1, N2, M0, M1, M2. auto.
  - rewrite M0, M1, M2. auto.
Qed.

Lemma take_block_frame st b size :
  last_break (take_block st b size) = last_break st
  /\ kern (take_block st b size) = kern st
  /\ head (take_block st b size) = head st.
Proof.
  unfold take_block.
  destruct (size <? get_size (mem st) b); [|repeat split].
  unfold lmem_split_block. cbv zeta.
  match goal with
  | |- context [if ?c then _ else _] => destruct c
  end; repeat split.
Qed.




(** ** Allocating and releasing again *)

(** The sizes of the blocks of a list are fixed by their addresses and the
    end of the heap. *)
Lemma contig_sizes_eq m m' bl : forall lo hi,
  contig m lo bl hi -> contig m' lo bl hi ->
  forall y, In y bl -> get_size m' y = get_size m y.
Proof.
  induction bl as [|b rest IH]; intros lo hi H H' y Hy; [destruct Hy|].
  simpl in H, H'. destruct H as (Eb & S & C). destruct H' as (_ & S' & C').
  assert (E : get_size m' b = get_size m b).
  { destruct rest as [|c rest']; simpl in C, C'.
    - unfold HDR in *. lia.
    - destruct C as (C & _). destruct C' as (C' & _). unfold HDR in *. lia. }
  rewrite E in C'. destruct Hy as [<- | Hy]; [exact E|].
  eapply IH; eauto.
Qed.

(** The links of the blocks of a list are fixed by the list. *)
Lemma dlseg_links_eq m m' bl : forall first first' prv nxt last last',
  dlseg m first prv nxt last bl -> dlseg m' first' prv nxt last' bl ->
  forall y, In y bl ->
    get_prev m' y = get_prev m y /\ get_next m' y = get_next m y.
Proof.
  induction bl as [|b rest IH];
    intros first first' prv nxt last last' H H' y Hy; [destruct Hy|].
  simpl in H, H'. destruct H as (_ & P & D). destruct H' as (_ & P' & D').
  destruct Hy as [<- | Hy].
  - split; [congruence|]. destruct rest as [|c rest']; simpl in D, D'.
    + destruct D, D'. congruence.
    + destruct D as (D & _). destruct D' as (D' & _). congruence.
  - eapply IH; eauto.
Qed.

Lemma nofree2_mid m xs p b ys :
  nofree2 m (xs ++ p :: b :: ys) ->
  get_isfree m p = 0 \/ get_isfree m b = 0.
Proof.
  intros H. apply nofree2_app_cons in H. destruct H as [_ H].
  simpl in H. tauto.
Qed.

(** X7.  A request served from the free block [b] of the list and then
    released again leaves the heap as it was: the same list of blocks with
    the same sizes and links and the same blocks free, the same head,
    tail, break and kernel state, and the payload of every block in use
    untouched.  When the request split [b], the release merges the two
    halves again. *)
Theorem lmalloc_lfree_round_trip st pre b post len fuel :
  alloc_inv st (pre ++ b :: post) ->
  0 <= len < LMEM_MMAP_TRESHOLD ->
  Forall (fun y => fitsb (mem st) (block_units len) y = false) pre ->
  fitsb (mem st) (block_units len) b = true ->
  (length pre < fuel)%nat ->
  exists st1,
    lmalloc fuel st len = Some (st1, b + HDR)
    /\ alloc_inv (lfree st1 (b + HDR)) (pre ++ b :: post)
    /\ head (lfree st1 (b + HDR)) = head st
    /\ tail (lfree st1 (b + HDR)) = tail st
    /\ last_break (lfree st1 (b + HDR)) = last_break st
    /\ kern (lfree st1 (b + HDR)) = kern st
    /\ (forall y, In y (pre ++ b :: post) ->
          get_size (mem (lfree st1 (b + HDR))) y = get_size (mem st) y
          /\ get_prev (mem (lfree st1 (b + HDR))) y = get_prev (mem st) y
          /\ get_next (mem (lfree st1 (b + HDR))) y = get_next (mem st) y
          /\ (get_isfree (mem (lfree st1 (b + HDR))) y = 0
              <-> get_isfree (mem st) y = 0))
    /\ (forall y, In y (pre ++ b :: post) -> get_isfree (mem st) y = 0 ->
          forall x, y + HDR <= x < y + HDR * get_size (mem st) y ->
                    mem (lfree st1 (b + HDR)) x = mem st x).
Proof.
  intros Hinv Hlen Hpre Hfit Hfuel.
  destruct (block_units_small len Hlen) as (_ & Hu & _).
  pose proof Hinv as [[Hl (lo & Hlo & Hc) Hn Hb] Hk Hm].
  pose proof Hk as [K1 K2 _ _].
  unfold LMEM_MMAP_TRESHOLD, LMEM_PAGESIZE in K1.
  rewrite TASK_SIZE_val in K2.
  assert (Hnn : Forall (fun y => y <> NULL) (pre ++ b :: post)).
  { eapply dlseg_nonnull; [exact Hl | exact Hc | lia]. }
  rewrite Forall_forall in Hnn.
  assert (Ib : In b (pre ++ b :: post)) by (apply in_or_app; simpl; auto).
  pose proof Hfit as Hfit'. apply fitsb_true in Hfit'.
  destruct Hfit' as [Hf Hsz].
  destruct (contig_In _ _ _ _ b Hc Ib) as (B1 & B2 & B3).
  (* the neighbours of the free block [b] are in use *)
  assert (Hleft : forall q p, pre = q ++ [p] -> get_isfree (mem st) p = 0).
  { intros q p ->. rewrite <- app_assoc in Hn. cbn [app] in Hn.
    destruct (nofree2_mid _ _ _ _ _ Hn); [assumption | contradiction]. }
  assert (Hright : forall n r, post = n :: r -> get_isfree (mem st) n = 0).
  { intros n r ->.
    destruct (nofree2_mid _ _ _ _ _ Hn); [contradiction | assumption]. }
  pose proof (take_block_spec st pre b post (block_units len) Hinv Hf
                ltac:(lia)) as T.
  cbv zeta in T.
  destruct (take_block_frame st b (block_units len)) as (G1 & G2 & G3).
  exists (take_block st b (block_units len)).
  split.
  { unfold lmalloc.
    assert (Et : (LMEM_MMAP_TRESHOLD <=? len) = false) by (apply Z.leb_gt; lia).
    rewrite Et.
    rewrite (lmalloc_scan_found st _ pre b post fuel Hl); auto.
    - f_equal. f_equal. apply ptr_add_small.
      unfold HDR in *. rewrite WORD_val. lia.
    - rewrite Forall_forall in *. intros y Hy. split; auto.
      apply Hnn. apply in_or_app. auto. }
  revert T G1 G2 G3. generalize (take_block st b (block_units len)).
  intros st1 (T1 & T2 & T3 & T4 & T5 & T6 & T7) G1 G2 G3.
  (* the list after the allocation *)
  assert (L1 : exists post1,
             alloc_inv st1 (pre ++ b :: post1)
             /\ only_headers (pre ++ b :: post1) (mem st) (mem st1)
             /\ incl post post1
             /\ ((post1 = post /\ block_units len = get_size (mem st) b)
                 \/ (exists u, post1 = u :: post
                               /\ get_isfree (mem st1) u = 1))).
  { destruct (block_units len <? get_size (mem st) b) eqn:El.
    - apply Z.ltb_lt in El. destruct (T7 El) as [T8 _].
      exists ((b + HDR * block_units len) :: post).
      split; [exact T1|]. split; [exact T5|].
      split; [apply incl_tl; apply incl_refl|]. right. eauto.
    - apply Z.ltb_ge in El. exists post.
      split; [exact T1|]. split; [exact T5|].
      split; [apply incl_refl|]. left. split; [reflexivity | lia]. }
  destruct L1 as (post1 & I1 & O1 & Hi1 & Hp1).
  pose proof (lfree_heap_others st1 pre b post1 I1) as O.
  destruct (lfree_frame st1 (b + HDR)) as (F0 & F1 & _).
  destruct (lfree_heap_spec st1 pre b post1 I1)
    as (pre' & c & post' & H1 & H2 & H3 & H4 & H5 & H6 & H7 & H8 & H9).
  revert O F0 F1 H1 H3 H5 H6 H7. generalize (lfree st1 (b + HDR)).
  intros st2 O F0 F1 H1 H3 H5 H6 H7.
  (* the list after the release is the list before the allocation *)
  assert (E8 : pre' = pre /\ c = b).
  { destruct H8 as [(-> & -> & _) | (-> & Hc0)]; [auto|]. exfalso.
    rewrite (proj1 (T4 c ltac:(apply in_or_app; left; apply in_or_app;
                                 simpl; auto))) in Hc0.
    apply Hc0. eapply Hleft. reflexivity. }
  destruct E8 as [-> ->].
  assert (E9 : post' = post).
  { destruct Hp1 as [(-> & _) | (u & -> & Hu1)].
    - destruct H9 as [(-> & _) | (n & -> & Hn0)]; [reflexivity|]. exfalso.
      rewrite (proj1 (T4 n ltac:(apply in_or_app; simpl; auto))) in Hn0.
      apply Hn0. eapply Hright. reflexivity.
    - destruct H9 as [(_ & U) | (n & E & _)].
      + simpl in U. lia.
      + congruence. }
  subst post'.
  pose proof H1 as [[Hl2 (lo2 & Hlo2 & Hc2) Hn2 Hb2] Hk2 Hm2].
  rewrite H7, T6 in Hc2.
  assert (Elo : lo2 = lo).
  { apply contig_app in Hc. apply contig_app in Hc2.
    destruct Hc as (mid & C1 & C2). destruct Hc2 as (mid2 & C1' & C2').
    destruct pre as [|h pre'']; simpl in *.
    - destruct C2 as (? & _). destruct C2' as (? & _). lia.
    - destruct C1 as (? & _). destruct C1' as (? & _). lia. }
  subst lo2.
  split; [exact H1|].
  split; [congruence|].
  split.
  { rewrite (dlseg_tail _ _ _ _ _ _ Hl2). rewrite (dlseg_tail _ _ _ _ _ _ Hl).
    reflexivity. }
  split; [congruence|]. split; [congruence|].
  split.
  - intros y Hy.
    split; [exact (contig_sizes_eq _ _ _ _ _ Hc Hc2 y Hy)|].
    destruct (dlseg_links_eq _ _ _ _ _ _ _ _ _ Hl Hl2 y Hy) as [D1 D2].
    split; [exact D1|]. split; [exact D2|].
    apply in_app_or in Hy. destruct Hy as [Hy | [<- | Hy]].
    + destruct (O y ltac:(apply in_or_app; auto)) as [O2 _].
      destruct (T4 y ltac:(apply in_or_app; auto)) as [O3 _].
      rewrite O2, O3. tauto.
    + tauto.
    + destruct (O y ltac:(apply in_or_app; right; apply Hi1; exact Hy))
        as [O2 _].
      destruct (T4 y ltac:(apply in_or_app; auto)) as [O3 _].
      rewrite O2, O3. tauto.
  - intros y Hy Hy0 x Hx.
    assert (Hy' : In y (pre ++ post)).
    { apply in_app_or in Hy. apply in_or_app.
      destruct Hy as [Hy | [<- | Hy]]; [auto | contradiction | auto]. }
    destruct (T4 y Hy') as [_ Es].
    pose proof I1 as [[_ (lo1 & _ & Hc1) _ _] _ _].
    assert (Hy1 : In y (pre ++ b :: post1)).
    { apply in_app_or in Hy'. apply in_or_app.
      destruct Hy' as [Hy' | Hy']; [auto|]. right. right. apply Hi1.
      exact Hy'. }
    assert (Nh : forall z, In z (pre ++ b :: post1) -> x < z \/ z + HDR <= x).
    { apply (payload_not_header (mem st1) _ lo1 _ y x Hc1 Hy1).
      rewrite Es. exact Hx. }
    rewrite (H6 x Nh). apply O1. exact Nh.
Qed.

(** Ten bytes taken from the free block A of the demo heap and given
    back: A has its five units again and D is the tail as before. *)
Lemma lmalloc_lfree_round_trip_witness :
  exists st1,
    lmalloc 8 demo_state 10 = Some (st1, 16777216 + HDR)
    /\ tail (lfree st1 (16777216 + HDR)) = tail demo_state
    /\ get_size (mem (lfree st1 (16777216 + HDR))) 16777216
       = get_size (mem demo_state) 16777216.
Proof.
  destruct (lmalloc_lfree_round_trip demo_state [] 16777216
              [16777376; 16777472; 16777536] 10 8)
    as (st1 & H1 & _ & _ & H4 & _ & _ & H7 & _).
  - exact demo_state_inv.
  - thr_range.
  - constructor.
  - vm_compute. reflexivity.
  - simpl. lia.
  - exists st1. split; [exact H1|]. split; [exact H4|].
    destruct (H7 16777216) as (Q & _); [simpl; auto | exact Q].
Defined.

(** ** When everything is released *)



(** ** Mapping and unmapping again *)

(** ** Mapping and unmapping again *)

Lemma filter_all {A} (f : A -> bool) (l : list A) :
  (forall x, In x l -> f x = true) -> filter f l = l.
Proof.
  induction l as [|x l IH]; intros H; [reflexivity|].
  simpl. rewrite (H x (or_introl eq_refl)). f_equal.
  apply IH. intros y Hy. apply H. right. exact Hy.
Qed.

(** X9.  A request at or above the threshold that is granted and then
    released leaves the kernel state as it was, with the one mapping
    gone again; head, tail and cached break are untouched throughout, and
    no byte outside the pages of the mapping has changed. *)
Theorem lmalloc_mmap_lfree_round_trip st bl len fuel :
  alloc_inv st bl -> LMEM_MMAP_TRESHOLD <= len ->
  exists st1 r,
    lmalloc fuel st len = Some (st1, r)
    /\ (r <> NULL ->
        exists a,
          r = a + HDR
          /\ k_maps (kern st1) = (a, page_round len) :: k_maps (kern st)
          /\ kern (lfree st1 r) = kern st
          /\ head (lfree st1 r) = head st
          /\ tail (lfree st1 r) = tail st
          /\ last_break (lfree st1 r) = last_break st
          /\ (forall x, x < a \/ a + page_round len <= x ->
                mem (lfree st1 r) x = mem st x)
          /\ alloc_inv (lfree st1 r) bl).
Proof.
  intros Hinv Hlen.
  exists (fst (lmalloc_mmap st len)), (snd (lmalloc_mmap st len)).
  split.
  { unfold lmalloc.
    assert (Et : (LMEM_MMAP_TRESHOLD <=? len) = true) by (apply Z.leb_le; lia).
    rewrite Et. rewrite <- surjective_pairing. reflexivity. }
  pose proof (lmalloc_mmap_eq st len) as Eq. cbv zeta in Eq.
  destruct ((0 <? page_round len)
            && region_free (kern st) (k_maps (kern st))
                 (k_place (kern st) (k_maps (kern st)) (page_round len))
                 (page_round len)) eqn:Eg.
  2:{ rewrite Eq. cbn [fst snd]. intros Hr. exfalso. apply Hr. reflexivity. }
  intros _.
  destruct (lmalloc_mmap_inv st bl len Hinv Eg) as [I1 I2].
  apply andb_true_iff in Eg. destruct Eg as [E1 E2].
  apply Z.ltb_lt in E1. apply region_free_spec in E2.
  destruct E2 as (R1 & R2 & R3 & R4). rewrite Forall_forall in R4.
  pose proof Hinv as [_ [_ _ K3 _] _]. rewrite Forall_forall in K3.
  revert I1 I2. rewrite Eq. cbn [fst snd].
  set (a := k_place (kern st) (k_maps (kern st)) (page_round len)) in *.
  set (L := page_round len) in *.
  set (m1 := set_size (set_next (fill_bytes (mem st) a 0 L) a LMEM_NEXT_MMAP) a L).
  intros I1 I2.
  destruct (lfree_mapped_spec _ bl a L I1) as (F1 & F2 & F3 & F4).
  { cbn [kern k_maps set_k_maps]. simpl. auto. }
  exists a. split; [reflexivity|]. split; [reflexivity|].
  assert (Ef : filter (fun r => negb (region_eqb (a, L) r))
                 ((a, L) :: k_maps (kern st)) = k_maps (kern st)).
  { cbn [filter].
    assert (Er : region_eqb (a, L) (a, L) = true)
      by (apply region_eqb_eq; reflexivity).
    rewrite Er. cbn [negb]. apply filter_all. intros r Hr.
    apply negb_true_iff. apply not_true_is_false. intros Ee.
    apply region_eqb_eq in Ee. subst r.
    specialize (R4 _ Hr). unfold apart in R4. cbn [fst snd] in R4. lia. }
  cbn [kern k_maps set_k_maps] in F3. rewrite Ef in F3.
  split.
  { revert F3. rewrite F1. cbn [kern set_kern]. unfold sys_munmap.
    cbn [k_maps set_k_maps]. intros ->.
    destruct (kern st). reflexivity. }
  rewrite F1 in *. cbn [set_kern mem head tail last_break] in *.
  split; [reflexivity|]. split; [reflexivity|]. split; [reflexivity|].
  split; [exact I2 | exact F4].
Qed.

(** A mapping of 18 pages created on the demo heap and released again. *)
Lemma lmalloc_mmap_lfree_round_trip_witness :
  exists st1,
    lmalloc 8 demo_state 70000 = Some (st1, 1073741824 + HDR)
    /\ k_maps (kern st1) = [(1073741824, 73728)]
    /\ kern (lfree st1 (1073741824 + HDR)) = kern demo_state.
Proof.
  destruct (lmalloc_mmap_lfree_round_trip demo_state demo_blocks 70000 8)
    as (st1 & r & H1 & H2).
  - exact demo_state_inv.
  - thr_range.
  - assert (E : option_map snd (lmalloc 8 demo_state 70000)
                = Some (1073741824 + HDR)) by (vm_compute; reflexivity).
    rewrite H1 in E. cbn [option_map snd] in E. injection E as ->.
    destruct H2 as (a & Ha & Hm & Hk & _).
    { unfold NULL, HDR. lia. }
    assert (a = 1073741824) by lia. subst a.
    exists st1. split; [exact H1|]. split; [|exact Hk].
    rewrite Hm.
    replace (k_maps (kern demo_state)) with (@nil (Z * Z))
      by (vm_compute; reflexivity).
    reflexivity.
Defined.

(** ** The break only moves up *)

(** ** The break only moves up *)

Lemma lrealloc_mmap_frame st block len :
  k_base (kern (fst (lrealloc_mmap st block len))) = k_base (kern st)
  /\ k_brk (kern (fst (lrealloc_mmap st block len))) = k_brk (kern st)
  /\ head (fst (lrealloc_mmap st block len)) = head st
  /\ tail (fst (lrealloc_mmap st block len)) = tail st
  /\ last_break (fst (lrealloc_mmap st block len)) = last_break st.
Proof.
  unfold lrealloc_mmap, sys_mremap. cbv zeta.
  repeat match goal with
         | |- context [if ?c then _ else _] => destruct c
         end; cbn; repeat split.
Qed.

(** X10.  No operation lowers the program break: [lmalloc] returns with
    a break at or above the one it found, so do [lcalloc] and [lrealloc]
    whenever they return, and [lfree] changes neither the break nor its
    cached copy, whatever pointer it is given.  Heap memory that was
    released stays with the process. *)
Theorem break_never_lowered st bl :
  alloc_inv st bl ->
  (forall fuel len,
      0 <= len < WORD -> (length bl < fuel)%nat ->
      exists st' r,
        lmalloc fuel st len = Some (st', r)
        /\ k_base (kern st') = k_base (kern st)
        /\ k_brk (kern st) <= k_brk (kern st'))
  /\ (forall fuel nlen len,
        (length bl < fuel)%nat ->
        exists o,
          lcalloc fuel st nlen len = Some o
          /\ forall st' r, o = Done (st', r) ->
               k_base (kern st') = k_base (kern st)
               /\ k_brk (kern st) <= k_brk (kern st'))
  /\ (forall fuel addr len,
        0 <= len < WORD -> (length bl < fuel)%nat ->
        exists o,
          lrealloc fuel st addr len = Some o
          /\ forall st' r, o = Done (st', r) ->
               k_base (kern st') = k_base (kern st)
               /\ k_brk (kern st) <= k_brk (kern st'))
  /\ (forall addr,
        k_base (kern (lfree st addr)) = k_base (kern st)
        /\ k_brk (kern (lfree st addr)) = k_brk (kern st)
        /\ last_break (lfree st addr) = last_break st).
Proof.
  intros Hinv.
  assert (A : forall fuel len,
             0 <= len < WORD -> (length bl < fuel)%nat ->
             exists st' r,
               lmalloc fuel st len = Some (st', r)
               /\ k_base (kern st') = k_base (kern st)
               /\ k_brk (kern st) <= k_brk (kern st')).
  { intros fuel len Hlen Hfuel.
    destruct (lmalloc_spec st bl len fuel Hinv Hlen Hfuel)
      as (st' & r & bl' & E & _).
    destruct (lmalloc_kernel_frame st bl len fuel st' r Hinv Hlen Hfuel E)
      as (F1 & F2 & _).
    exists st', r. auto. }
  split; [exact A|]. split; [|split].
  - intros fuel nlen len Hfuel.
    destruct (A fuel (wrap (nlen * len)) (wrap_range _) Hfuel)
      as (st1 & r & E & F1 & F2).
    unfold lcalloc. cbv zeta. rewrite E.
    destruct (negb (r =? NULL)).
    + destruct (memset (kern st1) (mem st1) r 0 (wrap (nlen * len))).
      * eexists. split; [reflexivity|]. intros st' r' Ho.
        injection Ho as <- _. auto.
      * eexists. split; [reflexivity|]. discriminate.
    + eexists. split; [reflexivity|]. intros st' r' Ho.
      injection Ho as <- _. auto.
  - intros fuel addr len Hlen Hfuel. unfold lrealloc. cbv zeta.
    destruct (addr =? NULL).
    { destruct (A fuel len Hlen Hfuel) as (st1 & r & E & F1 & F2).
      rewrite E. eexists. split; [reflexivity|]. intros st' r' Ho.
      injection Ho as <- _. auto. }
    destruct (get_next (mem st) (ptr_sub addr 1) =? LMEM_NEXT_MMAP).
    + destruct (lrealloc_mmap_frame st (ptr_sub addr 1) len)
        as (F1 & F2 & _).
      eexists. split; [reflexivity|]. intros st' r' Ho.
      injection Ho as Ho. rewrite Ho in F1, F2. cbn [fst] in F1, F2. lia.
    + destruct (A fuel len Hlen Hfuel) as (st1 & r & E & F1 & F2).
      rewrite E. destruct (r =? NULL).
      * eexists. split; [reflexivity|]. intros st' r' Ho.
        injection Ho as <- _. auto.
      * destruct (memcpy (kern st1) (mem st1) r addr len) as [m|].
        -- eexists. split; [reflexivity|]. intros st' r' Ho.
           injection Ho as <- _.
           destruct (lfree_frame (set_mem st1 m) addr) as (_ & _ & G1 & G2).
           rewrite G1, G2. auto.
        -- eexists. split; [reflexivity|]. discriminate.
  - intros addr. destruct (lfree_frame st addr) as (_ & G0 & G1 & G2). auto.
Qed.

(** On the demo heap a request of 200 bytes moves the break up; so does
    the resize of D to 200 bytes, and no release moves it. *)
Lemma break_never_lowered_witness :
  (exists st' r,
      lmalloc 8 demo_state 200 = Some (st', r)
      /\ k_brk (kern demo_state) <= k_brk (kern st'))
  /\ (exists o,
        lrealloc 8 demo_state (16777536 + HDR) 200 = Some o
        /\ forall st' r, o = Done (st', r) ->
             k_brk (kern demo_state) <= k_brk (kern st'))
  /\ k_brk (kern (lfree demo_state (16777536 + HDR)))
     = k_brk (kern demo_state).
Proof.
  destruct (break_never_lowered demo_state demo_blocks demo_state_inv)
    as (H1 & _ & H3 & H4).
  split; [|split].
  - destruct (H1 8%nat 200) as (st' & r & E & _ & F).
    + word_bound.
    + simpl. lia.
    + exists st', r. auto.
  - destruct (H3 8%nat (16777536 + HDR) 200) as (o & E & F).
    + word_bound.
    + simpl. lia.
    + exists o. split; [exact E|]. intros st' r Ho.
      destruct (F st' r Ho) as [_ Q]. exact Q.
  - destruct (H4 (16777536 + HDR)) as (_ & F & _). exact F.
Defined.

(** ** After a refused break *)

(** X11.  Once the cached break holds the failure value, the heap does
    not grow again: a request below the threshold that no listed block
    fits returns the null pointer and leaves the state as it is, whatever
    the kernel of the state would grant.  (Requests that a free block
    fits, and requests at or above the threshold, do not call
    [new_memblk] and are served as before.) *)
Theorem refused_break_is_final st bl len fuel :
  alloc_inv st bl -> last_break st = MINUS1 ->
  0 <= len < LMEM_MMAP_TRESHOLD ->
  Forall (fun y => fitsb (mem st) (block_units len) y = false) bl ->
  (length bl < fuel)%nat ->
  lmalloc fuel st len = Some (st, NULL).
Proof.
  intros Hinv Hlb Hlen Hno Hfuel.
  pose proof Hinv as [[Hl (lo & Hlo & Hc) Hn Hb] Hk Hm].
  pose proof Hk as [K1 _ _ _].
  unfold LMEM_MMAP_TRESHOLD, LMEM_PAGESIZE in K1.
  destruct (block_units_small len Hlen) as (_ & Hu & _).
  assert (Hnn : Forall (fun y => y <> NULL) bl).
  { eapply dlseg_nonnull; [exact Hl | exact Hc | lia]. }
  unfold lmalloc.
  assert (Et : (LMEM_MMAP_TRESHOLD <=? len) = false) by (apply Z.leb_gt; lia).
  rewrite Et. rewrite (lmalloc_scan_none st _ bl fuel Hl); [| |exact Hfuel].
  2:{ rewrite Forall_forall in *. intros y Hy. split; auto. }
  rewrite (lmalloc_new_block_fail st bl (block_units len) Hb Hk ltac:(lia)).
  - f_equal. f_equal. destruct st. cbn in Hlb. subst. reflexivity.
  - rewrite Hlb, Z.eqb_refl. reflexivity.
Qed.

(** After one refused request the kernel of [refused_state] would grant
    the break for 10 bytes, and the request still fails. *)
Lemma refused_break_is_final_witness :
  brk_grants (kern refused_state)
    (k_brk (kern refused_state) + HDR * block_units 10) = true
  /\ lmalloc 8 refused_state 10 = Some (refused_state, NULL).
Proof.
  split; [vm_compute; reflexivity|].
  apply (refused_break_is_final refused_state [16777216] 10 8).
  - exact refused_state_inv.
  - vm_compute. reflexivity.
  - thr_range.
  - constructor; [vm_compute; reflexivity | constructor].
  - simpl. lia.
Defined.

(** ** A resize that fails *)

(** An allocation that returns the null pointer has changed nothing but,
    possibly, the cached break. *)
Lemma lmalloc_null_frame st bl len fuel st1 :
  alloc_inv st bl -> 0 <= len < WORD -> (length bl < fuel)%nat ->
  lmalloc fuel st len = Some (st1, NULL) ->
  mem st1 = mem st /\ head st1 = head st /\ tail st1 = tail st
  /\ kern st1 = kern st /\ alloc_inv st1 bl.
Proof.
  intros Hinv Hlen Hfuel E.
  pose proof Hinv as [[Hl (lo & Hlo & Hc) Hn Hb] Hk Hm].
  pose proof Hk as [K1 K2 K3 K4].
  unfold LMEM_MMAP_TRESHOLD, LMEM_PAGESIZE in K1.
  unfold lmalloc in E.
  destruct (LMEM_MMAP_TRESHOLD <=? len) eqn:Et.
  - pose proof (lmalloc_mmap_eq st len) as Eq. cbv zeta in Eq.
    destruct ((0 <? page_round len)
              && region_free (kern st) (k_maps (kern st))
                   (k_place (kern st) (k_maps (kern st)) (page_round len))
                   (page_round len)) eqn:Eg.
    + exfalso. apply andb_true_iff in Eg. destruct Eg as [_ E2].
      apply region_free_spec in E2. destruct E2 as (R1 & _).
      rewrite Eq in E. injection E as _ E.
      unfold MIN_ADDR, HDR, NULL in *. lia.
    + rewrite Eq in E. injection E as <-. auto.
  - apply Z.leb_gt in Et.
    destruct (block_units_small len ltac:(lia)) as (_ & Hu & _).
    assert (Hnn : Forall (fun y => y <> NULL) bl).
    { eapply dlseg_nonnull; [exact Hl | exact Hc | lia]. }
    rewrite Forall_forall in Hnn.
    destruct (first_fit_dec (mem st) (block_units len) bl)
      as [Hno | (pre & b & post & -> & Hno & Hfit)].
    + rewrite (lmalloc_scan_none st _ bl fuel Hl) in E; [| |exact Hfuel].
      2:{ rewrite Forall_forall in *. intros y Hy. split; auto. }
      destruct (negb (last_break st =? MINUS1)
                && brk_grants (kern st)
                     (k_brk (kern st) + HDR * block_units len)) eqn:Hg.
      * exfalso.
        pose proof (append_spec st bl (block_units len) Hinv ltac:(lia) Hg)
          as A.
        cbv zeta in A. destruct A as (A1 & _).
        injection E as E. rewrite E in A1. cbn [snd] in A1. unfold NULL, HDR in *. lia.
      * rewrite (lmalloc_new_block_fail st bl (block_units len) Hb Hk
                   ltac:(lia) Hg) in E.
        injection E as <-. goal_simpl.
        split; [reflexivity|]. split; [reflexivity|]. split; [reflexivity|].
        split; [reflexivity|].
        constructor; [|exact Hk|exact Hm].
        constructor; goal_simpl; auto.
        -- exists lo. auto.
        -- right. right. reflexivity.
    + exfalso.
      assert (Ib : In b (pre ++ b :: post)) by (apply in_or_app; simpl; auto).
      rewrite (lmalloc_scan_found st _ pre b post fuel Hl) in E; auto.
      * destruct (contig_In _ _ _ _ b Hc Ib) as (B1 & B2 & B3).
        rewrite TASK_SIZE_val in K2.
        assert (Eb : ptr_add b 1 = b + HDR).
        { apply ptr_add_small. unfold HDR in *. rewrite WORD_val. lia. }
        rewrite Eb in E. injection E as _ E. unfold NULL, HDR in *. lia.
      * rewrite Forall_forall in *. intros y Hy. split; auto.
        apply Hnn. apply in_or_app. auto.
      * rewrite length_app in Hfuel. simpl in Hfuel. lia.
Qed.

(** X12.  When [lrealloc] of a heap block returns the null pointer, the
    memory, the list and the kernel state are those before the call: the
    block is still listed with its flag, size and payload, and the caller
    keeps the old pointer. *)
Theorem lrealloc_failure_keeps_block st bl b len fuel :
  alloc_inv st bl -> In b bl ->
  0 <= len < WORD -> (length bl < fuel)%nat ->
  exists o,
    lrealloc fuel st (b + HDR) len = Some o
    /\ forall st', o = Done (st', NULL) ->
         alloc_inv st' bl
         /\ mem st' = mem st
         /\ head st' = head st /\ tail st' = tail st
         /\ kern st' = kern st.
Proof.
  intros Hinv Hb Hlen Hfuel.
  destruct (heap_block_facts st bl b Hinv Hb) as (B0 & B1 & B2 & _).
  rewrite (lrealloc_heap_eq fuel st b len B0 B1 B2).
  destruct (lmalloc_spec st bl len fuel Hinv Hlen Hfuel)
    as (st1 & r & bl' & E & _).
  rewrite E. destruct (r =? NULL) eqn:Er.
  - apply Z.eqb_eq in Er. subst r.
    eexists. split; [reflexivity|]. intros st' Ho. injection Ho as <-.
    destruct (lmalloc_null_frame st bl len fuel st1 Hinv Hlen Hfuel E)
      as (F1 & F2 & F3 & F4 & F5).
    auto.
  - apply Z.eqb_neq in Er.
    destruct (memcpy (kern st1) (mem st1) r (b + HDR) len).
    + eexists. split; [reflexivity|]. intros st' Ho.
      injection Ho as _ Ho. contradiction.
    + eexists. split; [reflexivity|]. discriminate.
Qed.

(** With the kernel at its limit, resizing the only block to 200 bytes
    fails and leaves the memory as it is. *)
Lemma lrealloc_failure_keeps_block_witness :
  exists st',
    lrealloc 8 full_state (16777216 + HDR) 200 = Some (Done (st', NULL))
    /\ mem st' = mem full_state
    /\ kern st' = kern full_state.
Proof.
  destruct (lrealloc_failure_keeps_block full_state [16777216] 16777216 200 8)
    as (o & H1 & H2).
  - exact full_state_inv.
  - simpl. auto.
  - word_bound.
  - simpl. lia.
  - assert (E : pointer_of (lrealloc 8 full_state (16777216 + HDR) 200)
                = Some NULL) by (vm_compute; reflexivity).
    rewrite H1 in E. destruct o as [[st' r]|]; cbn [pointer_of] in E;
      [|discriminate].
    injection E as ->.
    destruct (H2 st' eq_refl) as (_ & Q1 & _ & _ & Q2).
    exists st'. auto.
Defined.

(** ** Resizing a mapping *)



(** ** Growing the last block *)

(** X14.  [lrealloc] copies [len] bytes, the new length, from the old
    block whatever its size.  When the block in use at the end of the
    list is resized to more than its own size in bytes, no block of the
    list fits and the break is granted, the new block is appended right
    behind the old one.  The bytes read behind the old block are mapped,
    so the call returns, and the destination of the copy starts inside
    its source range: the two ranges handed to [memcpy] overlap. *)
Theorem lrealloc_copy_overlaps st pre b len fuel :
  alloc_inv st (pre ++ [b]) ->
  get_isfree (mem st) b = 0 ->
  HDR * get_size (mem st) b < len < LMEM_MMAP_TRESHOLD ->
  Forall (fun y => fitsb (mem st) (block_units len) y = false) pre ->
  last_break st <> MINUS1 ->
  brk_grants (kern st) (k_brk (kern st) + HDR * block_units len) = true ->
  (length (pre ++ [b]) < fuel)%nat ->
  exists st1 r,
    lmalloc fuel st len = Some (st1, r)
    /\ r = b + HDR * get_size (mem st) b + HDR
    /\ mapped_range (kern st1) (b + HDR) len = true
    /\ lrealloc fuel st (b + HDR) len
       = Some (Done (lfree (set_mem st1 (copy_bytes (mem st1) r (b + HDR) len))
                       (b + HDR), r))
    /\ b + HDR < r < b + HDR + len.
Proof.
  intros Hinv Hb0 Hlen Hpre Hlb Hg Hfuel.
  pose proof Hinv as [[Hl (lo & Hlo & Hc) Hn Hb] Hk Hm].
  pose proof Hk as [K1 K2 K3 K4].
  unfold LMEM_MMAP_TRESHOLD, LMEM_PAGESIZE in K1.
  assert (Ib : In b (pre ++ [b])) by (apply in_or_app; simpl; auto).
  destruct (contig_In _ _ _ _ b Hc Ib) as (B1 & B2 & B3).
  destruct (heap_block_facts st _ b Hinv Ib) as (F0 & F1 & F2 & _).
  destruct (block_units_small len ltac:(unfold HDR in *; lia))
    as (_ & Hu & Hul).
  assert (Eend : k_brk (kern st) = b + HDR * get_size (mem st) b).
  { apply contig_app in Hc. destruct Hc as (mid & _ & C2).
    simpl in C2. destruct C2 as (_ & _ & C2). symmetry. exact C2. }
  assert (Hnn : Forall (fun y => y <> NULL) (pre ++ [b])).
  { eapply dlseg_nonnull; [exact Hl | exact Hc | lia]. }
  assert (Hno : Forall (fun y => y <> NULL
                                 /\ fitsb (mem st) (block_units len) y = false)
                  (pre ++ [b])).
  { rewrite Forall_forall in *. intros y Hy. split; [auto|].
    apply in_app_or in Hy. destruct Hy as [Hy | [<- | []]]; [auto|].
    unfold fitsb. rewrite Hb0. reflexivity. }
  assert (Hg' : negb (last_break st =? MINUS1)
                && brk_grants (kern st)
                     (k_brk (kern st) + HDR * block_units len) = true).
  { rewrite Hg. apply andb_true_iff. split; [|reflexivity].
    apply negb_true_iff. apply Z.eqb_neq. exact Hlb. }
  pose proof (append_spec st _ (block_units len) Hinv ltac:(lia) Hg') as A.
  cbv zeta in A. destruct A as (A1 & _).
  pose proof (lmalloc_new_block_ok st _ (block_units len) Hb Hk
                ltac:(lia) Hg') as Eq.
  cbv zeta in Eq.
  assert (Ek : k_base (kern (fst (lmalloc_new_block st (block_units len))))
               = k_base (kern st)
               /\ k_brk (kern (fst (lmalloc_new_block st (block_units len))))
                  = k_brk (kern st) + HDR * block_units len).
  { rewrite Eq. split; reflexivity. }
  destruct Ek as [Ek1 Ek2].
  assert (E : lmalloc fuel st len
              = Some (fst (lmalloc_new_block st (block_units len)),
                      b + HDR * get_size (mem st) b + HDR)).
  { unfold lmalloc.
    assert (Et : (LMEM_MMAP_TRESHOLD <=? len) = false)
      by (apply Z.leb_gt; unfold LMEM_MMAP_TRESHOLD, LMEM_PAGESIZE in *; lia).
    rewrite Et. rewrite (lmalloc_scan_none st _ _ fuel Hl Hno Hfuel).
    rewrite <- Eend, <- A1. rewrite <- surjective_pairing. reflexivity. }
  revert Ek1 Ek2 E. generalize (fst (lmalloc_new_block st (block_units len))).
  intros st1 Ek1 Ek2 E.
  pose proof (page_up_bounds (k_brk (kern st1))) as Hup.
  assert (Hin : In (k_base (kern st1),
                    page_up (k_brk (kern st1)) - k_base (kern st1))
                  (regions (kern st1))) by (unfold regions; simpl; auto).
  assert (Hsrc : mapped_range (kern st1) (b + HDR) len = true).
  { apply (mapped_range_in _ _ _ _ _ Hin); unfold HDR in *; lia. }
  assert (Hdst : mapped_range (kern st1)
                   (b + HDR * get_size (mem st) b + HDR) len = true).
  { apply (mapped_range_in _ _ _ _ _ Hin); unfold HDR in *; lia. }
  exists st1, (b + HDR * get_size (mem st) b + HDR).
  split; [exact E|]. split; [reflexivity|]. split; [exact Hsrc|]. split.
  - rewrite (lrealloc_heap_eq fuel st b len F0 F1 F2). rewrite E.
    assert (Er : (b + HDR * get_size (mem st) b + HDR =? NULL) = false).
    { apply Z.eqb_neq. unfold NULL, HDR in *. lia. }
    rewrite Er. unfold memcpy. rewrite Hsrc, Hdst. reflexivity.
  - unfold HDR in *. lia.
Qed.

(** Resizing the last block D of the demo heap (2 units) to 200 bytes: the
    new block starts 64 bytes after D, inside the 200 bytes read from D. *)
Lemma lrealloc_copy_overlaps_witness :
  exists st1 r,
    lrealloc 8 demo_state (16777536 + HDR) 200
    = Some (Done (lfree (set_mem st1
                           (copy_bytes (mem st1) r (16777536 + HDR) 200))
                    (16777536 + HDR), r))
    /\ r = 16777632
    /\ 16777536 + HDR < r < 16777536 + HDR + 200.
Proof.
  assert (Es : get_size (mem demo_state) 16777536 = 2)
    by (vm_compute; reflexivity).
  destruct (lrealloc_copy_overlaps demo_state
              [16777216; 16777376; 16777472] 16777536 200 8)
    as (st1 & r & _ & H2 & _ & H3 & H4).
  - exact demo_state_inv.
  - vm_compute. reflexivity.
  - rewrite Es. unfold HDR. thr_range.
  - repeat (constructor; [vm_compute; reflexivity|]). constructor.
  - vm_compute. discriminate.
  - vm_compute. reflexivity.
  - simpl. lia.
  - exists st1, r. split; [exact H3|]. split; [|exact H4].
    rewrite H2, Es. reflexivity.
Defined.

(** ** What a resize keeps *)

(** X15.  Whenever [lrealloc] of a heap block in use returns a non-null
    pointer, the bytes of the old payload are found behind it, up to the
    new length: also when the block grows, and also when the ranges of the
    copy overlap, since the new block lies off the old one.  Beyond the
    old payload the new region holds whatever followed the old block. *)
Theorem lrealloc_keeps_old_contents st bl b len fuel :
  alloc_inv st bl -> In b bl -> get_isfree (mem st) b = 0 ->
  0 <= len < WORD -> (length bl < fuel)%nat ->
  exists o,
    lrealloc fuel st (b + HDR) len = Some o
    /\ forall st' r,
         o = Done (st', r) -> r <> NULL ->
         forall i, 0 <= i < len -> i < HDR * (get_size (mem st) b - 1) ->
                   mem st' (r + i) = mem st (b + HDR + i).
Proof.
  intros Hinv Hb Hused Hlen Hfuel.
  destruct (heap_block_facts st bl b Hinv Hb) as (B0 & B1 & B2 & _).
  destruct (lmalloc_spec st bl len fuel Hinv Hlen Hfuel)
    as (st1 & r & bl1 & E & P1 & P2 & P3 & P4).
  destruct (P3 b Hb Hused) as (F1 & F2 & F3).
  rewrite (lrealloc_heap_eq fuel st b len B0 B1 B2). rewrite E.
  destruct (r =? NULL) eqn:Er.
  - eexists. split; [reflexivity|]. intros st' r' Ho Hr'.
    injection Ho as _ Ho. exfalso. apply Hr'. symmetry. exact Ho.
  - apply Z.eqb_neq in Er.
    destruct (mapped_range (kern st1) (b + HDR) len) eqn:Hsrc.
    + destruct (lrealloc_heap_done st bl b len fuel st1 r Hinv Hb Hused Hlen
                  Hfuel E Er Hsrc) as (M1 & _ & M3 & _).
      rewrite M1. eexists. split; [reflexivity|].
      intros st' r' Ho _ i Hi Hip. injection Ho as <- <-.
      rewrite (M3 i Hi). apply F3. unfold HDR in *. lia.
    + unfold memcpy. rewrite Hsrc, andb_false_r.
      eexists. split; [reflexivity|]. discriminate.
Qed.

(** Growing D of the demo heap (32 payload bytes) to 200 bytes: the 32
    bytes are found behind the new pointer. *)
Lemma lrealloc_keeps_old_contents_witness :
  exists o,
    lrealloc 8 demo_state (16777536 + HDR) 200 = Some o
    /\ pointer_of (Some o) = Some 16777632
    /\ forall st' r,
         o = Done (st', r) ->
         forall i, 0 <= i < 32 ->
                   mem st' (r + i) = mem demo_state (16777536 + HDR + i).
Proof.
  assert (Es : get_size (mem demo_state) 16777536 = 2)
    by (vm_compute; reflexivity).
  destruct (lrealloc_keeps_old_contents demo_state demo_blocks 16777536 200 8)
    as (o & H1 & H2).
  - exact demo_state_inv.
  - simpl. auto.
  - vm_compute. reflexivity.
  - word_bound.
  - simpl. lia.
  - assert (E : pointer_of (lrealloc 8 demo_state (16777536 + HDR) 200)
                = Some 16777632) by (vm_compute; reflexivity).
    rewrite H1 in E.
    exists o. split; [exact H1|]. split; [exact E|].
    intros st' r Ho i Hi. subst o. cbn [pointer_of] in E. injection E as E.
    apply (H2 st' r eq_refl).
    + rewrite E. unfold NULL. lia.
    + lia.
    + rewrite Es. unfold HDR. lia.
Defined.

(** ** A product that does not fit *)

(** ** A product that does not fit *)

Lemma block_units_tight len :
  0 <= len < LMEM_MMAP_TRESHOLD ->
  len <= HDR * (block_units len - 1) < len + HDR.
Proof.
  intros H. destruct (block_units_small len H) as (E & _ & Hl).
  split; [exact Hl|]. rewrite E. unfold HDR.
  pose proof (Z.mul_div_le (len + 32 - 1) 32 ltac:(lia)). lia.
Qed.

(** X16.  [lcalloc] multiplies its arguments in [size_t] and does not
    look at the carry.  When the product is [2^64] or more, its low 64
    bits are below the mapping threshold and a free block fits them, the
    call succeeds: it returns a block sized for the truncated product,
    which holds fewer bytes than the caller asked for. *)
Theorem lcalloc_product_wraps st pre b post nlen len fuel :
  alloc_inv st (pre ++ b :: post) ->
  WORD <= nlen * len ->
  wrap (nlen * len) < LMEM_MMAP_TRESHOLD ->
  Forall (fun y => fitsb (mem st) (block_units (wrap (nlen * len))) y = false)
    pre ->
  fitsb (mem st) (block_units (wrap (nlen * len))) b = true ->
  (length pre < fuel)%nat ->
  exists st',
    lcalloc fuel st nlen len = Some (Done (st', b + HDR))
    /\ get_isfree (mem st') b = 0
    /\ get_size (mem st') b = block_units (wrap (nlen * len))
    /\ HDR * (get_size (mem st') b - 1) < wrap (nlen * len) + HDR
    /\ HDR * (get_size (mem st') b - 1) < nlen * len
    /\ (forall i, 0 <= i < wrap (nlen * len) -> mem st' (b + HDR + i) = 0)
    /\ (exists bl', alloc_inv st' bl').
Proof.
  intros Hinv Hbig Hth Hpre Hfit Hfuel.
  pose proof (wrap_range (nlen * len)) as Hw.
  unfold lcalloc. cbv zeta.
  revert Hth Hpre Hfit Hw. generalize (wrap (nlen * len)).
  intros size Hth Hpre Hfit Hw.
  destruct (block_units_small size ltac:(lia)) as (_ & Hu & _).
  destruct (block_units_tight size ltac:(lia)) as [Ht1 Ht2].
  pose proof Hinv as [[Hl (lo & Hlo & Hc) Hn Hb] Hk Hm].
  pose proof Hk as [K1 K2 _ _].
  unfold LMEM_MMAP_TRESHOLD, LMEM_PAGESIZE in K1, Hth.
  rewrite TASK_SIZE_val in K2.
  assert (Hnn : Forall (fun y => y <> NULL) (pre ++ b :: post)).
  { eapply dlseg_nonnull; [exact Hl | exact Hc | lia]. }
  rewrite Forall_forall in Hnn.
  assert (Ib : In b (pre ++ b :: post)) by (apply in_or_app; simpl; auto).
  destruct (contig_In _ _ _ _ b Hc Ib) as (B1 & B2 & B3).
  pose proof Hfit as Hfit'. apply fitsb_true in Hfit'.
  destruct Hfit' as [Hf Hsz].
  pose proof (take_block_spec st pre b post (block_units size) Hinv Hf
                ltac:(lia)) as T.
  cbv zeta in T.
  assert (E : lmalloc fuel st size
              = Some (take_block st b (block_units size), b + HDR)).
  { unfold lmalloc.
    assert (Et : (LMEM_MMAP_TRESHOLD <=? size) = false)
      by (apply Z.leb_gt; unfold LMEM_MMAP_TRESHOLD, LMEM_PAGESIZE; lia).
    rewrite Et.
    rewrite (lmalloc_scan_found st _ pre b post fuel Hl); auto.
    - f_equal. f_equal. apply ptr_add_small.
      unfold HDR in *. rewrite WORD_val. lia.
    - rewrite Forall_forall in *. intros y Hy. split; auto.
      apply Hnn. apply in_or_app. auto. }
  rewrite E.
  assert (Er : (b + HDR =? NULL) = false)
    by (apply Z.eqb_neq; unfold NULL, HDR; lia).
  rewrite Er. cbn [negb].
  revert T. generalize (take_block st b (block_units size)).
  intros st1 (T1 & T2 & T3 & _).
  assert (U : usable st1
                (if block_units size <? get_size (mem st) b
                 then pre ++ b :: (b + HDR * block_units size) :: post
                 else pre ++ b :: post) (b + HDR) size).
  { left. exists b. rewrite T3. split; [|split; [reflexivity | exact Ht1]].
    destruct (block_units size <? get_size (mem st) b);
      apply in_or_app; simpl; auto. }
  unfold memset. rewrite (usable_mapped st1 _ _ _ T1 U).
  eexists. split; [reflexivity|]. cbn [mem set_mem].
  assert (G2 : get_size (fill_bytes (mem st1) (b + HDR) 0 size) b
               = block_units size).
  { rewrite <- T3. unfold get_size, HDR. apply load64_fill_bytes_out. lia. }
  split.
  { rewrite <- T2. unfold get_isfree, HDR. apply load64_fill_bytes_out. lia. }
  split; [exact G2|]. rewrite G2.
  split; [exact Ht2|].
  split; [rewrite WORD_val in Hbig; unfold HDR in *; lia|].
  split.
  { intros i Hi. rewrite fill_bytes_in by lia. reflexivity. }
  eexists. eapply write_payload_inv with (p := b + HDR) (len := size);
    [exact T1 | exact U | intros x Hx; apply fill_bytes_out; exact Hx].
Qed.

(** [lcalloc (2^32, 2^32)] on the demo heap: the product is [2^64], its
    low 64 bits are 0, and the call returns a block of one unit. *)
Lemma lcalloc_product_wraps_witness :
  exists st',
    lcalloc 8 demo_state 4294967296 4294967296
    = Some (Done (st', 16777216 + HDR))
    /\ get_size (mem st') 16777216 = 1
    /\ HDR * (get_size (mem st') 16777216 - 1) < 4294967296 * 4294967296.
Proof.
  destruct (lcalloc_product_wraps demo_state [] 16777216
              [16777376; 16777472; 16777536] 4294967296 4294967296 8)
    as (st' & H1 & _ & H3 & _ & H5 & _).
  - exact demo_state_inv.
  - word_bound.
  - vm_compute. reflexivity.
  - constructor.
  - vm_compute. reflexivity.
  - simpl. lia.
  - exists st'. split; [exact H1|]. split; [|exact H5].
    rewrite H3. reflexivity.
Defined.

(** ** Where the blocks lie *)

(** ** Where the blocks lie *)



